(** * Turing-AI: the learning/retrieval engine and its persistence layer

    A shallow embedding of the server of Greninja9257/Turing-AI and the
    properties of its specification, checked against it. The repository
    holds several generations of the server; the one embedded here is the
    latest, [src/unnamed/part_000] (response cache, Postgres and Replit
    mirrors, backup rotation), and line numbers refer to it. Where an older
    generation ([src/server.js], [src/unnamed/part_001]) differs in a way
    that matters to a property, it is embedded beside it.

    Conventions of the embedding.
    - JavaScript strings are [string]s of ASCII characters; [toLowerCase],
      [trim] and the character classes of the regular expressions act on the
      ASCII range.
    - JavaScript numbers that hold counters, qualities and epoch
      milliseconds are integers in [Z]; the two places where the source
      divides ([ageInDays], [relevanceScore]) are rationals in [Q].
    - [Date.now()] is an explicit argument [now].
    - A plain object used as a dictionary is a [gmap]; reading a key of a
      plain object falls through to [Object.prototype], which is written
      out in [get_prop].
    - [Array.prototype.sort] is the stable sort the language standard
      requires, here a stable insertion sort driven by the comparator.
    - A [throw] is a [Thrown] completion carrying the store as it was left. *)

From Stdlib Require Import ZArith QArith String Ascii List Lia Permutation.
From stdpp Require Import base option list gmap strings sorting.

Local Open Scope string_scope.
Local Open Scope Z_scope.
Local Open Scope list_scope.

(** ** Text utilities *)

Module Text.

Definition code (c : ascii) : nat := nat_of_ascii c.

(** The ASCII members of the class [\s], also what [trim] removes. *)
Definition is_ws (c : ascii) : bool :=
  let n := code c in
  ((9 <=? n) && (n <=? 13))%nat || (n =? 32)%nat.

Definition is_upper (c : ascii) : bool :=
  let n := code c in ((65 <=? n) && (n <=? 90))%nat.

Definition is_lower (c : ascii) : bool :=
  let n := code c in ((97 <=? n) && (n <=? 122))%nat.

Definition is_digit (c : ascii) : bool :=
  let n := code c in ((48 <=? n) && (n <=? 57))%nat.

Definition is_alpha (c : ascii) : bool := is_upper c || is_lower c.

(** [\w] *)
Definition is_word (c : ascii) : bool :=
  is_alpha c || is_digit c || (code c =? 95)%nat.

Definition lower_char (c : ascii) : ascii :=
  if is_upper c then ascii_of_nat (code c + 32) else c.

Fixpoint toLowerCase (s : string) : string :=
  match s with
  | EmptyString => EmptyString
  | String c s' => String (lower_char c) (toLowerCase s')
  end.

Fixpoint filter_chars (p : ascii -> bool) (s : string) : string :=
  match s with
  | EmptyString => EmptyString
  | String c s' =>
      if p c then String c (filter_chars p s') else filter_chars p s'
  end.

Fixpoint all_chars (p : ascii -> bool) (s : string) : bool :=
  match s with
  | EmptyString => true
  | String c s' => p c && all_chars p s'
  end.

Fixpoint drop_ws (s : string) : string :=
  match s with
  | EmptyString => EmptyString
  | String c s' => if is_ws c then drop_ws s' else s
  end.

Fixpoint rev_onto (s acc : string) : string :=
  match s with
  | EmptyString => acc
  | String c s' => rev_onto s' (String c acc)
  end.

Definition rev (s : string) : string := rev_onto s EmptyString.

Definition trim (s : string) : string := rev (drop_ws (rev (drop_ws s))).

(** [s.split(/\s+/)]: every maximal run of white space is one separator; a
    separator at either end leaves an empty string there, and the empty
    string splits into one empty string. [cur] is the current piece,
    reversed; [gap] tells that the previous character was white space. *)
Fixpoint split_ws_go (cur : string) (gap : bool) (s : string) : list string :=
  match s with
  | EmptyString => [rev cur]
  | String c s' =>
      if is_ws c then
        if gap then split_ws_go EmptyString true s'
        else rev cur :: split_ws_go EmptyString true s'
      else split_ws_go (String c cur) false s'
  end.

Definition split_ws (s : string) : list string :=
  split_ws_go EmptyString false s.

Definition mem (w : string) (l : list string) : bool :=
  existsb (String.eqb w) l.

(** [[...new Set(words)]]: first occurrences, in order. *)
Fixpoint uniq_go (seen : list string) (l : list string) : list string :=
  match l with
  | [] => []
  | w :: l' =>
      if mem w seen then uniq_go seen l' else w :: uniq_go (w :: seen) l'
  end.

Definition uniq (l : list string) : list string := uniq_go [] l.

Fixpoint drop_while (p : ascii -> bool) (s : string) : string :=
  match s with
  | EmptyString => EmptyString
  | String c s' => if p c then drop_while p s' else s
  end.

(** [s] with the prefix [p] removed, when [s] starts with [p] up to the
    case of letters; [p] is in lower case. *)
Fixpoint strip_prefix_ci (p s : string) : option string :=
  match p, s with
  | EmptyString, _ => Some s
  | String a p', String c s' =>
      if Ascii.eqb a (lower_char c) then strip_prefix_ci p' s' else None
  | String _ _, EmptyString => None
  end.

(** Whether some suffix of [s] satisfies [at_start]: a regular expression
    without anchor is tried at every position. *)
Fixpoint somewhere (at_start : string -> bool) (s : string) : bool :=
  at_start s ||
  match s with
  | EmptyString => false
  | String _ s' => somewhere at_start s'
  end.

Definition starts_with_ci (p : string) (s : string) : bool :=
  match strip_prefix_ci p s with Some _ => true | None => false end.

(** [/p/i.test(s)] for a literal [p] in lower case. *)
Definition contains_ci (p s : string) : bool := somewhere (starts_with_ci p) s.

(** [s.replace(/\s+/g, ' ')] *)
Fixpoint collapse_ws_go (gap : bool) (s : string) : string :=
  match s with
  | EmptyString => EmptyString
  | String c s' =>
      if is_ws c then
        if gap then collapse_ws_go true s'
        else String " "%char (collapse_ws_go true s')
      else String c (collapse_ws_go false s')
  end.

Definition collapse_ws (s : string) : string := collapse_ws_go false s.

(** [s.substring(0, n)] *)
Fixpoint substring0 (n : nat) (s : string) : string :=
  match n, s with
  | O, _ => EmptyString
  | S n', String c s' => String c (substring0 n' s')
  | S _, EmptyString => EmptyString
  end.

End Text.

(** ** IntelligentLearner.extractKeywords (lines 514-531) *)

Definition stopWords : list string :=
  [ "the"; "a"; "an"; "and"; "or"; "but"; "in"; "on"; "at"; "to"; "for";
    "of"; "with"; "by"; "from"; "is"; "are"; "was"; "were"; "be"; "been";
    "being"; "have"; "has"; "had"; "do"; "does"; "did"; "will"; "would";
    "could"; "should"; "may"; "might"; "can"; "this"; "that"; "these";
    "those"; "i"; "you"; "he"; "she"; "it"; "we"; "they"; "what"; "which";
    "who"; "when"; "where"; "why"; "how" ].

(** The complement of [[^a-z0-9\s]]. *)
Definition keyword_char (c : ascii) : bool :=
  Text.is_lower c || Text.is_digit c || Text.is_ws c.

Definition extractKeywords (text : string) : list string :=
  let words :=
    filter (fun w => (2 <? String.length w)%nat && negb (Text.mem w stopWords))
           (Text.split_ws (Text.filter_chars keyword_char (Text.toLowerCase text))) in
  Text.uniq words.

(** ** The knowledge base *)

(** A PatternEntry. Entries written by [learnPattern] always carry a
    [confidence]; the source reads the field as [confidence || 1], so a
    snapshot loaded from disk may lack it. *)
Record entry := Entry {
  input : string;
  response : string;
  quality : Z;
  confidence : option Z;
  timestamp : Z
}.

Record Stats := mkStats {
  totalMessages : Z;
  totalConversations : Z;
  trainingDataPoints : Z;
  garbageFiltered : Z;
  liveConversationsLearned : Z
}.

(** [globalMemory]. Its [patterns] field is never read or written by the
    server and is left out. *)
Record memory := Memory {
  contextPairs : list entry;
  semanticClusters : gmap string (list entry);
  qualityScores : gmap string Z;
  stats : Stats
}.

Definition emptyStats : Stats := mkStats 0 0 0 0 0.

Definition emptyMemory : memory := Memory [] ∅ ∅ emptyStats.

Definition set_contextPairs (cp : list entry) (m : memory) : memory :=
  Memory cp (semanticClusters m) (qualityScores m) (stats m).

Definition set_semanticClusters (sc : gmap string (list entry)) (m : memory)
  : memory :=
  Memory (contextPairs m) sc (qualityScores m) (stats m).

Definition set_qualityScores (qs : gmap string Z) (m : memory) : memory :=
  Memory (contextPairs m) (semanticClusters m) qs (stats m).

Definition set_stats (st : Stats) (m : memory) : memory :=
  Memory (contextPairs m) (semanticClusters m) (qualityScores m) st.

(** *** Objects used as dictionaries *)

(** The property names every plain object inherits from
    [Object.prototype]. *)
Definition object_prototype_keys : list string :=
  [ "constructor"; "__defineGetter__"; "__defineSetter__"; "hasOwnProperty";
    "__lookupGetter__"; "__lookupSetter__"; "isPrototypeOf";
    "propertyIsEnumerable"; "toString"; "valueOf"; "__proto__";
    "toLocaleString" ].

(** What [obj[key]] evaluates to: an own property, a (truthy, non-array)
    member of the prototype, or [undefined]. *)
Inductive prop (A : Type) : Type :=
  | Own (a : A)
  | Inherited
  | Undefined.
Arguments Own {A} a.
Arguments Inherited {A}.
Arguments Undefined {A}.

Definition get_prop {A : Type} (o : gmap string A) (key : string) : prop A :=
  match o !! key with
  | Some a => Own a
  | None => if Text.mem key object_prototype_keys then Inherited else Undefined
  end.

(** *** Completions *)

Inductive completion (S : Type) : Type :=
  | Returned (s : S)
  | Thrown (s : S).
Arguments Returned {S} s.
Arguments Thrown {S} s.

Definition store_of {S : Type} (c : completion S) : S :=
  match c with Returned s => s | Thrown s => s end.

Definition returns {S : Type} (c : completion S) : bool :=
  match c with Returned _ => true | Thrown _ => false end.

(** [l.forEach(f)] for a callback that updates the store and may throw. *)
Fixpoint forEach {A S : Type} (f : S -> A -> completion S) (l : list A) (s : S)
  : completion S :=
  match l with
  | [] => Returned s
  | x :: l' =>
      match f s x with
      | Returned s' => forEach f l' s'
      | Thrown s' => Thrown s'
      end
  end.

(** *** Arrays *)

Fixpoint findIndex {A : Type} (p : A -> bool) (l : list A) : option nat :=
  match l with
  | [] => None
  | x :: l' => if p x then Some 0%nat else S <$> findIndex p l'
  end.

(** The numbers a comparator may return, with the test [n > 0]. *)
Class Signed (N : Type) := positive : N -> bool.
#[global] Instance Signed_Z : Signed Z := fun n => 0 <? n.
#[global] Instance Signed_Q : Signed Q := fun n => negb (Qle_bool n 0).

(** Stable insertion: [x] stood before every element of [l] and moves
    behind [y] only when the comparator is positive on [(x, y)]. *)
Fixpoint insert_by {N : Type} `{Signed N} {A : Type} (cmp : A -> A -> N)
    (x : A) (l : list A) : list A :=
  match l with
  | [] => [x]
  | y :: l' => if positive (cmp x y) then y :: insert_by cmp x l' else x :: l
  end.

Definition sort {N : Type} `{Signed N} {A : Type} (cmp : A -> A -> N)
    (l : list A) : list A :=
  foldr (insert_by cmp) [] l.

(** [l.slice(0, n)] *)
Definition slice0 {A : Type} (n : nat) (l : list A) : list A := take n l.

(** ** IntelligentLearner.learnPattern (lines 533-645) *)

(** [confidence || 1] *)
Definition confidence_or_1 (c : option Z) : Z :=
  match c with
  | Some c => if c =? 0 then 1 else c
  | None => 1
  end.

Definition score (e : entry) : Z := quality e * confidence_or_1 (confidence e).

(** The comparator of both sorts, [scoreB - scoreA]. *)
Definition by_score_desc (a b : entry) : Z := score b - score a.

Definition has_input (inputLower : string) (item : entry) : bool :=
  String.eqb (input item) inputLower.

Definition reinforce (existing : entry) (now : Z) : entry :=
  Entry (input existing) (response existing)
        (Z.min 100 (quality existing + 2))
        (Some (confidence_or_1 (confidence existing) + 1))
        now.

Definition fresh (inputLower resp : string) (q now : Z) : entry :=
  Entry inputLower resp q (Some 1) now.

Definition ms_per_day : Z := 1000 * 60 * 60 * 24.

Definition ageInDays (now ts : Z) : Q :=
  (inject_Z (now - ts) / inject_Z ms_per_day)%Q.

(** [ageInDays > 30] *)
Definition older_than_30_days (now ts : Z) : bool :=
  negb (Qle_bool (ageInDays now ts) (inject_Z 30)).

Definition supersedes (q now : Z) (existing : entry) : bool :=
  (quality existing + 10 <? q) || older_than_30_days now (timestamp existing).

(** The find / reinforce / replace / insert step the source applies to a
    cluster and to [contextPairs] alike. *)
Definition upsert (inputLower resp : string) (q now : Z) (l : list entry)
  : list entry :=
  match findIndex (has_input inputLower) l with
  | Some existingIndex =>
      match l !! existingIndex with
      | Some existing =>
          if String.eqb (response existing) resp then
            <[existingIndex := reinforce existing now]> l
          else if supersedes q now existing then
            <[existingIndex := fresh inputLower resp q now]> l
          else l
      | None => l
      end
  | None => l ++ [fresh inputLower resp q now]
  end.

Definition cluster_cap : nat := 20.
Definition pairs_cap : nat := 1000.

(** Sort by score, keep the first 20. *)
Definition cap_cluster (l : list entry) : list entry :=
  let sorted := sort by_score_desc l in
  if (cluster_cap <? length sorted)%nat then slice0 cluster_cap sorted
  else sorted.

(** [contextPairs] is sorted only when it has outgrown 1000. *)
Definition cap_pairs (l : list entry) : list entry :=
  if (pairs_cap <? length l)%nat then slice0 pairs_cap (sort by_score_desc l)
  else l.

(** The body of [keywords.forEach]. A keyword that names a member of
    [Object.prototype] and has no cluster of its own makes
    [semanticClusters[keyword]] a function: it is truthy, so no array is
    created, and calling [findIndex] on it throws a [TypeError]. *)
Definition learn_keyword (inputLower resp : string) (q now : Z)
    (m : memory) (keyword : string) : completion memory :=
  let step l :=
    set_semanticClusters
      (<[keyword := cap_cluster (upsert inputLower resp q now l)]>
         (semanticClusters m)) m in
  match get_prop (semanticClusters m) keyword with
  | Own l => Returned (step l)
  | Undefined => Returned (step [])
  | Inherited => Thrown m
  end.

(** [qualityScores[inputLower] = quality]; assigning a number to the key
    [__proto__] of a plain object is ignored. *)
Definition set_prop (key : string) (v : Z) (o : gmap string Z) : gmap string Z :=
  if String.eqb key "__proto__" then o else <[key := v]> o.

Definition learnPattern (text resp : string) (q now : Z) (m : memory)
  : completion memory :=
  let keywords := extractKeywords text in
  let inputLower := Text.toLowerCase text in
  match forEach (learn_keyword inputLower resp q now) keywords m with
  | Thrown m1 => Thrown m1
  | Returned m1 =>
      let m2 :=
        if 60 <=? q then
          set_contextPairs
            (cap_pairs (upsert inputLower resp q now (contextPairs m1))) m1
        else m1 in
      Returned (set_qualityScores (set_prop inputLower q (qualityScores m2)) m2)
  end.

(** ** MetricsCollector (lines 148-193) and ResponseCache (lines 201-242) *)

Record Metrics := mkMetrics {
  requestCount : Z;
  errorCount : Z;
  totalResponseTime : Z;
  learningCount : Z;
  cacheHits : Z;
  cacheMisses : Z;
  startTime : Z
}.

Definition recordCacheHit (mt : Metrics) : Metrics :=
  mkMetrics (requestCount mt) (errorCount mt) (totalResponseTime mt)
            (learningCount mt) (cacheHits mt + 1) (cacheMisses mt) (startTime mt).

Definition recordCacheMiss (mt : Metrics) : Metrics :=
  mkMetrics (requestCount mt) (errorCount mt) (totalResponseTime mt)
            (learningCount mt) (cacheHits mt) (cacheMisses mt + 1) (startTime mt).

Definition recordRequest (duration : Z) (hasError : bool) (mt : Metrics) : Metrics :=
  mkMetrics (requestCount mt + 1)
            (if hasError then errorCount mt + 1 else errorCount mt)
            (totalResponseTime mt + duration)
            (learningCount mt) (cacheHits mt) (cacheMisses mt) (startTime mt).

(** A JavaScript [Map] with string keys: an association list in insertion
    order, one binding per key. *)
Module JsMap.

Definition t (V : Type) : Type := list (string * V).

Fixpoint get {V : Type} (key : string) (m : t V) : option V :=
  match m with
  | [] => None
  | (k, v) :: m' => if String.eqb k key then Some v else get key m'
  end.

(** [set] keeps the position of a key that is already bound. *)
Fixpoint set {V : Type} (key : string) (v : V) (m : t V) : t V :=
  match m with
  | [] => [(key, v)]
  | (k, v') :: m' =>
      if String.eqb k key then (k, v) :: m' else (k, v') :: set key v m'
  end.

Definition delete {V : Type} (key : string) (m : t V) : t V :=
  filter (fun kv => negb (String.eqb (fst kv) key)) m.

Definition size {V : Type} (m : t V) : nat := length m.

(** [m.keys().next().value] *)
Definition first_key {V : Type} (m : t V) : option string :=
  match m with
  | [] => None
  | (k, _) :: _ => Some k
  end.

End JsMap.

Record cached := Cached {
  cached_response : string;
  cached_timestamp : Z
}.

Definition RESPONSE_CACHE_TTL_MS : Z := 5000.

(** The part of the process state the chat path touches. *)
Record server := Server {
  globalMemory : memory;
  responseCache : JsMap.t cached;
  metrics : Metrics;
  sessions : JsMap.t Z
}.

Definition set_globalMemory (m : memory) (s : server) : server :=
  Server m (responseCache s) (metrics s) (sessions s).

Definition set_responseCache (c : JsMap.t cached) (s : server) : server :=
  Server (globalMemory s) c (metrics s) (sessions s).

Definition set_metrics (mt : Metrics) (s : server) : server :=
  Server (globalMemory s) (responseCache s) mt (sessions s).

(** A value-returning call: it returns a value or throws, and leaves a
    state either way. *)
Inductive result (A S : Type) : Type :=
  | Ret (a : A) (s : S)
  | Throw (s : S).
Arguments Ret {A S} a s.
Arguments Throw {A S} s.

Definition state_of {A S : Type} (r : result A S) : S :=
  match r with Ret _ s => s | Throw s => s end.

Definition value_of {A S : Type} (r : result A S) : option A :=
  match r with Ret a _ => Some a | Throw _ => None end.

(** An element of the [candidates] array: a stored entry, or the member of
    [Object.prototype] that [semanticClusters[keyword]] evaluates to when
    [keyword] names one and has no cluster ([concat] appends a value that is
    not an array as one element). *)
Inductive candidate : Type :=
  | Stored (e : entry)
  | PrototypeMember.

Record scoredCandidate := Scored {
  scored_entry : entry;
  relevanceScore : Q
}.

Definition by_relevance_desc (a b : scoredCandidate) : Q :=
  (relevanceScore b - relevanceScore a)%Q.

Section Matcher.

(** [crypto.createHash('md5').update(s).digest('hex')] *)
Variable md5 : string -> string.

Definition _hash (message : string) : string :=
  md5 (Text.trim (Text.toLowerCase message)).

(** [ResponseCache.get]: the value, and the cache after the expired binding
    has been deleted. *)
Definition cache_get (now : Z) (message : string) (c : JsMap.t cached)
  : option string * JsMap.t cached :=
  let key := _hash message in
  match JsMap.get key c with
  | None => (None, c)
  | Some en =>
      if RESPONSE_CACHE_TTL_MS <? now - cached_timestamp en
      then (None, JsMap.delete key c)
      else (Some (cached_response en), c)
  end.

(** [ResponseCache.set] *)
Definition cache_set (now : Z) (message resp : string) (c : JsMap.t cached)
  : JsMap.t cached :=
  let c1 := JsMap.set (_hash message) (Cached resp now) c in
  if (1000 <? JsMap.size c1)%nat then
    match JsMap.first_key c1 with
    | Some firstKey => JsMap.delete firstKey c1
    | None => c1
    end
  else c1.

(** The truthiness of a string. *)
Definition truthy (s : string) : bool := negb (String.eqb s "").

(** [keywords.forEach(keyword => ...)] of step 2. *)
Definition collect (sc : gmap string (list entry)) (keywords : list string)
  : list candidate :=
  fold_left
    (fun candidates keyword =>
       match get_prop sc keyword with
       | Own l => candidates ++ map Stored l
       | Inherited => candidates ++ [PrototypeMember]
       | Undefined => candidates
       end)
    keywords [].

Definition overlap (keywords candidateKeywords : list string) : Z :=
  Z.of_nat (length (filter (fun k => Text.mem k candidateKeywords) keywords)).

Definition score_candidate (keywords : list string) (e : entry) : scoredCandidate :=
  let candidateKeywords := extractKeywords (input e) in
  let relevance :=
    (inject_Z (overlap keywords candidateKeywords) /
     inject_Z (Z.max (Z.of_nat (length keywords)) 1))%Q in
  Scored e (relevance * inject_Z (quality e))%Q.

(** [candidates.map(...)]: reading [candidate.input] of the prototype member
    gives [undefined], and [extractKeywords(undefined)] throws. *)
Fixpoint score_all (keywords : list string) (cs : list candidate)
  : option (list scoredCandidate) :=
  match cs with
  | [] => Some []
  | Stored e :: cs' => cons (score_candidate keywords e) <$> score_all keywords cs'
  | PrototypeMember :: _ => None
  end.

(** [IntelligentLearner.findBestResponse] (lines 647-703) after the cache
    has been consulted: steps 1 to 3. This is the whole of the function in
    the older generations, which have no cache and so no [cache_set]. *)
Definition search (text : string) (now : Z) (s1 : server)
  : result (option string) server :=
  let keywords := extractKeywords text in
  let inputLower := Text.toLowerCase text in
  match find (has_input inputLower) (contextPairs (globalMemory s1)) with
  | Some exactMatch =>
      Ret (Some (response exactMatch))
          (set_responseCache
             (cache_set now text (response exactMatch) (responseCache s1)) s1)
  | None =>
      let candidates := collect (semanticClusters (globalMemory s1)) keywords in
      match candidates with
      | [] => Ret None s1
      | _ :: _ =>
          match score_all keywords candidates with
          | None => Throw s1
          | Some scored =>
              match sort by_relevance_desc scored with
              | top :: _ =>
                  if negb (Qle_bool (relevanceScore top) (inject_Z 30)) then
                    Ret (Some (response (scored_entry top)))
                        (set_responseCache
                           (cache_set now text (response (scored_entry top))
                                      (responseCache s1)) s1)
                  else Ret None s1
              | [] => Ret None s1
              end
          end
      end
  end.

(** [null] is [None]. A cached response that is the empty string is falsy
    and counts as a miss. *)
Definition findBestResponse (text : string) (now : Z) (s : server)
  : result (option string) server :=
  let '(cachedResponse, c1) := cache_get now text (responseCache s) in
  let hit := match cachedResponse with Some r => truthy r | None => false end in
  if hit then
    Ret cachedResponse
        (set_metrics (recordCacheHit (metrics s)) (set_responseCache c1 s))
  else
    search text now
      (set_metrics (recordCacheMiss (metrics s)) (set_responseCache c1 s)).

End Matcher.

(** ** Logging *)

Inductive level : Type := INFO | WARN | ERROR.

Definition log_line : Type := (level * string)%type.

(** ** Persistence *)

Module Persistence.

(** *** Snapshots as parsed JSON *)

#[local] Unset Elimination Schemes.
Inductive json : Type :=
  | JNull
  | JBool (b : bool)
  | JNumber (n : Q)
  | JString (s : string)
  | JArray (items : list json)
  | JObject (members : list (string * json)).
#[local] Set Elimination Schemes.

(** JavaScript truthiness of a parsed value. *)
Definition json_truthy (v : json) : bool :=
  match v with
  | JNull => false
  | JBool b => b
  | JNumber n => negb (Qeq_bool n 0)
  | JString s => negb (String.eqb s "")
  | JArray _ => true
  | JObject _ => true
  end.

Fixpoint member (key : string) (members : list (string * json)) : option json :=
  match members with
  | [] => None
  | (k, v) :: rest => if String.eqb k key then Some v else member key rest
  end.

(** [loaded.key] for the three keys [loadMemory] reads ([stats],
    [contextPairs], [semanticClusters]): [None] when reading throws (the
    value is [null]), [Some None] for [undefined]. None of the three keys
    is an index, [length] or a member of a prototype, so every value but an
    object gives [undefined]. *)
Definition read_member (loaded : json) (key : string) : option (option json) :=
  match loaded with
  | JNull => None
  | JObject members => Some (member key members)
  | _ => Some None
  end.

Definition truthy_member (loaded : json) (key : string) : option bool :=
  match read_member loaded key with
  | None => None
  | Some None => Some false
  | Some (Some v) => Some (json_truthy v)
  end.

(** [loaded.stats && loaded.contextPairs && loaded.semanticClusters], with
    the short circuit of [&&]; [None] when the first read throws. *)
Definition valid_structure (loaded : json) : option bool :=
  match truthy_member loaded "stats" with
  | None => None
  | Some false => Some false
  | Some true =>
      match truthy_member loaded "contextPairs" with
      | None => None
      | Some false => Some false
      | Some true => truthy_member loaded "semanticClusters"
      end
  end.

(** *** loadMemory (lines 869-916) *)

(** What the outside world answers during a load: whether the directories
    can be created, and the text each source yields ([None]: not
    configured, absent, or the read failed; the readers of the two remote
    stores catch their own errors and return [null]). *)
Record load_env := LoadEnv {
  mkdir_ok : bool;
  from_postgres : option string;
  from_replit : option string;
  from_persistent_file : option string;
  from_memory_file : option string
}.

(** [if (!memoryStr) memoryStr = next] *)
Definition or_else (memoryStr next : option string) : option string :=
  match memoryStr with
  | Some s => if String.eqb s "" then next else memoryStr
  | None => next
  end.

Definition nonempty (memoryStr : option string) : option string :=
  or_else memoryStr None.

(** How [loadMemory] settles and what [globalMemory] is afterwards. *)
Inductive load_result : Type :=
  | LoadRejected                         (* the promise rejects: no server *)
  | KeptDefaults (log : log_line)
  | Replaced (loaded : json) (log : log_line).

(** The text [loadMemory] goes on to parse: the first source, in the order
    Postgres, Replit DB, persistent file, primary file, that yields a
    string that is not empty. *)
Definition chosen_text (env : load_env) : option string :=
  nonempty
    (or_else (or_else (or_else (or_else None (from_postgres env))
                               (from_replit env))
                      (from_persistent_file env))
             (from_memory_file env)).

Section Load.

(** [JSON.parse]; [None] when it throws a [SyntaxError]. *)
Variable JSON_parse : string -> option json.

Definition loadMemory (env : load_env) : load_result :=
  if negb (mkdir_ok env) then LoadRejected   (* [await ensureDirectories()] is outside the [try] *)
  else
    match chosen_text env with
    | Some text =>
        match JSON_parse text with
        | None => KeptDefaults (ERROR, "Error loading memory")
        | Some loaded =>
            match valid_structure loaded with
            | None => KeptDefaults (ERROR, "Error loading memory")
            | Some true => Replaced loaded (INFO, "Memory loaded successfully")
            | Some false =>
                KeptDefaults (WARN, "Invalid memory structure, using defaults")
            end
        end
    | None => KeptDefaults (INFO, "No existing memory found, starting fresh")
    end.

End Load.

(** The snapshot passes the check of [loadMemory]. *)
Definition accepted (loaded : json) : Prop := valid_structure loaded = Some true.

(** *** saveMemory (lines 918-945) and the two remote writers (lines 840-867) *)

(** What the outside world answers during a save. A remote store is absent
    ([None]) or accepts or refuses the write. *)
Record save_env := SaveEnv {
  write_temp_ok : bool;          (* fs.writeFile(MEMORY_FILE + '.tmp') *)
  rename_temp_ok : bool;         (* fs.rename(tempFile, MEMORY_FILE) *)
  write_persistent_ok : bool;    (* fs.writeFile(PERSISTENT_MEMORY_FILE + '.tmp') *)
  rename_persistent_ok : bool;   (* fs.rename(persistentTemp, PERSISTENT_MEMORY_FILE) *)
  postgres : option bool;
  replit_db : option bool
}.

(** The stores a snapshot text can reach. *)
Record disk := Disk {
  primary_file : option string;
  persistent_file : option string;
  postgres_row : option string;
  replit_value : option string
}.

Inductive settlement : Type := Fulfilled | RejectedWith (log : log_line).

(** One of the two calls [saveMemory] starts without awaiting. *)
Inductive remote : Type := ToPostgres | ToReplitDB.

Record save_result := SaveResult {
  settled : settlement;         (* what the caller's [await] sees *)
  save_log : list log_line;     (* logged before [saveMemory] settles *)
  after : disk;                 (* the files when [saveMemory] settles *)
  detached : list remote        (* calls started and left running *)
}.

(** The [try] block of [saveMemory], step by step; the first failing step
    lands in [catch], which logs at error level and rethrows. *)
Definition saveMemory (env : save_env) (memoryStr : string) (d : disk) : save_result :=
  let failed d' :=
    SaveResult (RejectedWith (ERROR, "Failed to save memory"))
               [(ERROR, "Failed to save memory")] d' [] in
  if negb (write_temp_ok env) then failed d
  else if negb (rename_temp_ok env) then failed d
  else
    let d1 := Disk (Some memoryStr) (persistent_file d) (postgres_row d) (replit_value d) in
    if negb (write_persistent_ok env) then failed d1
    else if negb (rename_persistent_ok env) then failed d1
    else
      let d2 := Disk (Some memoryStr) (Some memoryStr) (postgres_row d) (replit_value d) in
      SaveResult Fulfilled [(INFO, "Memory saved successfully")] d2
                 [ToPostgres; ToReplitDB].

(** [saveMemoryToPostgres] and [saveMemoryToReplitDB], run to completion:
    each returns at once when its store is not configured and catches its
    own failure, so the promise always fulfils and the [.catch] attached by
    [saveMemory] never runs. *)
Definition run_remote (env : save_env) (memoryStr : string) (r : remote) (d : disk)
  : settlement * list log_line * disk :=
  match r with
  | ToPostgres =>
      match postgres env with
      | None => (Fulfilled, [], d)
      | Some true =>
          (Fulfilled, [(INFO, "Memory saved to Postgres")],
           Disk (primary_file d) (persistent_file d) (Some memoryStr) (replit_value d))
      | Some false => (Fulfilled, [(WARN, "Failed to save memory to Postgres")], d)
      end
  | ToReplitDB =>
      match replit_db env with
      | None => (Fulfilled, [], d)
      | Some true =>
          (Fulfilled, [(INFO, "Memory saved to Replit DB")],
           Disk (primary_file d) (persistent_file d) (postgres_row d) (Some memoryStr))
      | Some false => (Fulfilled, [(WARN, "Failed to save memory to Replit DB")], d)
      end
  end.

End Persistence.

(** ** The chat endpoint up to the garbage check (lines 1200-1233) *)

Definition MAX_MESSAGE_LENGTH : nat := 2000.
Definition MIN_MESSAGE_LENGTH : nat := 1.

(** A field of the request body: missing, a string, or a value of another
    type (of which only the truthiness matters). *)
Inductive field : Type :=
  | Missing
  | Str (s : string)
  | NotAString (truthy : bool).

(** *** InputValidator (lines 308-353) *)

(** [/on\w+\s*=/i] at the start of [s]. The three classes are disjoint, so
    the greedy match is the only one. *)
Definition event_handler_here (s : string) : bool :=
  match Text.strip_prefix_ci "on" s with
  | None => false
  | Some rest =>
      let after_word := Text.drop_while Text.is_word rest in
      negb (String.eqb after_word rest) &&
      match Text.drop_ws after_word with
      | String c _ => Ascii.eqb c "="%char
      | EmptyString => false
      end
  end.

Definition suspicious (message : string) : bool :=
  Text.contains_ci "<script" message ||
  Text.contains_ci "javascript:" message ||
  Text.somewhere event_handler_here message ||
  Text.contains_ci "data:text/html" message.

Inductive validation : Type :=
  | Invalid (error : string)
  | Valid (value : string).

Definition validateMessage (message : field) : validation :=
  match message with
  | Str message =>
      let trimmed := Text.trim message in
      if (String.length trimmed <? MIN_MESSAGE_LENGTH)%nat then
        Invalid "Message is too short"
      else if (MAX_MESSAGE_LENGTH <? String.length trimmed)%nat then
        Invalid "Message exceeds maximum length of 2000 characters"
      else if suspicious message then
        Invalid "Message contains suspicious content"
      else Valid trimmed
  | _ => Invalid "Message must be a string"
  end.

(** [[a-zA-Z0-9_-]] *)
Definition session_char (c : ascii) : bool :=
  Text.is_word c || Ascii.eqb c "-"%char.

Definition validateSessionId (sessionId : string) : validation :=
  if (1 <=? String.length sessionId)%nat &&
     (String.length sessionId <=? 100)%nat &&
     Text.all_chars session_char sessionId
  then Valid sessionId
  else Invalid "Invalid session ID format".

(** [const { sessionId = 'default' } = req.body] followed by
    [validateSessionId(sessionId)]. *)
Definition session_of (sessionId : field) : validation :=
  match sessionId with
  | Missing => validateSessionId "default"
  | Str id => validateSessionId id
  | NotAString _ => Invalid "Session ID must be a string"
  end.

(** *** TextCleaner.clean (lines 359-380) *)

Definition speakers : list string :=
  [ "human"; "person"; "speaker"; "user"; "assistant"; "ai"; "bot" ].

(** The alternation [(Human|Person|Speaker|User|Assistant|AI|Bot)] at the
    start, without regard to case: what follows the name. No name is a
    prefix of another, so at most one alternative matches. *)
Fixpoint after_speaker (names : list string) (s : string) : option string :=
  match names with
  | [] => None
  | name :: names' =>
      match Text.strip_prefix_ci name s with
      | Some rest => Some rest
      | None => after_speaker names' s
      end
  end.

(** [\s*:\s*] at the start: what follows. *)
Definition after_colon (s : string) : option string :=
  match Text.drop_ws s with
  | String c rest => if Ascii.eqb c ":"%char then Some (Text.drop_ws rest) else None
  | EmptyString => None
  end.

(** [s.replace(/^(...)\s*[0-9]+\s*:\s*/i, '')] *)
Definition strip_numbered (s : string) : string :=
  match after_speaker speakers s with
  | None => s
  | Some rest =>
      let r1 := Text.drop_ws rest in
      let r2 := Text.drop_while Text.is_digit r1 in
      if String.eqb r2 r1 then s
      else match after_colon r2 with Some r => r | None => s end
  end.

(** [s.replace(/^(...)\s*[A-Z]\s*:\s*/i, '')] *)
Definition strip_lettered (s : string) : string :=
  match after_speaker speakers s with
  | None => s
  | Some rest =>
      match Text.drop_ws rest with
      | String c r =>
          if Text.is_alpha c
          then match after_colon r with Some r' => r' | None => s end
          else s
      | EmptyString => s
      end
  end.

(** [s.replace(/^(...)\s*:\s*/i, '')] *)
Definition strip_bare (s : string) : string :=
  match after_speaker speakers s with
  | None => s
  | Some rest => match after_colon rest with Some r => r | None => s end
  end.

Definition is_quote (c : ascii) : bool :=
  (Text.code c =? 34)%nat || (Text.code c =? 39)%nat.

(** [s.replace(/^["']|["']$/g, '')]: a quote at the start goes, and so
    does a quote at the end of what is left. *)
Definition strip_quotes (s : string) : string :=
  let s1 := match s with
            | String c rest => if is_quote c then rest else s
            | EmptyString => s
            end in
  match Text.rev s1 with
  | String c rest => if is_quote c then Text.rev rest else s1
  | EmptyString => s1
  end.

Definition clean (text : string) : string :=
  if String.eqb text "" then ""
  else
    let cleaned := Text.trim text in
    let cleaned := strip_numbered cleaned in
    let cleaned := strip_lettered cleaned in
    let cleaned := strip_bare cleaned in
    let cleaned := strip_quotes cleaned in
    let cleaned := Text.trim (Text.collapse_ws cleaned) in
    Text.substring0 MAX_MESSAGE_LENGTH cleaned.

(** The older handler cleans without the final [substring]. *)
Definition clean_legacy (text : string) : string :=
  if String.eqb text "" then ""
  else
    let cleaned := Text.trim text in
    let cleaned := strip_numbered cleaned in
    let cleaned := strip_lettered cleaned in
    let cleaned := strip_bare cleaned in
    let cleaned := strip_quotes cleaned in
    Text.trim (Text.collapse_ws cleaned).

Definition fallback_reply : string :=
  "Let's keep our conversation meaningful and respectful! 😊".

(** What the handler sends. [Proceeds] stands for a request that has
    passed the check and goes on to the matching and learning steps. *)
Inductive reply : Type :=
  | BadRequest (error : string)
  | InternalError
  | Answer (response : string) (learned : bool) (st : Stats) (activeUsers : nat)
  | AnswerLegacy (response : string) (learned : bool) (st : Stats)
  | Proceeds (cleanedMessage : string).

Definition bump_garbageFiltered (m : memory) : memory :=
  set_stats
    (mkStats (totalMessages (stats m)) (totalConversations (stats m))
             (trainingDataPoints (stats m)) (garbageFiltered (stats m) + 1)
             (liveConversationsLearned (stats m)))
    m.

Section Intake.

(** The rules of [GarbageClassifier.isGarbage] (lines 431-480) after the
    length rule: special characters, spam and harmful patterns, profanity,
    shouting, vowel ratio. They differ between the generations of the
    server and are left open. *)
Variable content_rules : string -> bool.

Definition isGarbage (text : string) : bool :=
  let lower := Text.trim (Text.toLowerCase text) in
  if (String.length lower <? 1)%nat || (500 <? String.length lower)%nat then true
  else content_rules text.

(** [!cleanedMessage || GarbageClassifier.isGarbage(cleanedMessage)] *)
Definition rejected (cleanedMessage : string) : bool :=
  String.eqb cleanedMessage "" || isGarbage cleanedMessage.

(** [app.post('/api/chat')] from the destructuring of the body to the
    garbage check; [duration] is [Date.now() - startTime]. *)
Definition chat_intake (message sessionId : field) (duration : Z) (s : server)
  : reply * server :=
  match validateMessage message with
  | Invalid error =>
      (BadRequest error, set_metrics (recordRequest duration true (metrics s)) s)
  | Valid trimmed =>
      match session_of sessionId with
      | Invalid error =>
          (BadRequest error, set_metrics (recordRequest duration true (metrics s)) s)
      | Valid id =>
          let cleanedMessage := clean trimmed in
          if rejected cleanedMessage then
            let s1 := set_globalMemory (bump_garbageFiltered (globalMemory s)) s in
            let s2 := set_metrics (recordRequest duration false (metrics s1)) s1 in
            (Answer fallback_reply false (stats (globalMemory s2))
                    (JsMap.size (sessions s2)), s2)
          else (Proceeds cleanedMessage, s)
      end
  end.

(** The same stretch of the older handler ([src/server.js], lines
    451-470): no validation beyond
    [if (!message)], no counter. A truthy message that is not a string
    makes [text.trim] throw, which the handler answers with status 500. *)
Definition chat_intake_legacy (message : field) (s : server)
  : reply * server :=
  match message with
  | Missing | NotAString false => (BadRequest "Message is required", s)
  | NotAString true => (InternalError, s)
  | Str text =>
      if String.eqb text "" then (BadRequest "Message is required", s)
      else
        let cleanedMessage := clean_legacy text in
        if rejected cleanedMessage then
          (AnswerLegacy fallback_reply false (stats (globalMemory s)), s)
        else
          (Proceeds cleanedMessage, s)
  end.

End Intake.

(** ** The save coordinator on the event loop (lines 947-972, 1013-1036) *)

(** [queueSave], the callback it hands to [setImmediate], the promise chain
    [saveQueue], and [gracefulShutdown], as a transition system whose steps
    are the stretches of code the event loop runs without interruption.
    The store is represented by the log of the mutations applied to it,
    newest first; a snapshot is the log at the moment [JSON.stringify]
    runs, so a snapshot includes a mutation exactly when the mutation is in
    it. *)
Module Coordinator.

Section Model.

Context {mutation : Type}.

(** Who called [saveMemory]: a job of the queue, or [gracefulShutdown]
    directly. *)
Inductive origin : Type := Queued | Direct.

(** How a [saveMemory] call ends: both files written; failed before the
    primary file was replaced; failed after. *)
Inductive ending : Type := Saved | FailedBeforePrimary | FailedAfterPrimary.

(** Where [gracefulShutdown] stands. [AwaitingQueue n] has evaluated
    [saveQueue] to the promise of the [n]-th job and awaits it. *)
Inductive stage : Type :=
  | Serving
  | AwaitingQueue (n : nat)
  | FinalSave
  | BackingUp
  | ClosingPool
  | Exited.

Record state := State {
  log : list mutation;            (* globalMemory *)
  saveScheduled : bool;
  immediates : nat;               (* callbacks handed to setImmediate, not yet run *)
  attached : nat;                 (* jobs chained onto saveQueue so far *)
  started : nat;                  (* jobs that have begun *)
  finished : nat;                 (* jobs whose promise has settled *)
  inflight : list (origin * list mutation);  (* saveMemory calls begun, not ended *)
  file : option (list mutation);  (* the primary file *)
  shutdown : stage;
  pgPool : bool;                  (* a Postgres pool is configured *)
  (* bookkeeping of the proofs, not read by any step *)
  requested : list mutation;      (* the log at the latest queueSave call *)
  owed : bool;                    (* no save has begun since that call *)
  serialized : list mutation;     (* the snapshot of the latest save begun *)
  flushed : bool                  (* the synchronous save of the shutdown succeeded *)
}.

Definition boot (pool : bool) : state :=
  State [] false 0 0 0 0 [] None Serving pool [] false [] false.

Inductive event : Type :=
  | Mutate (x : mutation)          (* a handler changes the store *)
  | QueueSave                      (* queueSave() *)
  | RunImmediate                   (* the setImmediate callback: chain a job *)
  | JobStart                       (* the job: saveScheduled = false; saveMemory() up to its first await *)
  | JobEnd (e : ending)            (* its saveMemory settles; on failure the .catch handler runs *)
  | SyncOnLearn (ok : bool)        (* saveMemorySync() under FORCE_SYNC_ON_LEARN *)
  | Signal                         (* gracefulShutdown up to [await saveQueue] *)
  | ShutdownResume                 (* the awaited promise has settled: saveMemory() *)
  | FinalSaveEnd (e : ending)      (* the final saveMemory settles *)
  | SyncSave (ok : bool)           (* createBackup is over or was skipped: saveMemorySync(), then exit or [await pgPool.end()] *)
  | Exit.                          (* process.exit(0) *)

Definition pending (s : state) : nat := immediates s + (attached s - started s).

Definition is_queued (c : origin * list mutation) : bool :=
  match fst c with Queued => true | Direct => false end.

Definition is_direct (c : origin * list mutation) : bool :=
  match fst c with Queued => false | Direct => true end.

(** The first call of the given kind, and the calls without it. *)
Fixpoint take_out (p : origin * list mutation -> bool)
    (l : list (origin * list mutation))
  : option (list mutation * list (origin * list mutation)) :=
  match l with
  | [] => None
  | c :: l' =>
      if p c then Some (snd c, l')
      else match take_out p l' with
           | Some (snap, rest) => Some (snap, c :: rest)
           | None => None
           end
  end.

Definition written (e : ending) (snap : list mutation) (old : option (list mutation))
  : option (list mutation) :=
  match e with
  | FailedBeforePrimary => old
  | Saved | FailedAfterPrimary => Some snap
  end.

(** One step; [None] when the event cannot happen in the state. *)
Definition step (s : state) (ev : event) : option state :=
  match shutdown s with
  | Exited => None
  | sh =>
  match ev with
  | Mutate x =>
      Some (State (x :: log s) (saveScheduled s) (immediates s) (attached s)
                  (started s) (finished s) (inflight s) (file s) sh (pgPool s)
                  (requested s) (owed s) (serialized s) (flushed s))
  | QueueSave =>
      if saveScheduled s then
        Some (State (log s) true (immediates s) (attached s)
                    (started s) (finished s) (inflight s) (file s) sh (pgPool s)
                    (log s) true (serialized s) (flushed s))
      else
        Some (State (log s) true (S (immediates s)) (attached s)
                    (started s) (finished s) (inflight s) (file s) sh (pgPool s)
                    (log s) true (serialized s) (flushed s))
  | RunImmediate =>
      match immediates s with
      | O => None
      | S n =>
          Some (State (log s) (saveScheduled s) n (S (attached s))
                      (started s) (finished s) (inflight s) (file s) sh (pgPool s)
                      (requested s) (owed s) (serialized s) (flushed s))
      end
  | JobStart =>
      (* the next job runs once the promise before it has settled *)
      if (started s <? attached s)%nat && (finished s =? started s)%nat then
        Some (State (log s) false (immediates s) (attached s)
                    (S (started s)) (finished s)
                    ((Queued, log s) :: inflight s) (file s) sh (pgPool s)
                    (requested s) false (log s) (flushed s))
      else None
  | JobEnd e =>
      match take_out is_queued (inflight s) with
      | None => None
      | Some (snap, rest) =>
          Some (State (log s)
                      (match e with Saved => saveScheduled s | _ => false end)
                      (immediates s) (attached s)
                      (started s) (S (finished s)) rest
                      (written e snap (file s)) sh (pgPool s)
                      (requested s) (owed s) (serialized s) (flushed s))
      end
  | SyncOnLearn ok =>
      Some (State (log s) (saveScheduled s) (immediates s) (attached s)
                  (started s) (finished s) (inflight s)
                  (if ok then Some (log s) else file s) sh (pgPool s)
                  (requested s) false (log s) (flushed s))
  | Signal =>
      match sh with
      | Serving =>
          Some (State (log s) (saveScheduled s) (immediates s) (attached s)
                      (started s) (finished s) (inflight s) (file s)
                      (AwaitingQueue (attached s)) (pgPool s)
                      (requested s) (owed s) (serialized s) (flushed s))
      | _ => None
      end
  | ShutdownResume =>
      match sh with
      | AwaitingQueue n =>
          if (n <=? finished s)%nat then
            Some (State (log s) (saveScheduled s) (immediates s) (attached s)
                        (started s) (finished s)
                        ((Direct, log s) :: inflight s) (file s)
                        FinalSave (pgPool s)
                        (requested s) false (log s) (flushed s))
          else None
      | _ => None
      end
  | FinalSaveEnd e =>
      match sh, take_out is_direct (inflight s) with
      | FinalSave, Some (snap, rest) =>
          Some (State (log s) (saveScheduled s) (immediates s) (attached s)
                      (started s) (finished s) rest
                      (written e snap (file s)) BackingUp (pgPool s)
                      (requested s) (owed s) (serialized s) (flushed s))
      | _, _ => None
      end
  | SyncSave ok =>
      match sh with
      | BackingUp =>
          Some (State (log s) (saveScheduled s) (immediates s) (attached s)
                      (started s) (finished s) (inflight s)
                      (if ok then Some (log s) else file s)
                      (if pgPool s then ClosingPool else Exited) (pgPool s)
                      (requested s) false (log s) ok)
      | _ => None
      end
  | Exit =>
      match sh with
      | ClosingPool =>
          Some (State (log s) (saveScheduled s) (immediates s) (attached s)
                      (started s) (finished s) (inflight s) (file s)
                      Exited (pgPool s)
                      (requested s) (owed s) (serialized s) (flushed s))
      | _ => None
      end
  end
  end.

(** A run of events from a state. *)
Fixpoint exec (s : state) (evs : list event) : option state :=
  match evs with
  | [] => Some s
  | ev :: evs' =>
      match step s ev with
      | Some s' => exec s' evs'
      | None => None
      end
  end.

(** The events of the queue itself, as opposed to those of the handlers
    and of the shutdown. *)
Definition of_the_queue (ev : event) : bool :=
  match ev with
  | RunImmediate | JobStart | JobEnd _ => true
  | _ => false
  end.

Definition queued_inflight (s : state) : nat :=
  length (filter (fun c => is_queued c) (inflight s)).

(** Queue events that bring a pending job to its start: let the save in
    flight settle, let the setImmediate callback chain the job, start the
    job. *)
Definition settle (s : state) : list event :=
  (if (started s =? S (finished s))%nat then [JobEnd Saved] else []) ++
  (if (attached s =? started s)%nat then [RunImmediate] else []) ++
  [JobStart].

(** What holds in every state the coordinator can reach. *)
Definition invariant (s : state) : Prop :=
  (finished s <= started s)%nat /\
  (started s <= attached s)%nat /\
  (started s <= S (finished s))%nat /\
  queued_inflight s = (started s - finished s)%nat /\
  (saveScheduled s = true -> (1 <= pending s)%nat) /\
  (owed s = true -> (1 <= pending s)%nat) /\
  (owed s = false -> requested s `suffix_of` serialized s) /\
  requested s `suffix_of` log s /\
  (shutdown s = ClosingPool -> pgPool s = true) /\
  (shutdown s = Exited -> pgPool s = false -> flushed s = true ->
   file s = Some (log s)).

End Model.

Arguments state : clear implicits.
Arguments event : clear implicits.

End Coordinator.

From Stdlib Require Import Qround.

(** ** GarbageClassifier.calculateQuality (lines 486-506) *)

(** [s.split(/\s+/).length] *)
Definition word_count (s : string) : Z := Z.of_nat (length (Text.split_ws s)).

(** [/[.!?]$/]: the last character is a full stop, an exclamation mark or a
    question mark. *)
Definition ends_with_punctuation (s : string) : bool :=
  match Text.rev s with
  | String c _ =>
      Ascii.eqb c "."%char || Ascii.eqb c "!"%char || Ascii.eqb c "?"%char
  | EmptyString => false
  end.

Definition calculateQuality (text resp : string) : Z :=
  let score := 50 in
  let inputWords := word_count text in
  let responseWords := word_count resp in
  let score := if (1 <=? inputWords) && (inputWords <=? 50) then score + 15 else score in
  let score := if (1 <=? responseWords) && (responseWords <=? 100) then score + 15 else score in
  let score := if (3 <=? responseWords) && (responseWords <=? 20) then score + 10 else score in
  let score := if ends_with_punctuation resp then score + 5 else score in
  let score :=
    if negb (String.eqb (Text.toLowerCase text) (Text.toLowerCase resp))
    then score + 5 else score in
  Z.max 0 (Z.min 100 score).

Definition MIN_QUALITY_SCORE : Z := 40.

(** ** RateLimiter (lines 250-297) *)

Definition RATE_LIMIT_WINDOW_MS : Z := 60000.
Definition RATE_LIMIT_MAX_REQUESTS : Z := 60.

Record limit := Limit {
  limit_count : Z;
  resetTime : Z
}.

(** What [check] returns; [resetTime] is only reported on a refusal. *)
Record verdict := Verdict {
  allowed : bool;
  remaining : Z;
  reported_reset : option Z
}.

Definition check (identifier : string) (now : Z) (limits : JsMap.t limit)
  : verdict * JsMap.t limit :=
  match JsMap.get identifier limits with
  | Some lim =>
      if resetTime lim <? now then
        (Verdict true (RATE_LIMIT_MAX_REQUESTS - 1) None,
         JsMap.set identifier (Limit 1 (now + RATE_LIMIT_WINDOW_MS)) limits)
      else if RATE_LIMIT_MAX_REQUESTS <=? limit_count lim then
        (Verdict false 0 (Some (resetTime lim)), limits)
      else
        (Verdict true (RATE_LIMIT_MAX_REQUESTS - (limit_count lim + 1)) None,
         JsMap.set identifier (Limit (limit_count lim + 1) (resetTime lim)) limits)
  | None =>
      (Verdict true (RATE_LIMIT_MAX_REQUESTS - 1) None,
       JsMap.set identifier (Limit 1 (now + RATE_LIMIT_WINDOW_MS)) limits)
  end.

(** [RateLimiter.cleanup]: the bindings whose window is over go. *)
Definition limits_cleanup (now : Z) (limits : JsMap.t limit) : JsMap.t limit :=
  filter (fun kv => negb (resetTime (snd kv) <? now)) limits.

(** ** SessionManager (lines 710-775) *)

Definition MAX_CONVERSATION_HISTORY : nat := 10.
Definition SESSION_TIMEOUT_MS : Z := 5 * 60 * 1000.
Definition MAX_SESSIONS : nat := 1000.

Record exchange := Exchange {
  user : string;
  ai : string;
  exchange_timestamp : Z
}.

(** The two maps of the session manager. *)
Record sessionManager := SessionManager {
  activity : JsMap.t Z;                      (* [sessions]: id to last activity *)
  conversationBuffer : JsMap.t (list exchange)
}.

Definition updateActivity (sessionId : string) (now : Z) (sm : sessionManager)
  : sessionManager :=
  SessionManager (JsMap.set sessionId now (activity sm)) (conversationBuffer sm).

(** [getConversationHistory]: the history, and the buffer with an empty
    history bound to a session that had none. *)
Definition getConversationHistory (sessionId : string) (sm : sessionManager)
  : list exchange * sessionManager :=
  match JsMap.get sessionId (conversationBuffer sm) with
  | Some history => (history, sm)
  | None =>
      ([], SessionManager (activity sm)
                          (JsMap.set sessionId [] (conversationBuffer sm)))
  end.

(** [history.push(x); if (history.length > 10) history.shift()] *)
Definition push_capped (x : exchange) (history : list exchange) : list exchange :=
  let pushed := history ++ [x] in
  if (MAX_CONVERSATION_HISTORY <? length pushed)%nat then drop 1 pushed
  else pushed.

Definition addToHistory (sessionId userMessage aiResponse : string) (now : Z)
    (sm : sessionManager) : sessionManager :=
  let '(history, sm1) := getConversationHistory sessionId sm in
  SessionManager (activity sm1)
    (JsMap.set sessionId
       (push_capped (Exchange userMessage aiResponse now) history)
       (conversationBuffer sm1)).

(** The comparator [a[1] - b[1]] of the sort in [cleanup]. *)
Definition by_activity_asc (a b : string * Z) : Z := snd a - snd b.

Definition delete_session (sm : sessionManager) (sessionId : string)
  : sessionManager :=
  SessionManager (JsMap.delete sessionId (activity sm))
                 (JsMap.delete sessionId (conversationBuffer sm)).

(** [SessionManager.cleanup]: first the sessions inactive for longer than
    the timeout go, then the oldest of what is left beyond
    [MAX_SESSIONS]. *)
Definition sessions_cleanup (now : Z) (sm : sessionManager) : sessionManager :=
  let cutoff := now - SESSION_TIMEOUT_MS in
  let expired := filter (fun kv => snd kv <? cutoff) (activity sm) in
  let sm1 := fold_left delete_session (map fst expired) sm in
  if (MAX_SESSIONS <? JsMap.size (activity sm1))%nat then
    let entries := sort by_activity_asc (activity sm1) in
    let toRemove := take (length entries - MAX_SESSIONS) entries in
    fold_left delete_session (map fst toRemove) sm1
  else sm1.

Definition getActiveCount (sm : sessionManager) : nat := JsMap.size (activity sm).

(** ** The chat endpoint after the garbage check (lines 1235-1343) *)

(** Literal prefixes, suffixes and substrings, with regard to case. *)
Module Literal.

Fixpoint strip_prefix (p s : string) : option string :=
  match p, s with
  | EmptyString, _ => Some s
  | String a p', String c s' =>
      if Ascii.eqb a c then strip_prefix p' s' else None
  | String _ _, EmptyString => None
  end.

Definition starts_with (p s : string) : bool :=
  match strip_prefix p s with Some _ => true | None => false end.


Definition contains (p s : string) : bool := Text.somewhere (starts_with p) s.

(** [^p\b] for a [p] that ends in a word character: [p] is a prefix and no
    word character follows it. *)
Definition starts_with_word (p s : string) : bool :=
  match strip_prefix p s with
  | Some (String c _) => negb (Text.is_word c)
  | Some EmptyString => true
  | None => false
  end.

End Literal.

(** [/^(hi|hey|hello|sup|yo|greetings|howdy|wassup|what's up)\b/] *)
Definition is_greeting (lower : string) : bool :=
  existsb (fun p => Literal.starts_with_word p lower)
    [ "hi"; "hey"; "hello"; "sup"; "yo"; "greetings"; "howdy"; "wassup";
      "what's up" ].

(** [/how (are|r) (you|u)|how's it going|hows it going|what's up|whats up/] *)
Definition asks_how_are_you (lower : string) : bool :=
  existsb (fun p => Literal.contains p lower)
    [ "how are you"; "how are u"; "how r you"; "how r u";
      "how's it going"; "hows it going"; "what's up"; "whats up" ].

(** [/^(what|where|when|who|why|how|which|whose|\?)/] *)
Definition is_question (lower : string) : bool :=
  existsb (fun p => Literal.starts_with p lower)
    [ "what"; "where"; "when"; "who"; "why"; "how"; "which"; "whose"; "?" ].

Definition greetings : list string :=
  [ "hey"; "hi"; "hello"; "hey there"; "hi!"; "sup"; "yo";
    "hey! how are you?"; "hello! how's it going?" ].

Definition statuses : list string :=
  [ "good, you?"; "pretty good!"; "not bad, how about you?";
    "doing alright"; "i'm good thanks"; "fine, and you?"; "great! how are you?" ].

Definition questions : list string :=
  [ "what do you think?"; "i'm not sure, what would you say?";
    "hmm, good question"; "that's interesting, tell me your thoughts";
    "not sure tbh"; "idk, what about you?"; "what's your take on it?" ].

Definition casual : list string :=
  [ "oh really?"; "interesting"; "cool"; "nice"; "that's cool";
    "oh nice"; "yeah?"; "for real?"; "i see"; "tell me more";
    "go on"; "interesting!"; "oh wow"; "haha nice"; "that's interesting";
    "cool, tell me more"; "nice! what else?"; "oh that's cool";
    "i feel that"; "makes sense" ].

(** The list the fallback reply is drawn from. *)
Definition fallback_list (cleanedMessage : string) : list string :=
  let lower := Text.toLowerCase cleanedMessage in
  if is_greeting lower then greetings
  else if asks_how_are_you lower then statuses
  else if is_question lower then questions
  else casual.

(** [l[Math.floor(random * l.length)]]; [Math.random()] lies in [[0, 1)],
    which keeps the index inside the list. *)
Definition pick (random : Q) (l : list string) : string :=
  default ""
    (l !! Z.to_nat (Qfloor (random * inject_Z (Z.of_nat (length l))))).

Definition fallback (random : Q) (cleanedMessage : string) : string :=
  pick random (fallback_list cleanedMessage).

Definition recordLearning (mt : Metrics) : Metrics :=
  mkMetrics (requestCount mt) (errorCount mt) (totalResponseTime mt)
            (learningCount mt + 1) (cacheHits mt) (cacheMisses mt) (startTime mt).

(** The process state of the chat path: the part the intake touches, and
    the conversation buffer of the session manager (whose [sessions] map is
    the [sessions] field of [server]). *)
Record process := Process {
  core : server;
  buffer : JsMap.t (list exchange)
}.

Definition manager_of (p : process) : sessionManager :=
  SessionManager (sessions (core p)) (buffer p).

Definition with_manager (sm : sessionManager) (s : server) : process :=
  Process (Server (globalMemory s) (responseCache s) (metrics s) (activity sm))
          (conversationBuffer sm).

(** A save the handler asks for. *)
Inductive save_call : Type := CallSaveMemorySync | CallQueueSave.

Definition bump_totalMessages (m : memory) : memory :=
  set_stats
    (mkStats (totalMessages (stats m) + 1) (totalConversations (stats m))
             (trainingDataPoints (stats m)) (garbageFiltered (stats m))
             (liveConversationsLearned (stats m)))
    m.

Definition bump_liveConversationsLearned (m : memory) : memory :=
  set_stats
    (mkStats (totalMessages (stats m)) (totalConversations (stats m))
             (trainingDataPoints (stats m)) (garbageFiltered (stats m))
             (liveConversationsLearned (stats m) + 1))
    m.

Section Chat.

Variable content_rules : string -> bool.
Variable md5 : string -> string.

(** [process.env.FORCE_SYNC_ON_LEARN === '1'] *)
Variable FORCE_SYNC_ON_LEARN : bool.

(** What the handler leaves when an exception reaches its [catch]. *)
Definition caught (duration : Z) (s : server) (b : JsMap.t (list exchange))
  : reply * process * list save_call :=
  (InternalError,
   Process (set_metrics (recordRequest duration true (metrics s)) s) b, []).

(** The end of the handler: count the message, ask for the periodic save,
    record the request, answer. *)
Definition conclude (response : string) (isLearned : bool) (duration : Z)
    (s : server) (b : JsMap.t (list exchange)) (saves : list save_call)
  : reply * process * list save_call :=
  let m := bump_totalMessages (globalMemory s) in
  let saves :=
    if Z.rem (totalMessages (stats m)) 10 =? 0 then saves ++ [CallQueueSave]
    else saves in
  let s1 := set_globalMemory m s in
  let s2 := set_metrics (recordRequest duration false (metrics s1)) s1 in
  (Answer response isLearned (stats m) (JsMap.size (sessions s2)),
   Process s2 b, saves).

(** Learning from the previous exchange of the session, when there is
    one. *)
Definition learn_from_history (cleanedMessage response : string)
    (isLearned : bool) (now duration : Z)
    (history : list exchange) (s : server) (b : JsMap.t (list exchange))
  : reply * process * list save_call :=
  let skip := conclude response isLearned duration s b [] in
  if (2 <=? length history)%nat then
    match history !! (length history - 2)%nat with
    | Some prevPair =>
        if negb (isGarbage content_rules (user prevPair)) &&
           negb (isGarbage content_rules cleanedMessage) then
          let q := calculateQuality (user prevPair) cleanedMessage in
          if MIN_QUALITY_SCORE <=? q then
            match learnPattern (user prevPair) cleanedMessage q now (globalMemory s) with
            | Thrown m => caught duration (set_globalMemory m s) b
            | Returned m =>
                let s1 := set_globalMemory (bump_liveConversationsLearned m) s in
                let s2 := set_metrics (recordLearning (metrics s1)) s1 in
                conclude response isLearned duration s2 b
                  [if FORCE_SYNC_ON_LEARN then CallSaveMemorySync else CallQueueSave]
            end
          else skip
        else skip
    | None => skip
    end
  else skip.

(** [app.post('/api/chat')]. [now] is [Date.now()], [duration] is
    [Date.now() - startTime], [random] what [Math.random()] returns. *)
Definition chat (random : Q) (message sessionId : field) (now duration : Z)
    (p : process) : reply * process * list save_call :=
  match chat_intake content_rules message sessionId duration (core p) with
  | (Proceeds cleanedMessage, s0) =>
      (* the intake has validated the session id *)
      let id := match session_of sessionId with
                | Valid id => id
                | Invalid _ => "default"
                end in
      let p1 := with_manager (updateActivity id now (manager_of (Process s0 (buffer p)))) s0 in
      match findBestResponse md5 cleanedMessage now (core p1) with
      | Throw s2 => caught duration s2 (buffer p1)
      | Ret found s2 =>
          let isLearned := match found with Some r => truthy r | None => false end in
          let response :=
            match found with
            | Some r => if truthy r then r else fallback random cleanedMessage
            | None => fallback random cleanedMessage
            end in
          let p3 :=
            with_manager
              (addToHistory id cleanedMessage response now
                            (manager_of (Process s2 (buffer p1)))) s2 in
          let history := default [] (JsMap.get id (buffer p3)) in
          learn_from_history cleanedMessage response isLearned now duration
                             history (core p3) (buffer p3)
      end
  | (r, s') => (r, Process s' (buffer p), [])
  end.

End Chat.

(** ** createBackup (lines 975-1007) *)








(** ** saveMemorySync (lines 947-957) and what a restart reads *)

Module Durability.

(** [saveMemorySync]: the primary file only; a failure is logged and
    swallowed. *)
Definition saveMemorySync (ok : bool) (memoryStr : string) (d : Persistence.disk)
  : Persistence.disk * log_line :=
  if ok then
    (Persistence.Disk (Some memoryStr) (Persistence.persistent_file d)
                      (Persistence.postgres_row d) (Persistence.replit_value d),
     (INFO, "Synchronous save completed"))
  else (d, (ERROR, "Synchronous save failed")).

(** What [loadMemory] finds on a restart with the directories in place: the
    two files as the disk has them and, for the two remote stores, the
    texts their readers return. *)
Definition restart (postgres_text replit_text : option string)
    (d : Persistence.disk) : Persistence.load_env :=
  Persistence.LoadEnv true postgres_text replit_text
                      (Persistence.persistent_file d) (Persistence.primary_file d).

End Durability.

(** ** Vocabulary of the properties *)



(** The cluster of a keyword; a keyword without a cluster has none of the
    entries. *)
Definition cluster (m : memory) (keyword : string) : list entry :=
  default [] (semanticClusters m !! keyword).

(** Every keyword of the list reads as an array or as [undefined] in the
    cluster object, never as a member of [Object.prototype]. *)
Definition array_keys (sc : gmap string (list entry)) (keywords : list string)
  : Prop :=
  forall k, k ∈ keywords -> get_prop sc k <> Inherited.

(** The characters a keyword is made of. *)
Definition plain_char (c : ascii) : bool := Text.is_lower c || Text.is_digit c.



(** One call of [learnPattern], as issued by a caller that catches what it
    throws and carries on with the store as it was left. *)
Record call := Call {
  call_text : string;
  call_response : string;
  call_quality : Z;
  call_now : Z
}.

Definition apply_call (m : memory) (c : call) : memory :=
  store_of (learnPattern (call_text c) (call_response c) (call_quality c)
                         (call_now c) m).

Definition run (calls : list call) (m : memory) : memory :=
  fold_left apply_call calls m.

(** The cap invariant of the store. *)
Definition within_caps (m : memory) : Prop :=
  (forall k l, semanticClusters m !! k = Some l -> (length l <= cluster_cap)%nat) /\
  (length (contextPairs m) <= pairs_cap)%nat.

(** [kept] are top-scoring entries of [l] and [evicted] the rest: together
    they are [l], and no evicted entry outscores a kept one. *)
Definition evicts_lowest (l kept evicted : list entry) : Prop :=
  kept ++ evicted ≡ₚ l /\
  forall e k, e ∈ evicted -> k ∈ kept -> score e <= score k.

(** Scores never increase along the array. *)
Definition descending (l : list entry) : Prop :=
  StronglySorted (fun a b => score b <= score a) l.

(** The entries the two truncations drop. *)
Definition evicted_from_cluster (l : list entry) : list entry :=
  drop cluster_cap (sort by_score_desc l).

Definition evicted_from_pairs (l : list entry) : list entry :=
  if (pairs_cap <? length l)%nat then drop pairs_cap (sort by_score_desc l)
  else [].

(** The arrays an association is stored in: the cluster of a keyword, or
    [contextPairs]. *)
Inductive place : Type :=
  | InCluster (keyword : string)
  | InContextPairs.



(** Whether [learnPattern(text, _, q)] works on the array at all: the
    clusters of the keywords of [text], and [contextPairs] when
    [q >= 60]. *)
Definition touched (text : string) (q : Z) (p : place) : bool :=
  match p with
  | InCluster k => Text.mem k (extractKeywords text)
  | InContextPairs => 60 <=? q
  end.


(** [e] is one of the stored patterns: an element of [contextPairs] or of
    some cluster. *)
Definition stored (m : memory) (e : entry) : Prop :=
  e ∈ contextPairs m \/
  exists k l, semanticClusters m !! k = Some l /\ e ∈ l.

(** The query shares no keyword with the input of the entry. *)
Definition shares_no_keyword (text : string) (e : entry) : Prop :=
  forall k, k ∈ extractKeywords text -> k ∉ extractKeywords (input e).

(** Executable forms of [shares_no_keyword] and of its closure over the
    store, to check concrete stores by computation. *)
Definition shares_no_keyword_b (text : string) (e : entry) : bool :=
  forallb (fun k => negb (Text.mem k (extractKeywords (input e))))
          (extractKeywords text).

Definition disjoint_from_store (text : string) (m : memory) : bool :=
  forallb (shares_no_keyword_b text) (contextPairs m) &&
  forallb (fun kl => forallb (shares_no_keyword_b text) (snd kl))
          (map_to_list (semanticClusters m)).

(** ** Stores used as examples *)

(** Twenty inputs that share the one keyword "cats" (the two-digit word is
    too short to be a keyword), each learned once at quality 100. *)
Definition crowded_calls : list call :=
  map (fun n => Call ("cats " ++ n)%string "purr" 100 0)
      [ "01"; "02"; "03"; "04"; "05"; "06"; "07"; "08"; "09"; "10";
        "11"; "12"; "13"; "14"; "15"; "16"; "17"; "18"; "19"; "20" ].


(** One pair learned at time 0. *)
Definition learned_once (text resp : string) (q : Z) : memory :=
  store_of (learnPattern text resp q 0 emptyMemory).

Definition fresh_metrics : Metrics := mkMetrics 0 0 0 0 0 0 0.

(** A process that has just loaded the store [m]: empty cache, no
    sessions. *)
Definition booted (m : memory) : server := Server m [] fresh_metrics [].

(** A stand-in for the digest in examples whose cache stays empty. *)
Definition plain_key (s : string) : string := s.

(** A stand-in for [JSON.parse] on a file whose text parses to [v]. *)
Definition parsed_as (v : Persistence.json) : string -> option Persistence.json :=
  fun _ => Some v.

(** Truthy members of the wrong shape: [contextPairs] is a string and
    [semanticClusters] a number. *)
Definition misshapen_snapshot : Persistence.json :=
  Persistence.JObject
    [ ("stats", Persistence.JObject []);
      ("contextPairs", Persistence.JString "oops");
      ("semanticClusters", Persistence.JNumber 7) ].

(** Both members present and of the right shape, but no [stats]. *)
Definition snapshot_without_stats : Persistence.json :=
  Persistence.JObject
    [ ("contextPairs", Persistence.JArray []);
      ("semanticClusters", Persistence.JObject []) ].

Definition wellformed_snapshot : Persistence.json :=
  Persistence.JObject
    [ ("patterns", Persistence.JObject []);
      ("contextPairs", Persistence.JArray []);
      ("semanticClusters", Persistence.JObject []);
      ("qualityScores", Persistence.JObject []);
      ("stats", Persistence.JObject [("totalMessages", Persistence.JNumber 0)]) ].

(** Only the primary file exists. *)
Definition only_memory_file : Persistence.load_env :=
  Persistence.LoadEnv true None None None (Some "memory.json").

(** Every write succeeds except the one of the persistent mirror. *)
Definition mirror_fails : Persistence.save_env :=
  Persistence.SaveEnv true true false true (Some true) (Some true).

(** Both files are written; both remote stores refuse. *)
Definition remotes_fail : Persistence.save_env :=
  Persistence.SaveEnv true true true true (Some false) (Some false).

Definition blank_disk : Persistence.disk := Persistence.Disk None None None None.

(** A run in which the final save of the shutdown is joined by a queued
    save. *)
Definition overlapping_run : list (Coordinator.event nat) :=
  [ Coordinator.Mutate 1%nat; Coordinator.Signal; Coordinator.ShutdownResume;
    Coordinator.Mutate 2%nat; Coordinator.QueueSave; Coordinator.RunImmediate;
    Coordinator.JobStart ].

(** Three learning events, each followed by [queueSave], one save, then a
    shutdown without Postgres pool. *)
Definition three_then_shutdown : list (Coordinator.event nat) :=
  [ Coordinator.Mutate 1%nat; Coordinator.QueueSave;
    Coordinator.Mutate 2%nat; Coordinator.QueueSave;
    Coordinator.RunImmediate; Coordinator.JobStart;
    Coordinator.Mutate 3%nat; Coordinator.QueueSave;
    Coordinator.JobEnd Coordinator.Saved;
    Coordinator.Signal; Coordinator.ShutdownResume;
    Coordinator.FinalSaveEnd Coordinator.Saved; Coordinator.SyncSave true ].

(** A shutdown with a Postgres pool to close: a handler changes the store
    while [pgPool.end()] is awaited. *)
Definition late_mutation_run : list (Coordinator.event nat) :=
  [ Coordinator.Mutate 1%nat; Coordinator.Signal; Coordinator.ShutdownResume;
    Coordinator.FinalSaveEnd Coordinator.Saved; Coordinator.SyncSave true;
    Coordinator.Mutate 2%nat; Coordinator.Exit ].

(** ** Vocabulary of the further properties *)

(** An entry as [learnPattern] writes it: the input is in lower case and
    the confidence is present and at least 1. *)
Definition kept_entry (e : entry) : Prop :=
  input e = Text.toLowerCase (input e) /\
  exists c, confidence e = Some c /\ 1 <= c.

(** The shape [learnPattern] keeps the store in: inputs are unique within
    every array; a cluster is in descending order of score and holds only
    entries whose input has the keyword of the cluster; ContextPairs holds
    only entries of quality 60 or more. *)
Definition well_kept (m : memory) : Prop :=
  (forall k l, semanticClusters m !! k = Some l ->
     NoDup (input <$> l) /\ descending l /\
     Forall (fun e => kept_entry e /\ k ∈ extractKeywords (input e)) l) /\
  NoDup (input <$> contextPairs m) /\
  Forall (fun e => kept_entry e /\ 60 <= quality e) (contextPairs m).

(** Every quality in the store lies between 0 and 100. *)
Definition qualities_in_range (m : memory) : Prop :=
  (forall k l, semanticClusters m !! k = Some l ->
     Forall (fun e => 0 <= quality e <= 100) l) /\
  Forall (fun e => 0 <= quality e <= 100) (contextPairs m).

(** A property of every cluster (given its keyword) and a property of
    ContextPairs. *)
Definition store_inv (C : string -> list entry -> Prop) (D : list entry -> Prop)
    (m : memory) : Prop :=
  (forall k l, semanticClusters m !! k = Some l -> C k l) /\
  D (contextPairs m).

(** The requests the rate limiter sees, each with its client and the time
    of its arrival, checked one after the other. *)
Fixpoint serve (requests : list (string * Z)) (limits : JsMap.t limit)
  : list (string * verdict) :=
  match requests with
  | [] => []
  | (identifier, now) :: rest =>
      let '(v, limits') := check identifier now limits in
      (identifier, v) :: serve rest limits'
  end.

(** How many requests of a client are allowed. *)
Definition granted (identifier : string) (requests : list (string * Z))
    (limits : JsMap.t limit) : nat :=
  length (filter (fun iv => String.eqb (fst iv) identifier && allowed (snd iv))
                 (serve requests limits)).

Definition requests_of (identifier : string) (requests : list (string * Z)) : nat :=
  length (filter (fun r => String.eqb (fst r) identifier) requests).

(** Exchanges recorded one after the other, each under its session. *)
Definition record_all (adds : list (string * exchange)) (sm : sessionManager)
  : sessionManager :=
  fold_left
    (fun sm a =>
       addToHistory (fst a) (user (snd a)) (ai (snd a))
                    (exchange_timestamp (snd a)) sm)
    adds sm.

Definition of_session (sessionId : string) (adds : list (string * exchange))
  : list exchange :=
  snd <$> filter (fun a => String.eqb (fst a) sessionId) adds.

(** The history of a session; a session without one has said nothing. *)
Definition history_of (sessionId : string) (sm : sessionManager) : list exchange :=
  default [] (JsMap.get sessionId (conversationBuffer sm)).

(** The last [n] elements. *)
Definition last_n {A : Type} (n : nat) (l : list A) : list A :=
  drop (length l - n) l.

(** Two limiter maps that differ at most in windows that were over at time
    [now]: what one binds, the other binds alike or, the window being over,
    not at all. *)
Definition same_windows (now : Z) (cleaned limits : JsMap.t limit) : Prop :=
  forall identifier,
    JsMap.get identifier cleaned = JsMap.get identifier limits \/
    (JsMap.get identifier cleaned = None /\
     exists lim, JsMap.get identifier limits = Some lim /\ resetTime lim < now).

(** Deleting the keys of a list, one after the other. *)
Definition delete_all {V : Type} (ks : list string) (m : JsMap.t V) : JsMap.t V :=
  fold_left (fun m k => JsMap.delete k m) ks m.

(** Whether the reply is an error status (400 or 500). *)
Definition is_error (r : reply) : bool :=
  match r with
  | BadRequest _ | InternalError => true
  | _ => false
  end.

(** The request that took [p] to [p'] and was answered with [r] has been
    counted once: one more request, and one more in exactly one of
    [errorCount] (status 400 or 500), [garbageFiltered] and
    [totalMessages] (status 200). *)
Definition counted_once (p : process) (r : reply) (p' : process) : Prop :=
  let errors x := errorCount (metrics (core x)) in
  let garbage x := garbageFiltered (stats (globalMemory (core x))) in
  let messages x := totalMessages (stats (globalMemory (core x))) in
  requestCount (metrics (core p')) = requestCount (metrics (core p)) + 1 /\
  if is_error r then
    errors p' = errors p + 1 /\ garbage p' = garbage p /\ messages p' = messages p
  else
    errors p' = errors p /\
    ((garbage p' = garbage p + 1 /\ messages p' = messages p) \/
     (garbage p' = garbage p /\ messages p' = messages p + 1)).

(** The conversation buffer without the replies of the server: what the
    users said, session by session. *)
Definition users_only (b : JsMap.t (list exchange)) : JsMap.t (list string) :=
  (fun kv : string * list exchange => (fst kv, user <$> snd kv))
    <$> (b : list (string * list exchange)).

(** Two replies that are the same, or are two fallback answers that differ
    in their text only. *)
Definition same_but_for_fallback (r1 r2 : reply) : Prop :=
  r1 = r2 \/
  exists response1 response2 st activeUsers,
    r1 = Answer response1 false st activeUsers /\
    r2 = Answer response2 false st activeUsers.

(** A store in which the keyword "constructor" has no cluster and no entry
    of ContextPairs has an input with that keyword. *)
Definition never_met_constructor (m : memory) : Prop :=
  semanticClusters m !! "constructor" = None /\
  Forall (fun e => "constructor" ∉ extractKeywords (input e)) (contextPairs m).

(** What a message teaches when it follows [prev] in its session: nothing
    when there is no [prev] or the user message of [prev] is garbage, and
    otherwise the pair of that user message and this message. *)
Definition taught (content_rules : string -> bool) (prev : option exchange)
    (cleanedMessage : string) (now : Z) (m : memory) : memory :=
  match prev with
  | Some prevPair =>
      if isGarbage content_rules (user prevPair) then m
      else
        bump_liveConversationsLearned
          (store_of
             (learnPattern (user prevPair) cleanedMessage
                (calculateQuality (user prevPair) cleanedMessage) now m))
  | None => m
  end.


(** The string does not begin with white space. *)
Definition starts_clean (s : string) : bool :=
  match s with
  | String c _ => negb (Text.is_ws c)
  | EmptyString => true
  end.

(** * Properties *)

(** ** Arrays: [findIndex], [sort], [slice] *)

(** Side conditions [p x] or [~ p x] of the [filter] lemmas, from an
    equation on the boolean. *)
Ltac is_true_side H := rewrite H; simpl; tauto.

Section ArrayFacts.

Context {A : Type}.
Implicit Types (l : list A) (p : A -> bool).

Lemma findIndex_Some p l i :
  findIndex p l = Some i ->
  exists x, l !! i = Some x /\ p x = true /\
            forall j y, (j < i)%nat -> l !! j = Some y -> p y = false.
Proof.
  revert i. induction l as [|a l IH]; intros i; simpl; [discriminate|].
  destruct (p a) eqn:Hpa.
  - intros [= <-]. exists a. repeat split; auto. intros j y Hj. lia.
  - destruct (findIndex p l) as [i'|] eqn:Hf; simpl; [|discriminate].
    intros [= <-]. destruct (IH i' eq_refl) as (x & Hx & Hpx & Hbefore).
    exists x. repeat split; auto.
    intros [|j] y Hj Hy; simpl in Hy.
    + congruence.
    + apply (Hbefore j); [lia | done].
Qed.

Lemma findIndex_None p l :
  findIndex p l = None <-> filter (fun x => p x) l = [].
Proof.
  induction l as [|a l IH]; cbn [findIndex]; [done|].
  destruct (p a) eqn:Hpa.
  - rewrite filter_cons_True; [|is_true_side Hpa]. split; discriminate.
  - rewrite filter_cons_False; [|is_true_side Hpa].
    destruct (findIndex p l); simpl; [|tauto].
    split; [discriminate|]. intros H. apply IH in H. discriminate.
Qed.



Section Sorting.

Context {N : Type} `{Signed N}.
Variable cmp : A -> A -> N.

Lemma insert_by_perm x l : insert_by cmp x l ≡ₚ x :: l.
Proof.
  induction l as [|y l IH]; simpl; [done|].
  destruct (positive (cmp x y)); [|done].
  rewrite IH. apply Permutation_swap.
Qed.

Lemma sort_perm l : sort cmp l ≡ₚ l.
Proof.
  induction l as [|x l IH]; simpl; [done|].
  unfold sort in *. simpl. rewrite insert_by_perm. by rewrite IH.
Qed.


Lemma sort_elem_of x l : x ∈ sort cmp l <-> x ∈ l.
Proof. by rewrite sort_perm. Qed.


End Sorting.

End ArrayFacts.

(** ** [extractKeywords] *)

Lemma mem_true w l : Text.mem w l = true <-> w ∈ l.
Proof.
  unfold Text.mem. rewrite existsb_exists. split.
  - intros (x & Hin & Heq). apply String.eqb_eq in Heq. subst.
    by apply list_elem_of_In.
  - intros Hin. exists w. split; [by apply list_elem_of_In | apply String.eqb_refl].
Qed.

Lemma mem_false w l : Text.mem w l = false <-> w ∉ l.
Proof.
  rewrite <- mem_true. destruct (Text.mem w l); split; congruence.
Qed.

Lemma uniq_go_spec seen l :
  NoDup (Text.uniq_go seen l) /\
  forall w, w ∈ Text.uniq_go seen l -> (w ∉ seen) /\ (w ∈ l).
Proof.
  revert seen. induction l as [|x l IH]; intros seen; simpl.
  - split; [constructor|]. intros w Hw. by apply elem_of_nil in Hw.
  - destruct (Text.mem x seen) eqn:Hx.
    + destruct (IH seen) as [Hnd Hin]. split; [done|].
      intros w Hw. destruct (Hin w Hw). split; [done|]. by apply elem_of_cons; right.
    + destruct (IH (x :: seen)) as [Hnd Hin]. apply mem_false in Hx. split.
      * apply NoDup_cons. split; [|done].
        intros Hxin. destruct (Hin x Hxin) as [Hn _]. apply Hn, elem_of_cons. by left.
      * intros w Hw. apply elem_of_cons in Hw as [->|Hw].
        { split; [done|]. apply elem_of_cons. by left. }
        destruct (Hin w Hw) as [Hn Hl]. split.
        { intros Hs. apply Hn, elem_of_cons. by right. }
        apply elem_of_cons. by right.
Qed.

Lemma extractKeywords_NoDup text : NoDup (extractKeywords text).
Proof. unfold extractKeywords, Text.uniq. apply uniq_go_spec. Qed.

(** ** The upsert step *)

Section Upsert.

Variables (inputLower resp : string) (q now : Z).

Lemma has_input_true e : has_input inputLower e = true <-> input e = inputLower.
Proof. unfold has_input. apply String.eqb_eq. Qed.


Lemma upsert_found l i e :
  findIndex (has_input inputLower) l = Some i ->
  l !! i = Some e ->
  upsert inputLower resp q now l =
    if String.eqb (response e) resp then <[i := reinforce e now]> l
    else if supersedes q now e then <[i := fresh inputLower resp q now]> l
    else l.
Proof. intros Hf Hi. unfold upsert. by rewrite Hf, Hi. Qed.

Lemma upsert_length_found l i :
  findIndex (has_input inputLower) l = Some i ->
  length (upsert inputLower resp q now l) = length l.
Proof.
  intros Hf. destruct (findIndex_Some _ _ _ Hf) as (e & Hi & _).
  rewrite (upsert_found l i e Hf Hi).
  repeat case_match; by rewrite ?length_insert.
Qed.

Lemma upsert_length l :
  (length (upsert inputLower resp q now l) <= S (length l))%nat.
Proof.
  destruct (findIndex (has_input inputLower) l) as [i|] eqn:Hf.
  - rewrite (upsert_length_found l i Hf). lia.
  - unfold upsert. rewrite Hf, length_app. simpl. lia.
Qed.

End Upsert.

(** ** The caps *)

Lemma cap_cluster_length l : (length (cap_cluster l) <= cluster_cap)%nat.
Proof.
  unfold cap_cluster, slice0.
  destruct (cluster_cap <? length (sort by_score_desc l))%nat eqn:Hc.
  - rewrite length_take. lia.
  - apply Nat.ltb_ge in Hc. done.
Qed.


Lemma cap_pairs_length l : (length (cap_pairs l) <= pairs_cap)%nat.
Proof.
  unfold cap_pairs, slice0.
  destruct (pairs_cap <? length l)%nat eqn:Hc.
  - rewrite length_take. lia.
  - apply Nat.ltb_ge in Hc. done.
Qed.

Lemma cap_pairs_fits l : (length l <= pairs_cap)%nat -> cap_pairs l = l.
Proof.
  intros Hl. unfold cap_pairs.
  destruct (pairs_cap <? length l)%nat eqn:Hc; [|done].
  apply Nat.ltb_lt in Hc. lia.
Qed.

(** ** What one call of [learnPattern] does to the store *)



Section OneCall.

Variables (inputLower resp : string) (q now : Z).

Lemma learn_keyword_returns m k :
  get_prop (semanticClusters m) k <> Inherited ->
  learn_keyword inputLower resp q now m k =
    Returned (set_semanticClusters
                (<[k := cap_cluster (upsert inputLower resp q now (cluster m k))]>
                   (semanticClusters m)) m).
Proof.
  intros Hne. unfold learn_keyword, cluster. unfold get_prop in *.
  destruct (semanticClusters m !! k) as [l|]; [done|].
  destruct (Text.mem k object_prototype_keys); [by destruct Hne | done].
Qed.


End OneCall.


(** ** Keywords and the members of [Object.prototype] *)

Lemma all_chars_filter p s : Text.all_chars p (Text.filter_chars p s) = true.
Proof.
  induction s as [|c s IH]; [done|]. simpl.
  destruct (p c) eqn:Hc; [|done]. simpl. by rewrite Hc.
Qed.

Lemma all_chars_rev_onto p s acc :
  Text.all_chars p s = true -> Text.all_chars p acc = true ->
  Text.all_chars p (Text.rev_onto s acc) = true.
Proof.
  revert acc. induction s as [|c s IH]; intros acc Hs Hacc; [done|].
  simpl in *. apply andb_true_iff in Hs as [Hc Hs].
  apply IH; [done|]. simpl. by rewrite Hc.
Qed.

Lemma plain_of_keyword_char c :
  keyword_char c = true -> Text.is_ws c = false -> plain_char c = true.
Proof.
  unfold keyword_char, plain_char. intros H Hws. rewrite Hws in H.
  by rewrite orb_false_r in H.
Qed.

Lemma split_ws_go_plain cur gap s w :
  Text.all_chars plain_char cur = true ->
  Text.all_chars keyword_char s = true ->
  w ∈ Text.split_ws_go cur gap s ->
  Text.all_chars plain_char w = true.
Proof.
  revert cur gap. induction s as [|c s IH]; intros cur gap Hcur Hs Hw; simpl in *.
  - apply list_elem_of_singleton in Hw as ->.
    by apply all_chars_rev_onto.
  - apply andb_true_iff in Hs as [Hc Hs].
    destruct (Text.is_ws c) eqn:Hws.
    + destruct gap.
      * by apply (IH EmptyString true).
      * apply elem_of_cons in Hw as [->|Hw].
        -- by apply all_chars_rev_onto.
        -- by apply (IH EmptyString true).
    + apply (IH (String c cur) false); [|done..].
      simpl. by rewrite (plain_of_keyword_char c Hc Hws).
Qed.

Lemma keyword_plain text k :
  k ∈ extractKeywords text -> Text.all_chars plain_char k = true.
Proof.
  unfold extractKeywords, Text.uniq. intros Hk.
  apply uniq_go_spec in Hk as [_ Hk].
  apply list_elem_of_filter in Hk as [_ Hk].
  eapply split_ws_go_plain; [| |exact Hk]; [done|].
  apply all_chars_filter.
Qed.

(** Of the names inherited from [Object.prototype], a keyword can only be
    "constructor": every other one has a capital letter or an
    underscore. *)
Lemma keyword_prototype_member text k :
  k ∈ extractKeywords text ->
  Text.mem k object_prototype_keys = true ->
  k = "constructor".
Proof.
  intros Hk Hmem. apply keyword_plain in Hk. apply mem_true in Hmem.
  unfold object_prototype_keys in Hmem.
  repeat (apply elem_of_cons in Hmem as [->|Hmem]; [first [done | discriminate Hk]|]).
  by apply elem_of_nil in Hmem.
Qed.

Lemma array_keys_without_constructor sc text :
  "constructor" ∉ extractKeywords text ->
  array_keys sc (extractKeywords text).
Proof.
  intros Hno k Hk. unfold get_prop. destruct (sc !! k); [done|].
  destruct (Text.mem k object_prototype_keys) eqn:Hmem; [|done].
  apply (keyword_prototype_member text k Hk) in Hmem. by subst.
Qed.

(** ** Reinforcement: learning one pair again and again *)

Section Reinforcement.

Variables (inputLower resp : string) (q : Z).






End Reinforcement.

Section Repeated.

Variables (text resp : string) (q : Z).
Local Abbreviation inputLower := (Text.toLowerCase text).
Local Abbreviation keywords := (extractKeywords text).




End Repeated.

(** ** The aging window *)



(** ** One call, array by array *)

Lemma touched_cluster text q k :
  touched text q (InCluster k) = true <-> k ∈ extractKeywords text.
Proof. apply mem_true. Qed.



(** ** Sorting by score and what the truncation drops *)

Lemma insert_by_score_descending x l :
  descending l -> descending (insert_by by_score_desc x l).
Proof.
  unfold descending. induction 1 as [|y l Hl IH Hy]; simpl.
  - repeat constructor.
  - unfold positive, Signed_Z, by_score_desc.
    destruct (0 <? score y - score x) eqn:Hc.
    + apply Z.ltb_lt in Hc. constructor; [done|].
      rewrite insert_by_perm. constructor; [lia | done].
    + apply Z.ltb_ge in Hc. constructor; [by constructor|].
      constructor; [lia|]. eapply Forall_impl; [exact Hy|].
      simpl. intros z Hz. lia.
Qed.

Lemma sort_by_score_descending l : descending (sort by_score_desc l).
Proof.
  induction l as [|x l IH]; [constructor|].
  unfold sort in *. simpl. by apply insert_by_score_descending.
Qed.

Lemma descending_take_drop n l e k :
  descending l -> e ∈ drop n l -> k ∈ take n l -> score e <= score k.
Proof.
  unfold descending. intros Hl. revert n.
  induction Hl as [|y l Hl IH Hy]; intros n He Hk.
  - rewrite drop_nil in He. by apply elem_of_nil in He.
  - destruct n as [|n]; simpl in *.
    + by apply elem_of_nil in Hk.
    + apply elem_of_cons in Hk as [->|Hk].
      * rewrite Forall_forall in Hy. apply Hy.
        by apply (subseteq_drop n l).
      * by apply (IH n).
Qed.

Lemma cap_cluster_take l :
  cap_cluster l = take cluster_cap (sort by_score_desc l).
Proof.
  unfold cap_cluster, slice0.
  destruct (cluster_cap <? length (sort by_score_desc l))%nat eqn:Hc; [done|].
  apply Nat.ltb_ge in Hc. by rewrite take_ge.
Qed.

Lemma cap_cluster_evicts_lowest l :
  evicts_lowest l (cap_cluster l) (evicted_from_cluster l).
Proof.
  rewrite cap_cluster_take. unfold evicted_from_cluster. split.
  - rewrite take_drop. apply sort_perm.
  - intros e k He Hk.
    eapply descending_take_drop; eauto using sort_by_score_descending.
Qed.

Lemma cap_pairs_evicts_lowest l :
  evicts_lowest l (cap_pairs l) (evicted_from_pairs l).
Proof.
  unfold cap_pairs, evicted_from_pairs, slice0.
  destruct (pairs_cap <? length l)%nat; split.
  - rewrite take_drop. apply sort_perm.
  - intros e k He Hk.
    eapply descending_take_drop; eauto using sort_by_score_descending.
  - by rewrite app_nil_r.
  - intros e k He. by apply elem_of_nil in He.
Qed.

(** ** The caps are an invariant of [learnPattern] *)

Lemma within_caps_empty : within_caps emptyMemory.
Proof.
  split; [|simpl; unfold pairs_cap; lia].
  intros k l Hl. simpl in Hl. by rewrite lookup_empty in Hl.
Qed.

Lemma learn_keyword_within_caps inputLower resp q now m k :
  within_caps m ->
  within_caps (store_of (learn_keyword inputLower resp q now m k)).
Proof.
  intros [Hsc Hcp]. unfold learn_keyword.
  assert (forall l0,
    within_caps (set_semanticClusters
      (<[k := cap_cluster (upsert inputLower resp q now l0)]> (semanticClusters m)) m))
    as Hstep.
  { intros l0. split; [|done]. intros k' l' Hl'. simpl in Hl'.
    destruct (decide (k = k')) as [->|Hne].
    - rewrite lookup_insert_eq in Hl'. injection Hl' as <-. apply cap_cluster_length.
    - rewrite lookup_insert_ne in Hl' by done. by apply (Hsc k'). }
  destruct (get_prop (semanticClusters m) k); simpl; [apply Hstep | done | apply Hstep].
Qed.

Lemma forEach_learn_keyword_within_caps inputLower resp q now ks :
  forall m, within_caps m ->
  within_caps (store_of (forEach (learn_keyword inputLower resp q now) ks m)).
Proof.
  induction ks as [|k ks IH]; intros m Hm; [done|].
  cbn [forEach].
  pose proof (learn_keyword_within_caps inputLower resp q now m k Hm) as Hk.
  destruct (learn_keyword inputLower resp q now m k) as [m1|m1]; simpl in Hk.
  - by apply IH.
  - done.
Qed.

Lemma learnPattern_within_caps text resp q now m :
  within_caps m -> within_caps (store_of (learnPattern text resp q now m)).
Proof.
  intros Hm. unfold learnPattern.
  pose proof (forEach_learn_keyword_within_caps (Text.toLowerCase text) resp q now
                (extractKeywords text) m Hm) as H1.
  destruct (forEach _ _ m) as [m1|m1]; simpl in *; [|done].
  destruct H1 as [Hsc Hcp].
  destruct (60 <=? q); split; simpl; try done. apply cap_pairs_length.
Qed.

Lemma run_within_caps calls :
  forall m, within_caps m -> within_caps (run calls m).
Proof.
  induction calls as [|c calls IH]; intros m Hm; [done|].
  simpl. apply IH. by apply learnPattern_within_caps.
Qed.

(** ** The matcher *)

Section MatcherFacts.

Variable md5 : string -> string.

Lemma search_memory text now s :
  globalMemory (state_of (search md5 text now s)) = globalMemory s /\
  sessions (state_of (search md5 text now s)) = sessions s.
Proof.
  unfold search.
  destruct (find _ (contextPairs (globalMemory s))); [done|].
  destruct (collect _ _) as [|c cs]; [done|].
  destruct (score_all _ _) as [scored|]; [|done].
  destruct (sort by_relevance_desc scored) as [|top rest]; [done|].
  by destruct (negb _).
Qed.

Lemma findBestResponse_memory text now s :
  globalMemory (state_of (findBestResponse md5 text now s)) = globalMemory s /\
  sessions (state_of (findBestResponse md5 text now s)) = sessions s.
Proof.
  unfold findBestResponse.
  destruct (cache_get md5 now text (responseCache s)) as [cachedResponse c1].
  destruct (match cachedResponse with Some r => truthy r | None => false end).
  - done.
  - destruct (search_memory text now
                (set_metrics (recordCacheMiss (metrics s)) (set_responseCache c1 s)))
      as [-> ->]. done.
Qed.

End MatcherFacts.

(** Without a prototype member among the keywords, the candidates are
    entries of the clusters of the keywords. *)
Lemma collect_entries sc ks :
  array_keys sc ks ->
  exists es,
    collect sc ks = map Stored es /\
    forall e, e ∈ es -> exists k l, k ∈ ks /\ sc !! k = Some l /\ e ∈ l.
Proof.
  unfold collect.
  assert (forall ks acc es0,
    array_keys sc ks -> acc = map Stored es0 ->
    exists es,
      fold_left
        (fun candidates keyword =>
           match get_prop sc keyword with
           | Own l => candidates ++ map Stored l
           | Inherited => candidates ++ [PrototypeMember]
           | Undefined => candidates
           end) ks acc = map Stored (es0 ++ es) /\
      forall e, e ∈ es -> exists k l, k ∈ ks /\ sc !! k = Some l /\ e ∈ l) as Hgen.
  { clear ks. induction ks as [|k ks IH]; intros acc es0 Hkeys ->.
    - exists []. simpl. rewrite app_nil_r. split; [done|].
      intros e He. by apply elem_of_nil in He.
    - simpl.
      assert (array_keys sc ks) as Hks.
      { intros k' Hk'. apply Hkeys, elem_of_cons. by right. }
      pose proof (Hkeys k ltac:(apply elem_of_cons; by left)) as Hk.
      unfold get_prop in *.
      destruct (sc !! k) as [l|] eqn:Hl.
      + destruct (IH (map Stored es0 ++ map Stored l) (es0 ++ l) Hks)
          as (es & Hfold & Hes); [by rewrite map_app|].
        exists (l ++ es). split; [by rewrite Hfold, app_assoc|].
        intros e He. apply elem_of_app in He as [He|He].
        * exists k, l. split; [apply elem_of_cons; by left | done].
        * destruct (Hes e He) as (k' & l' & Hk' & Hl' & He').
          exists k', l'. split; [apply elem_of_cons; by right | done].
      + destruct (Text.mem k object_prototype_keys); [by destruct Hk|].
        destruct (IH (map Stored es0) es0 Hks eq_refl) as (es & Hfold & Hes).
        exists es. split; [done|].
        intros e He. destruct (Hes e He) as (k' & l' & Hk' & Hl' & He').
        exists k', l'. split; [apply elem_of_cons; by right | done]. }
  intros Hkeys. destruct (Hgen ks [] [] Hkeys eq_refl) as (es & Hfold & Hes).
  exists es. by split.
Qed.

Lemma score_all_stored keywords es :
  score_all keywords (map Stored es) = Some (map (score_candidate keywords) es).
Proof.
  induction es as [|e es IH]; [done|]. simpl. by rewrite IH.
Qed.

Lemma overlap_disjoint keywords candidateKeywords :
  (forall k, k ∈ keywords -> k ∉ candidateKeywords) ->
  overlap keywords candidateKeywords = 0.
Proof.
  intros Hdis. unfold overlap.
  assert (filter (fun k => Text.mem k candidateKeywords) keywords = []) as ->; [|done].
  induction keywords as [|k ks IH]; [done|].
  rewrite filter_cons_False.
  - apply IH. intros k' Hk'. apply Hdis, elem_of_cons. by right.
  - assert (Text.mem k candidateKeywords = false) as Hk.
    { apply mem_false, Hdis, elem_of_cons. by left. }
    is_true_side Hk.
Qed.

(** No overlap, no relevance: the score is not above the threshold. *)
Lemma irrelevant_below_threshold keywords e :
  overlap keywords (extractKeywords (input e)) = 0 ->
  Qle_bool (relevanceScore (score_candidate keywords e)) (inject_Z 30) = true.
Proof.
  intros Hov. unfold score_candidate. simpl. rewrite Hov.
  apply Qle_bool_iff.
  assert (inject_Z 0 / inject_Z (Z.of_nat (length keywords) `max` 1) *
          inject_Z (quality e) == 0)%Q as ->; [|done].
  unfold Qdiv. by rewrite !Qmult_0_l.
Qed.

(** ** The save coordinator *)

Section CoordinatorFacts.

Import Coordinator.

Context {mutation : Type}.
Implicit Types (s : state mutation) (ev : event mutation).

Lemma exec_app s evs1 evs2 :
  exec s (evs1 ++ evs2) =
    match exec s evs1 with
    | Some s1 => exec s1 evs2
    | None => None
    end.
Proof.
  revert s. induction evs1 as [|ev evs1 IH]; intros s; [done|].
  simpl. destruct (step s ev); [apply IH | done].
Qed.

Lemma take_out_split (p : origin * list mutation -> bool) l snap rest :
  take_out p l = Some (snap, rest) ->
  exists c l1 l2,
    l = l1 ++ c :: l2 /\ rest = l1 ++ l2 /\ p c = true /\ snd c = snap.
Proof.
  revert rest. induction l as [|c l IH]; intros rest; simpl; [discriminate|].
  destruct (p c) eqn:Hc.
  - intros [= <- <-]. by exists c, [], l.
  - destruct (take_out p l) as [[snap' rest']|]; [|discriminate].
    intros [= -> <-]. destruct (IH rest' eq_refl) as (c' & l1 & l2 & -> & -> & Hp & Hs).
    by exists c', (c :: l1), l2.
Qed.

Lemma take_out_found (p : origin * list mutation -> bool) l :
  (1 <= length (filter (fun c => p c) l))%nat -> is_Some (take_out p l).
Proof.
  induction l as [|c l IH]; simpl; [lia|].
  destruct (p c) eqn:Hc; [by eexists|].
  rewrite filter_cons_False by (is_true_side Hc). intros Hl.
  destruct (IH Hl) as [[snap rest] ->]. by eexists.
Qed.

Lemma queued_not_direct (c : origin * list mutation) :
  is_direct c = negb (is_queued c).
Proof. unfold is_direct, is_queued. by destruct (fst c). Qed.

Lemma take_out_queued_count (l : list (origin * list mutation)) snap rest :
  take_out is_queued l = Some (snap, rest) ->
  length (filter (fun c => is_queued c) l)
    = S (length (filter (fun c => is_queued c) rest)).
Proof.
  intros H. destruct (take_out_split _ _ _ _ H) as (c & l1 & l2 & -> & -> & Hp & _).
  rewrite !filter_app, !length_app.
  rewrite filter_cons_True by (is_true_side Hp). simpl. lia.
Qed.

Lemma take_out_direct_count (l : list (origin * list mutation)) snap rest :
  take_out is_direct l = Some (snap, rest) ->
  length (filter (fun c => is_queued c) rest)
    = length (filter (fun c => is_queued c) l).
Proof.
  intros H. destruct (take_out_split _ _ _ _ H) as (c & l1 & l2 & -> & -> & Hp & _).
  rewrite !filter_app, !length_app.
  rewrite queued_not_direct in Hp. apply negb_true_iff in Hp.
  by rewrite filter_cons_False by (is_true_side Hp).
Qed.

Lemma invariant_boot pool : invariant (boot (mutation := mutation) pool).
Proof.
  unfold invariant, boot, queued_inflight, pending. simpl.
  repeat split; try done; try lia.
Qed.

(** Case analysis on a step that happened. *)
Ltac step_inv H :=
  unfold step in H;
  repeat match type of H with
  | context [match ?x with _ => _ end] => destruct x eqn:?; try discriminate H
  end;
  injection H as <-.

Lemma invariant_step s ev s' :
  invariant s -> step s ev = Some s' -> invariant s'.
Proof.
  intros (Hfs & Hsa & Hsf & Hq & Hsched & Howed & Hcov & Hreq & Hpool & Hexit) Hstep.
  unfold invariant, queued_inflight, pending in *.
  step_inv Hstep; simpl in *;
    repeat match goal with
    | H : (_ && _) = true |- _ => apply andb_true_iff in H as [? ?]
    | H : (_ <? _)%nat = true |- _ => apply Nat.ltb_lt in H
    | H : (_ =? _)%nat = true |- _ => apply Nat.eqb_eq in H
    | H : (_ <=? _)%nat = true |- _ => apply Nat.leb_le in H
    | H : take_out is_queued _ = Some _ |- _ => apply take_out_queued_count in H
    | H : take_out is_direct _ = Some _ |- _ => apply take_out_direct_count in H
    end;
    repeat split; intros;
    try discriminate; try congruence; try lia;
    try (by apply suffix_cons_r; auto);
    try (by apply suffix_cons_r, Hcov);
    try (specialize (Hpool eq_refl); congruence);
    auto.
Qed.

Lemma invariant_exec evs :
  forall s s', invariant s -> exec s evs = Some s' -> invariant s'.
Proof.
  induction evs as [|ev evs IH]; intros s s' Hs; simpl.
  - by intros [= <-].
  - destruct (step s ev) as [s1|] eqn:Hstep; [|discriminate].
    apply IH. by eapply invariant_step.
Qed.

(** The three queue events, each with what enables it and what it
    leaves. *)
Lemma step_JobEnd s :
  shutdown s <> Exited -> (1 <= queued_inflight s)%nat ->
  exists s', step s (JobEnd Saved) = Some s' /\
    finished s' = S (finished s) /\ started s' = started s /\
    attached s' = attached s /\ immediates s' = immediates s /\
    log s' = log s /\ requested s' = requested s /\ shutdown s' = shutdown s.
Proof.
  intros Hsh Hq. destruct (take_out_found is_queued (inflight s) Hq) as [[snap rest] Ht].
  unfold step. rewrite Ht. destruct (shutdown s); try done; eexists; by split.
Qed.

Lemma step_RunImmediate s :
  shutdown s <> Exited -> (1 <= immediates s)%nat ->
  exists s', step s RunImmediate = Some s' /\
    attached s' = S (attached s) /\ started s' = started s /\
    finished s' = finished s /\
    log s' = log s /\ requested s' = requested s /\ shutdown s' = shutdown s.
Proof.
  intros Hsh Hi. unfold step. destruct (immediates s) as [|n]; [lia|].
  destruct (shutdown s); try done; eexists; by split.
Qed.

Lemma step_JobStart s :
  shutdown s <> Exited -> (started s < attached s)%nat -> finished s = started s ->
  exists s', step s JobStart = Some s' /\
    owed s' = false /\ serialized s' = log s /\
    log s' = log s /\ requested s' = requested s.
Proof.
  intros Hsh Hlt Heq. unfold step.
  apply Nat.ltb_lt in Hlt. apply Nat.eqb_eq in Heq. rewrite Hlt, Heq.
  destruct (shutdown s); try done; eexists; by split.
Qed.

Lemma settle_of_the_queue s : forallb of_the_queue (settle s) = true.
Proof.
  unfold settle.
  by destruct (started s =? S (finished s))%nat, (attached s =? started s)%nat.
Qed.

(** A request that is owed can always be served by the queue alone. *)
Lemma settle_serves s :
  invariant s -> shutdown s <> Exited -> owed s = true ->
  exists s', exec s (settle s) = Some s' /\
    owed s' = false /\ serialized s' = log s /\
    log s' = log s /\ requested s' = requested s.
Proof.
  intros (Hfs & Hsa & Hsf & Hq & _ & Howed & _) Hsh Ho.
  specialize (Howed Ho). unfold pending in Howed. unfold settle.
  (* first let the save in flight settle *)
  assert (exists s1,
    exec s (if (started s =? S (finished s))%nat then [JobEnd Saved] else [])
      = Some s1 /\
    finished s1 = started s /\ started s1 = started s /\
    attached s1 = attached s /\ immediates s1 = immediates s /\
    log s1 = log s /\ requested s1 = requested s /\ shutdown s1 = shutdown s)
    as (s1 & Hrun1 & Hf1 & Hs1 & Ha1 & Hi1 & Hl1 & Hr1 & Hsh1).
  { destruct (started s =? S (finished s))%nat eqn:Hbusy.
    - apply Nat.eqb_eq in Hbusy.
      destruct (step_JobEnd s Hsh) as (s1 & Hstep & Hf & Hs & Ha & Hi & Hl & Hr & Hs');
        [rewrite Hq; lia|].
      exists s1. simpl. rewrite Hstep. repeat split; try done. lia.
    - apply Nat.eqb_neq in Hbusy. exists s. repeat split; try done. lia. }
  (* then let the callback chain the job *)
  assert (exists s2,
    exec s1 (if (attached s =? started s)%nat then [RunImmediate] else [])
      = Some s2 /\
    finished s2 = started s /\ started s2 = started s /\
    (started s < attached s2)%nat /\
    log s2 = log s /\ requested s2 = requested s /\ shutdown s2 = shutdown s)
    as (s2 & Hrun2 & Hf2 & Hs2 & Ha2 & Hl2 & Hr2 & Hsh2).
  { destruct (attached s =? started s)%nat eqn:Hnone.
    - apply Nat.eqb_eq in Hnone.
      destruct (step_RunImmediate s1) as (s2 & Hstep & Ha & Hs & Hf & Hl & Hr & Hs');
        [congruence | lia |].
      exists s2. simpl. rewrite Hstep. repeat split; try congruence. lia.
    - apply Nat.eqb_neq in Hnone. exists s1. repeat split; try congruence. lia. }
  destruct (step_JobStart s2) as (s3 & Hstep & Ho3 & Hser & Hl3 & Hr3);
    [congruence | lia | congruence |].
  exists s3. rewrite exec_app, Hrun1, exec_app, Hrun2. simpl. rewrite Hstep.
  repeat split; congruence.
Qed.

End CoordinatorFacts.

(** * The claims of the specification *)

(** Checks of the side conditions on concrete stores. *)
Lemma array_keys_check sc ks :
  forallb (fun k => match get_prop sc k with Inherited => false | _ => true end) ks
    = true ->
  array_keys sc ks.
Proof.
  intros Hall k Hk. rewrite forallb_forall in Hall.
  specialize (Hall k). rewrite <- list_elem_of_In in Hall. specialize (Hall Hk).
  intros Hi. by rewrite Hi in Hall.
Qed.



(** ** C1 *)




(** ** C2 *)




(** ** C3 *)

Lemma learn_keyword_pairs inputLower resp q now m k :
  contextPairs (store_of (learn_keyword inputLower resp q now m k))
    = contextPairs m.
Proof.
  unfold learn_keyword. by destruct (get_prop (semanticClusters m) k).
Qed.

Lemma forEach_learn_keyword_pairs inputLower resp q now ks :
  forall m,
  contextPairs (store_of (forEach (learn_keyword inputLower resp q now) ks m))
    = contextPairs m.
Proof.
  induction ks as [|k ks IH]; intros m; [done|]. cbn [forEach].
  pose proof (learn_keyword_pairs inputLower resp q now m k) as Hk.
  destruct (learn_keyword inputLower resp q now m k) as [m1|m1]; simpl in Hk.
  - by rewrite IH.
  - done.
Qed.

(** C3. From the empty store, after each call of any sequence of
    learnPattern calls (a call that throws included) every cluster holds at
    most 20 entries and ContextPairs at most 1000. The cluster a call leaves
    under a keyword is the first 20 of the upserted cluster in descending
    order of quality x confidence, ContextPairs (at q >= 60) the first 1000
    of the upserted array when that outgrew 1000; in both, what is cut off
    scores no higher than anything that is kept. *)
Theorem cap_invariants calls n :
  within_caps (run (take n calls) emptyMemory) /\
  (forall l, evicts_lowest l (cap_cluster l) (evicted_from_cluster l)) /\
  (forall l, evicts_lowest l (cap_pairs l) (evicted_from_pairs l)) /\
  (forall inputLower resp q now m k,
     learn_keyword inputLower resp q now m k = Thrown m \/
     exists m', learn_keyword inputLower resp q now m k = Returned m' /\
                cluster m' k = cap_cluster (upsert inputLower resp q now (cluster m k))) /\
  (forall text resp q now m,
     (exists m1, learnPattern text resp q now m = Thrown m1) \/
     exists m', learnPattern text resp q now m = Returned m' /\
                contextPairs m' =
                  if 60 <=? q
                  then cap_pairs (upsert (Text.toLowerCase text) resp q now
                                         (contextPairs m))
                  else contextPairs m).
Proof.
  split; [|split; [|split; [|split]]].
  - apply run_within_caps, within_caps_empty.
  - apply cap_cluster_evicts_lowest.
  - apply cap_pairs_evicts_lowest.
  - intros inputLower resp q now m k.
    destruct (get_prop (semanticClusters m) k) as [l| |] eqn:Hget.
    + right. rewrite learn_keyword_returns by (rewrite Hget; discriminate).
      eexists. split; [reflexivity|]. unfold cluster at 1. simpl.
      by rewrite lookup_insert_eq.
    + left. unfold learn_keyword. by rewrite Hget.
    + right. rewrite learn_keyword_returns by (rewrite Hget; discriminate).
      eexists. split; [reflexivity|]. unfold cluster at 1. simpl.
      by rewrite lookup_insert_eq.
  - intros text resp q now m. unfold learnPattern.
    pose proof (forEach_learn_keyword_pairs (Text.toLowerCase text) resp q now
                  (extractKeywords text) m) as Hcp.
    destruct (forEach _ _ m) as [m1|m1]; simpl in Hcp.
    + right. eexists. split; [reflexivity|].
      destruct (60 <=? q); simpl; by rewrite Hcp.
    + left. by exists m1.
Qed.

(** ** C6 *)




(** ** C5 *)

Lemma shares_no_keyword_b_sound text e :
  shares_no_keyword_b text e = true -> shares_no_keyword text e.
Proof.
  unfold shares_no_keyword_b. rewrite forallb_forall. intros Hall k Hk.
  apply mem_false, negb_true_iff, Hall. by apply list_elem_of_In.
Qed.

Lemma disjoint_from_store_sound text m :
  disjoint_from_store text m = true ->
  forall e, stored m e -> shares_no_keyword text e.
Proof.
  unfold disjoint_from_store. rewrite andb_true_iff, !forallb_forall.
  intros [Hcp Hsc] e [He|(k & l & Hl & He)]; apply shares_no_keyword_b_sound.
  - by apply Hcp, list_elem_of_In.
  - specialize (Hsc (k, l)). rewrite forallb_forall in Hsc.
    apply Hsc; [|by apply list_elem_of_In].
    by apply list_elem_of_In, elem_of_map_to_list.
Qed.

(** C5, amended. A query that the response cache does not answer, that is
    not the input of an entry of ContextPairs, none of whose keywords reads
    as a member of Object.prototype in the cluster object, and whose
    keywords are disjoint from the keywords of the input of every stored
    pattern: findBestResponse returns null. *)
Theorem relevance_threshold md5 text now s :
  fst (cache_get md5 now text (responseCache s)) = None ->
  find (has_input (Text.toLowerCase text)) (contextPairs (globalMemory s)) = None ->
  array_keys (semanticClusters (globalMemory s)) (extractKeywords text) ->
  (forall e, stored (globalMemory s) e -> shares_no_keyword text e) ->
  value_of (findBestResponse md5 text now s) = Some None.
Proof.
  intros Hcache Hexact Hkeys Hdisjoint. unfold findBestResponse.
  destruct (cache_get md5 now text (responseCache s)) as [cachedResponse c1].
  simpl in Hcache. subst cachedResponse.
  unfold search. simpl. rewrite Hexact.
  destruct (collect_entries _ _ Hkeys) as (es & -> & Hes).
  destruct es as [|e0 es0]; [done|].
  change (map Stored (e0 :: es0)) with (Stored e0 :: map Stored es0) at 1.
  cbv iota. change (Stored e0 :: map Stored es0) with (map Stored (e0 :: es0)).
  rewrite score_all_stored.
  destruct (sort by_relevance_desc
              (map (score_candidate (extractKeywords text)) (e0 :: es0)))
    as [|top rest] eqn:Hsort; [done|].
  assert (top ∈ map (score_candidate (extractKeywords text)) (e0 :: es0)) as Htop.
  { apply (sort_elem_of by_relevance_desc). rewrite Hsort. apply elem_of_cons. by left. }
  apply list_elem_of_fmap in Htop as (e & -> & He).
  rewrite irrelevant_below_threshold; [done|].
  apply overlap_disjoint. apply (Hdisjoint e).
  destruct (Hes e He) as (k & l & _ & Hl & Hel). right. by exists k, l.
Qed.

(** The theorem at work: a store that knows about cats, asked about a
    zebra crossing. *)
Lemma relevance_threshold_witness :
  let s := booted (learned_once "tell me about cats" "meow" 70) in
  disjoint_from_store "zebra crossing" (globalMemory s) = true /\
  value_of (findBestResponse plain_key "zebra crossing" 1000 s) = Some None.
Proof.
  intros s. split; [reflexivity|].
  apply (relevance_threshold plain_key "zebra crossing" 1000 s).
  - reflexivity.
  - reflexivity.
  - apply array_keys_check. reflexivity.
  - apply disjoint_from_store_sound. reflexivity.
Defined.

(** C5 as stated fails on an exact match: "how are you" consists of stop
    words only, so it shares no keyword with anything, and the pair
    learned for it is found in ContextPairs and returned. *)
Lemma relevance_threshold_exact_match :
  let m := learned_once "how are you" "good, you?" 70 in
  extractKeywords "how are you" = [] /\
  disjoint_from_store "how are you" m = true /\
  value_of (findBestResponse plain_key "how are you" 1000 (booted m))
    = Some (Some "good, you?").
Proof. vm_compute. repeat split; reflexivity. Qed.

(** ** C10 *)

(** C10. Whatever the input and the state, and whether it returns or
    throws, findBestResponse leaves contextPairs, semanticClusters,
    qualityScores and stats as they were; only the response cache and the
    hit/miss counters change. *)
Theorem findBestResponse_frame md5 text now s :
  let s' := state_of (findBestResponse md5 text now s) in
  contextPairs (globalMemory s') = contextPairs (globalMemory s) /\
  semanticClusters (globalMemory s') = semanticClusters (globalMemory s) /\
  qualityScores (globalMemory s') = qualityScores (globalMemory s) /\
  stats (globalMemory s') = stats (globalMemory s).
Proof.
  intros s'. unfold s'.
  destruct (findBestResponse_memory md5 text now s) as [-> _]. done.
Qed.

(** ** C4 *)

(** C4, amended. In every state the coordinator reaches: at most one save
    started by the queue is in flight; a queueSave call is not dropped while
    the process runs, for as long as no save has begun since the call a job
    is pending (a setImmediate callback or a chained job), the queue alone
    can bring it to its start, and the save that then begins serializes the
    store as it is, every mutation made before the call included; and when
    the synchronous save of the shutdown has succeeded and no Postgres pool
    is configured, the primary file holds the store as it is at exit.
    The saveMemory call of gracefulShutdown and saveMemorySync do not go
    through the queue and are not covered by the first part. *)
Theorem save_coordinator (mutation : Type) (pool : bool)
    (evs : list (Coordinator.event mutation)) (s : Coordinator.state mutation) :
  Coordinator.exec (Coordinator.boot pool) evs = Some s ->
  (Coordinator.queued_inflight s <= 1)%nat /\
  Coordinator.requested s `suffix_of` Coordinator.log s /\
  (Coordinator.owed s = true -> (1 <= Coordinator.pending s)%nat) /\
  (Coordinator.owed s = false ->
     Coordinator.requested s `suffix_of` Coordinator.serialized s) /\
  (Coordinator.shutdown s <> Coordinator.Exited ->
     let more := if Coordinator.owed s then Coordinator.settle s else [] in
     forallb Coordinator.of_the_queue more = true /\
     exists s', Coordinator.exec s more = Some s' /\
                Coordinator.owed s' = false /\
                Coordinator.requested s `suffix_of` Coordinator.serialized s' /\
                Coordinator.log s' = Coordinator.log s) /\
  (Coordinator.shutdown s = Coordinator.Exited ->
     Coordinator.pgPool s = false -> Coordinator.flushed s = true ->
     Coordinator.file s = Some (Coordinator.log s)).
Proof.
  intros Hrun.
  pose proof (invariant_exec evs _ _ (invariant_boot pool) Hrun) as Hinv.
  pose proof Hinv as (Hfs & Hsa & Hsf & Hq & _ & Howed & Hcov & Hreq & _ & Hexit).
  split; [rewrite Hq; lia|]. split; [done|]. split; [done|]. split; [done|].
  split; [|done].
  intros Hsh. destruct (Coordinator.owed s) eqn:Ho.
  - split; [apply settle_of_the_queue|].
    destruct (settle_serves s Hinv Hsh Ho) as (s' & Hrun' & Ho' & Hser & Hlog & _).
    exists s'. repeat split; try done. by rewrite Hser.
  - split; [done|]. exists s. repeat split; try done. by apply Hcov.
Qed.

(** The theorem at work: three learning events with their queueSave calls,
    one save in between, then a shutdown; the file ends up with all
    three. *)
Lemma save_coordinator_witness :
  exists s,
    Coordinator.exec (Coordinator.boot false) three_then_shutdown = Some s /\
    Coordinator.shutdown s = Coordinator.Exited /\
    Coordinator.file s = Some [3; 2; 1]%nat /\
    (Coordinator.queued_inflight s <= 1)%nat.
Proof.
  eexists. split; [vm_compute; reflexivity|]. split; [reflexivity|].
  split.
  - apply (save_coordinator nat false three_then_shutdown);
      vm_compute; reflexivity.
  - apply (save_coordinator nat false three_then_shutdown).
    vm_compute; reflexivity.
Defined.

(** C4 as stated fails for the saves taken together: the final saveMemory of
    gracefulShutdown is in flight when a queueSave call arrives, and the
    queued job starts a second saveMemory beside it. It also fails at exit
    when a Postgres pool is being closed: a mutation made while pgPool.end()
    is awaited comes after the last save and is not in the file. *)
Lemma two_saves_in_flight :
  (exists s,
     Coordinator.exec (Coordinator.boot false) overlapping_run = Some s /\
     Coordinator.inflight s =
       [ (Coordinator.Queued, [2; 1]%nat); (Coordinator.Direct, [1]%nat) ] /\
     length (Coordinator.inflight s) = 2%nat) /\
  (exists s,
     Coordinator.exec (Coordinator.boot true) late_mutation_run = Some s /\
     Coordinator.shutdown s = Coordinator.Exited /\
     Coordinator.flushed s = true /\
     Coordinator.log s = [2; 1]%nat /\
     Coordinator.file s = Some [1]%nat).
Proof.
  split; eexists; (split; [vm_compute; reflexivity|]); repeat split; reflexivity.
Qed.

(** ** C7 *)

Lemma accepted_iff loaded :
  Persistence.accepted loaded <->
  exists members st cp sc,
    loaded = Persistence.JObject members /\
    Persistence.member "stats" members = Some st /\
    Persistence.json_truthy st = true /\
    Persistence.member "contextPairs" members = Some cp /\
    Persistence.json_truthy cp = true /\
    Persistence.member "semanticClusters" members = Some sc /\
    Persistence.json_truthy sc = true.
Proof.
  unfold Persistence.accepted, Persistence.valid_structure,
    Persistence.truthy_member, Persistence.read_member.
  split.
  - destruct loaded as [| | | | |members]; try discriminate.
    destruct (Persistence.member "stats" members) as [st|] eqn:Hst; [|discriminate].
    destruct (Persistence.json_truthy st) eqn:Hst'; [|discriminate].
    destruct (Persistence.member "contextPairs" members) as [cp|] eqn:Hcp; [|discriminate].
    destruct (Persistence.json_truthy cp) eqn:Hcp'; [|discriminate].
    destruct (Persistence.member "semanticClusters" members) as [sc|] eqn:Hsc; [|discriminate].
    intros [= Hsc']. by exists members, st, cp, sc.
  - intros (members & st & cp & sc & -> & -> & -> & -> & -> & -> & ->). done.
Qed.

(** C7, amended. Provided the data directories can be created, loadMemory
    settles without throwing. It keeps the default memory when no source
    yields a text that is not empty, when the text fails to parse, and when
    the parsed value is not an object whose members stats, contextPairs and
    semanticClusters are all present and truthy; otherwise the parsed value
    replaces the default memory. The shape of the members (array, object)
    is not examined. *)
Theorem loadMemory_cases (parse : string -> option Persistence.json)
    (env : Persistence.load_env) :
  Persistence.mkdir_ok env = true ->
  Persistence.loadMemory parse env <> Persistence.LoadRejected /\
  (forall loaded,
     (exists line, Persistence.loadMemory parse env = Persistence.Replaced loaded line) <->
     (exists text, Persistence.chosen_text env = Some text /\
                   parse text = Some loaded /\ Persistence.accepted loaded)) /\
  (forall loaded,
     Persistence.accepted loaded <->
     exists members st cp sc,
       loaded = Persistence.JObject members /\
       Persistence.member "stats" members = Some st /\
       Persistence.json_truthy st = true /\
       Persistence.member "contextPairs" members = Some cp /\
       Persistence.json_truthy cp = true /\
       Persistence.member "semanticClusters" members = Some sc /\
       Persistence.json_truthy sc = true).
Proof.
  intros Hmk. unfold Persistence.loadMemory, Persistence.accepted. rewrite Hmk. simpl.
  split; [|split; [|apply accepted_iff]].
  - destruct (Persistence.chosen_text env) as [text|]; [|done].
    destruct (parse text) as [loaded|]; [|done].
    by destruct (Persistence.valid_structure loaded) as [[|]|].
  - intros loaded. split.
    + intros [line Hload].
      destruct (Persistence.chosen_text env) as [text|]; [|done].
      exists text. destruct (parse text) as [loaded'|]; [|done].
      destruct (Persistence.valid_structure loaded') as [[|]|] eqn:Hv; try done.
      injection Hload as -> _. done.
    + intros (text & -> & -> & ->). by eexists.
Qed.

(** The theorem at work: a well-formed snapshot in the primary file. *)
Lemma loadMemory_cases_witness :
  Persistence.mkdir_ok only_memory_file = true /\
  Persistence.loadMemory (parsed_as wellformed_snapshot) only_memory_file
    = Persistence.Replaced wellformed_snapshot
        (INFO, "Memory loaded successfully") /\
  Persistence.loadMemory (parsed_as wellformed_snapshot) only_memory_file
    <> Persistence.LoadRejected.
Proof.
  split; [reflexivity|]. split; [reflexivity|].
  apply (loadMemory_cases (parsed_as wellformed_snapshot) only_memory_file).
  reflexivity.
Defined.

(** C7 as stated fails in both directions: a snapshot whose contextPairs is
    a string and whose semanticClusters is a number is accepted, and a
    snapshot with an array and an object but without stats is rejected. *)
Lemma loadMemory_checks_truthiness_only :
  Persistence.loadMemory (parsed_as misshapen_snapshot) only_memory_file
    = Persistence.Replaced misshapen_snapshot
        (INFO, "Memory loaded successfully") /\
  Persistence.loadMemory (parsed_as snapshot_without_stats) only_memory_file
    = Persistence.KeptDefaults
        (WARN, "Invalid memory structure, using defaults").
Proof. split; reflexivity. Qed.

(** ** C8 *)

(** C8 holds for the two remote stores: whatever they answer, the call
    fulfils and logs nothing above a warning, and they are only started once
    both files are in place. *)
Lemma remote_failure_is_a_warning env memoryStr r d :
  let '(outcome, lines, _) := Persistence.run_remote env memoryStr r d in
  outcome = Persistence.Fulfilled /\
  Forall (fun line => fst line <> ERROR) lines.
Proof.
  unfold Persistence.run_remote.
  destruct r; [destruct (Persistence.postgres env) as [[|]|]
              | destruct (Persistence.replit_db env) as [[|]|]];
    (split; [done|]); repeat constructor; done.
Qed.

Lemma remotes_start_after_the_files env memoryStr d :
  Persistence.detached (Persistence.saveMemory env memoryStr d) <> [] ->
  Persistence.primary_file (Persistence.after (Persistence.saveMemory env memoryStr d))
    = Some memoryStr /\
  Persistence.settled (Persistence.saveMemory env memoryStr d) = Persistence.Fulfilled.
Proof.
  unfold Persistence.saveMemory.
  destruct (Persistence.write_temp_ok env), (Persistence.rename_temp_ok env),
    (Persistence.write_persistent_ok env), (Persistence.rename_persistent_ok env);
    simpl; done.
Qed.

(** C8 fails in the code for the persistent mirror. With the primary file
    written and the write of the mirror failing, saveMemory logs at error
    level, rejects to its caller, and never starts the remote stores. With
    both files written and both remote stores refusing, it fulfils and the
    refusals are warnings. *)
Theorem mirror_failure_is_thrown :
  let r := Persistence.saveMemory mirror_fails "snapshot" blank_disk in
  Persistence.settled r
    = Persistence.RejectedWith (ERROR, "Failed to save memory") /\
  Persistence.save_log r = [(ERROR, "Failed to save memory")] /\
  Persistence.primary_file (Persistence.after r) = Some "snapshot" /\
  Persistence.detached r = [] /\
  let r' := Persistence.saveMemory remotes_fail "snapshot" blank_disk in
  Persistence.settled r' = Persistence.Fulfilled /\
  Persistence.detached r' = [Persistence.ToPostgres; Persistence.ToReplitDB] /\
  Persistence.run_remote remotes_fail "snapshot" Persistence.ToPostgres
      (Persistence.after r')
    = (Persistence.Fulfilled,
       [(WARN, "Failed to save memory to Postgres")],
       Persistence.after r').
Proof. repeat split; reflexivity. Qed.

(** ** C9 *)

(** C9, amended. A chat request that passes validation and whose cleaned
    message is empty or classified as garbage is answered with the fixed
    fallback string and learned = false; contextPairs, semanticClusters and
    qualityScores are left as they were, and of stats only garbageFiltered
    changes, which grows by one (the reply carries the stats after the
    increment). The older handler, which has no such counter, leaves the
    whole store as it was. *)
Theorem garbage_reply (content_rules : string -> bool)
    (message sessionId : field) (duration : Z) (s : server) (trimmed id : string) :
  validateMessage message = Valid trimmed ->
  session_of sessionId = Valid id ->
  rejected content_rules (clean trimmed) = true ->
  let '(r, s') := chat_intake content_rules message sessionId duration s in
  r = Answer fallback_reply false (stats (globalMemory s')) (JsMap.size (sessions s)) /\
  contextPairs (globalMemory s') = contextPairs (globalMemory s) /\
  semanticClusters (globalMemory s') = semanticClusters (globalMemory s) /\
  qualityScores (globalMemory s') = qualityScores (globalMemory s) /\
  stats (globalMemory s') =
    mkStats (totalMessages (stats (globalMemory s)))
            (totalConversations (stats (globalMemory s)))
            (trainingDataPoints (stats (globalMemory s)))
            (garbageFiltered (stats (globalMemory s)) + 1)
            (liveConversationsLearned (stats (globalMemory s))) /\
  (forall text, text <> "" ->
     rejected content_rules (clean_legacy text) = true ->
     chat_intake_legacy content_rules (Str text) s
       = (AnswerLegacy fallback_reply false (stats (globalMemory s)), s)).
Proof.
  intros Hmsg Hsid Hrej. unfold chat_intake. rewrite Hmsg, Hsid, Hrej.
  repeat split.
  intros text Htext Hrej'. unfold chat_intake_legacy.
  apply String.eqb_neq in Htext. by rewrite Htext, Hrej'.
Qed.

(** The theorem at work: a message made of two apostrophes. *)
Lemma garbage_reply_witness :
  let rules := fun _ : string => false in
  clean "''" = "" /\
  let '(r, s') := chat_intake rules (Str "''") Missing 3 (booted emptyMemory) in
  r = Answer fallback_reply false (stats (globalMemory s')) 0 /\
  contextPairs (globalMemory s') = [] /\
  semanticClusters (globalMemory s') = ∅ /\
  qualityScores (globalMemory s') = ∅ /\
  stats (globalMemory s') = mkStats 0 0 0 (0 + 1) 0 /\
  (forall text, text <> "" ->
     rejected rules (clean_legacy text) = true ->
     chat_intake_legacy rules (Str text) (booted emptyMemory)
       = (AnswerLegacy fallback_reply false emptyStats, booted emptyMemory)).
Proof.
  intros rules. split; [reflexivity|].
  apply (garbage_reply rules (Str "''") Missing 3 (booted emptyMemory) "''" "default");
    reflexivity.
Defined.

(** C9 as stated fails on stats: a message that is a lone apostrophe passes
    validation and is cleaned to the empty string, so the classifier is not
    even consulted; the reply is the fallback string, and garbageFiltered
    has gone from 0 to 1. *)
Lemma garbage_is_counted :
  let rules := fun _ : string => false in
  let s := booted emptyMemory in
  validateMessage (Str "'") = Valid "'" /\
  clean "'" = "" /\
  fst (chat_intake rules (Str "'") Missing 3 s)
    = Answer fallback_reply false (mkStats 0 0 0 1 0) 0 /\
  stats (globalMemory s) = mkStats 0 0 0 0 0 /\
  stats (globalMemory (snd (chat_intake rules (Str "'") Missing 3 s)))
    = mkStats 0 0 0 1 0 /\
  stats (globalMemory (snd (chat_intake rules (Str "'") Missing 3 s)))
    <> stats (globalMemory s).
Proof. repeat split; try reflexivity. discriminate. Qed.

(** * Further properties of the code *)

(** ** Maps in insertion order *)

Section JsMapFacts.

Context {V : Type}.
Implicit Types (m : JsMap.t V) (k : string) (v : V).

Lemma get_set_eq k v m : JsMap.get k (JsMap.set k v m) = Some v.
Proof.
  induction m as [|[k' v'] m IH]; simpl.
  - by rewrite String.eqb_refl.
  - destruct (String.eqb k' k) eqn:Hk; simpl; by rewrite Hk.
Qed.

Lemma get_set_ne k k' v m :
  k <> k' -> JsMap.get k' (JsMap.set k v m) = JsMap.get k' m.
Proof.
  intros Hne. induction m as [|[k0 v0] m IH]; simpl.
  - apply String.eqb_neq in Hne. by rewrite Hne.
  - destruct (String.eqb k0 k) eqn:Hk; simpl.
    + apply String.eqb_eq in Hk as ->.
      apply String.eqb_neq in Hne. by rewrite Hne.
    + by rewrite IH.
Qed.

Lemma size_set_bound k v m : (JsMap.size (JsMap.set k v m) <= S (JsMap.size m))%nat.
Proof.
  unfold JsMap.size. induction m as [|[k' v'] m IH]; simpl; [lia|].
  destruct (String.eqb k' k); simpl; lia.
Qed.


Lemma get_None_keys k m : JsMap.get k m = None <-> k ∉ (fst <$> m).
Proof.
  induction m as [|[k' v'] m IH]; simpl.
  - split; [intros _ H; by apply elem_of_nil in H | done].
  - destruct (String.eqb k' k) eqn:Hk.
    + apply String.eqb_eq in Hk as ->. split; [done|].
      intros H. destruct H. apply elem_of_cons. by left.
    + apply String.eqb_neq in Hk. rewrite IH. split.
      * intros H Hin. apply elem_of_cons in Hin as [->|Hin]; [done | by apply H].
      * intros H Hin. apply H, elem_of_cons. by right.
Qed.

Lemma get_Some_elem k v m : JsMap.get k m = Some v -> (k, v) ∈ m.
Proof.
  induction m as [|[k' v'] m IH]; simpl; [done|].
  destruct (String.eqb k' k) eqn:Hk.
  - apply String.eqb_eq in Hk as ->. intros [= ->]. apply elem_of_cons. by left.
  - intros H. apply elem_of_cons. right. by apply IH.
Qed.

Lemma elem_get_unique k v m :
  NoDup (fst <$> m) -> (k, v) ∈ m -> JsMap.get k m = Some v.
Proof.
  induction m as [|[k' v'] m IH]; simpl; intros Hnd Hin.
  - by apply elem_of_nil in Hin.
  - apply NoDup_cons in Hnd as [Hk' Hnd].
    apply elem_of_cons in Hin as [[= -> ->]|Hin].
    + by rewrite String.eqb_refl.
    + destruct (String.eqb k' k) eqn:Hk.
      * apply String.eqb_eq in Hk as ->. destruct Hk'.
        apply list_elem_of_fmap. by exists (k, v).
      * by apply IH.
Qed.




Lemma delete_filter k m :
  JsMap.delete k m = filter (fun kv => fst kv <> k) m.
Proof.
  unfold JsMap.delete. apply list_filter_iff. intros [k' v']. simpl.
  destruct (String.eqb k' k) eqn:Hk; simpl.
  - apply String.eqb_eq in Hk. tauto.
  - apply String.eqb_neq in Hk. tauto.
Qed.

Lemma get_delete_eq k m : JsMap.get k (JsMap.delete k m) = None.
Proof.
  apply get_None_keys. rewrite delete_filter. intros Hin.
  apply list_elem_of_fmap in Hin as ([k' v'] & -> & Hin).
  apply list_elem_of_filter in Hin as [Hne _]. done.
Qed.

Lemma get_delete_ne k k' m :
  k <> k' -> JsMap.get k' (JsMap.delete k m) = JsMap.get k' m.
Proof.
  intros Hne. unfold JsMap.delete, JsMap.t. induction m as [|[k0 v0] m IH]; [done|].
  rewrite filter_cons. cbn [fst JsMap.get].
  destruct (String.eqb k0 k) eqn:Hk; simpl.
  - apply String.eqb_eq in Hk as ->. rewrite IH.
    apply String.eqb_neq in Hne. by rewrite Hne.
  - by rewrite IH.
Qed.

Lemma size_delete k m : (JsMap.size (JsMap.delete k m) <= JsMap.size m)%nat.
Proof. unfold JsMap.size, JsMap.delete. apply length_filter. Qed.

Lemma NoDup_keys_delete k m :
  NoDup (fst <$> m) -> NoDup (fst <$> JsMap.delete k m).
Proof.
  intros Hnd. unfold JsMap.delete.
  apply (sublist_NoDup _ _ Hnd), fmap_sublist. unfold JsMap.t. apply sublist_filter.
Qed.

End JsMapFacts.

Section JsMapFilter.

Context {V : Type}.

Lemma get_filter (p : string * V -> bool) k (m : JsMap.t V) :
  NoDup (fst <$> m) ->
  JsMap.get k (filter (fun kv => p kv) m) =
    match JsMap.get k m with
    | Some v => if p (k, v) then Some v else None
    | None => None
    end.
Proof.
  unfold JsMap.t in *. induction m as [|[k0 v0] m IH]; intros Hnd; [done|].
  rewrite fmap_cons in Hnd. apply NoDup_cons in Hnd as [Hk0 Hnd]. cbn [fst] in Hk0.
  rewrite filter_cons. cbn [JsMap.get].
  destruct (String.eqb k0 k) eqn:Hk.
  - apply String.eqb_eq in Hk as ->.
    destruct (p (k, v0)) eqn:Hp; simpl.
    + by rewrite String.eqb_refl.
    + apply get_None_keys. intros Hin. apply Hk0.
      apply list_elem_of_fmap in Hin as (kv & -> & Hin).
      apply list_elem_of_filter in Hin as [_ Hin].
      apply list_elem_of_fmap. by exists kv.
  - destruct (p (k0, v0)); simpl; [rewrite Hk|]; by apply IH.
Qed.

End JsMapFilter.

(** ** Lower case *)

Lemma lower_char_idempotent c : Text.lower_char (Text.lower_char c) = Text.lower_char c.
Proof. destruct c as [[] [] [] [] [] [] [] []]; reflexivity. Qed.

Lemma toLowerCase_idempotent s :
  Text.toLowerCase (Text.toLowerCase s) = Text.toLowerCase s.
Proof.
  induction s as [|c s IH]; [done|]. simpl. by rewrite lower_char_idempotent, IH.
Qed.

Lemma extractKeywords_lower text :
  extractKeywords (Text.toLowerCase text) = extractKeywords text.
Proof. unfold extractKeywords. by rewrite toLowerCase_idempotent. Qed.

(** ** What the upsert and the caps preserve *)

Section UpsertKeeps.

Variables (inputLower resp : string) (q now : Z).

Lemma findIndex_None_inputs l :
  findIndex (has_input inputLower) l = None -> inputLower ∉ (input <$> l).
Proof.
  intros Hnone Hin. apply findIndex_None in Hnone.
  apply list_elem_of_fmap in Hin as (e & He & Hel).
  assert (e ∈ filter (fun x => has_input inputLower x) l) as Hf.
  { apply list_elem_of_filter. split; [|done].
    unfold has_input. rewrite <- He. by rewrite String.eqb_refl. }
  rewrite Hnone in Hf. by apply elem_of_nil in Hf.
Qed.

Lemma upsert_inputs_found l i e :
  findIndex (has_input inputLower) l = Some i -> l !! i = Some e ->
  input <$> upsert inputLower resp q now l = input <$> l.
Proof.
  intros Hf Hi. rewrite (upsert_found _ _ _ _ _ _ _ Hf Hi).
  destruct (findIndex_Some _ _ _ Hf) as (e' & Hi' & He' & _).
  assert (e' = e) as -> by congruence.
  apply has_input_true in He'.
  assert ((input <$> l) !! i = Some (input e)) as Hin by (by rewrite list_lookup_fmap, Hi).
  repeat case_match; rewrite ?list_fmap_insert; simpl; try done.
  - by apply list_insert_id.
  - rewrite <- He'. by apply list_insert_id.
Qed.

Lemma upsert_NoDup_inputs l :
  NoDup (input <$> l) -> NoDup (input <$> upsert inputLower resp q now l).
Proof.
  intros Hnd. destruct (findIndex (has_input inputLower) l) as [i|] eqn:Hf.
  - destruct (findIndex_Some _ _ _ Hf) as (e & Hi & _).
    by rewrite (upsert_inputs_found l i e Hf Hi).
  - unfold upsert. rewrite Hf, fmap_app. simpl.
    apply NoDup_app. split; [done|]. split; [|apply NoDup_singleton].
    intros x Hx Hx'. apply list_elem_of_singleton in Hx' as ->.
    by apply (findIndex_None_inputs l Hf).
Qed.

Lemma upsert_Forall (P : entry -> Prop) l :
  P (fresh inputLower resp q now) ->
  (forall e, P e -> P (reinforce e now)) ->
  Forall P l -> Forall P (upsert inputLower resp q now l).
Proof.
  intros Hfresh Hre Hl. unfold upsert.
  destruct (findIndex (has_input inputLower) l) as [i|] eqn:Hf.
  - destruct (l !! i) as [e|] eqn:Hi; [|done].
    assert (P e) as He by (eapply Forall_lookup_1; eauto).
    repeat case_match; try done; apply Forall_insert; auto.
  - apply Forall_app. split; [done|]. by constructor.
Qed.

End UpsertKeeps.

Lemma cap_cluster_sublist_sorted l :
  cap_cluster l `sublist_of` sort by_score_desc l.
Proof. rewrite cap_cluster_take. apply sublist_take. Qed.

Lemma cap_cluster_NoDup_inputs l :
  NoDup (input <$> l) -> NoDup (input <$> cap_cluster l).
Proof.
  intros Hnd.
  apply (sublist_NoDup _ (input <$> sort by_score_desc l)).
  - by rewrite (sort_perm by_score_desc l).
  - apply fmap_sublist, cap_cluster_sublist_sorted.
Qed.

Lemma cap_cluster_Forall (P : entry -> Prop) l :
  Forall P l -> Forall P (cap_cluster l).
Proof.
  intros Hl. rewrite cap_cluster_take. apply Forall_take.
  by rewrite (sort_perm by_score_desc l).
Qed.

Lemma descending_take n l : descending l -> descending (take n l).
Proof.
  unfold descending. intros Hl. revert n.
  induction Hl as [|x l Hl IH Hx]; intros [|n]; simpl; try constructor.
  - apply IH.
  - by apply Forall_take.
Qed.

Lemma cap_cluster_descending l : descending (cap_cluster l).
Proof.
  rewrite cap_cluster_take. apply descending_take, sort_by_score_descending.
Qed.

Lemma cap_pairs_NoDup_inputs l :
  NoDup (input <$> l) -> NoDup (input <$> cap_pairs l).
Proof.
  intros Hnd. unfold cap_pairs, slice0.
  destruct (pairs_cap <? length l)%nat; [|done].
  apply (sublist_NoDup _ (input <$> sort by_score_desc l));
    [|apply fmap_sublist, sublist_take].
  by rewrite (sort_perm by_score_desc l).
Qed.

Lemma cap_pairs_Forall (P : entry -> Prop) l :
  Forall P l -> Forall P (cap_pairs l).
Proof.
  intros Hl. unfold cap_pairs, slice0.
  destruct (pairs_cap <? length l)%nat; [|done].
  apply Forall_take. by rewrite (sort_perm by_score_desc l).
Qed.

(** ** Invariants of the store, call by call *)

Section StoreInvariant.

Variables (C : string -> list entry -> Prop) (D : list entry -> Prop).
Variables (text resp : string) (q now : Z).

Hypothesis C_step :
  forall k l, k ∈ extractKeywords text -> (l = [] \/ C k l) ->
    C k (cap_cluster (upsert (Text.toLowerCase text) resp q now l)).
Hypothesis D_step :
  60 <= q -> forall l, D l ->
    D (cap_pairs (upsert (Text.toLowerCase text) resp q now l)).

Lemma learn_keyword_store_inv m k :
  k ∈ extractKeywords text ->
  store_inv C D m ->
  store_inv C D (store_of (learn_keyword (Text.toLowerCase text) resp q now m k)).
Proof.
  intros Hk [Hsc Hcp]. unfold learn_keyword, get_prop.
  destruct (semanticClusters m !! k) as [l|] eqn:Hl.
  - split; [|done]. intros k' l' Hl'. simpl in Hl'.
    destruct (decide (k = k')) as [<-|Hne].
    + rewrite lookup_insert_eq in Hl'. injection Hl' as <-.
      apply C_step; [done|]. right. by apply Hsc.
    + rewrite lookup_insert_ne in Hl' by done. by apply Hsc.
  - destruct (Text.mem k object_prototype_keys); cbn [store_of]; [by split|].
    split; [|done]. intros k' l' Hl'. simpl in Hl'.
    destruct (decide (k = k')) as [<-|Hne].
    + rewrite lookup_insert_eq in Hl'. injection Hl' as <-.
      apply C_step; [done|]. by left.
    + rewrite lookup_insert_ne in Hl' by done. by apply Hsc.
Qed.

Lemma forEach_learn_keyword_store_inv ks :
  forall m, (forall k, k ∈ ks -> k ∈ extractKeywords text) ->
  store_inv C D m ->
  store_inv C D
    (store_of (forEach (learn_keyword (Text.toLowerCase text) resp q now) ks m)).
Proof.
  induction ks as [|k ks IH]; intros m Hks Hm; [done|].
  cbn [forEach].
  pose proof (learn_keyword_store_inv m k
                ltac:(apply Hks, elem_of_cons; by left) Hm) as Hk.
  destruct (learn_keyword (Text.toLowerCase text) resp q now m k) as [m1|m1];
    simpl in Hk; [|done].
  apply IH; [|done]. intros k' Hk'. apply Hks, elem_of_cons. by right.
Qed.

Lemma learnPattern_store_inv m :
  store_inv C D m -> store_inv C D (store_of (learnPattern text resp q now m)).
Proof.
  intros Hm. unfold learnPattern.
  pose proof (forEach_learn_keyword_store_inv (extractKeywords text) m
                ltac:(done) Hm) as H1.
  destruct (forEach _ _ m) as [m1|m1]; simpl in *; [|done].
  destruct H1 as [Hsc Hcp].
  destruct (60 <=? q) eqn:Hq; split; simpl; try done.
  apply D_step; [by apply Z.leb_le | done].
Qed.

End StoreInvariant.

Lemma learnPattern_stats text resp q now m :
  stats (store_of (learnPattern text resp q now m)) = stats m.
Proof.
  unfold learnPattern.
  assert (forall ks m0,
    stats (store_of (forEach (learn_keyword (Text.toLowerCase text) resp q now) ks m0))
      = stats m0) as Hfe.
  { induction ks as [|k ks IH]; intros m0; [done|]. cbn [forEach].
    assert (stats (store_of (learn_keyword (Text.toLowerCase text) resp q now m0 k))
              = stats m0) as Hk.
    { unfold learn_keyword. by destruct (get_prop (semanticClusters m0) k). }
    destruct (learn_keyword (Text.toLowerCase text) resp q now m0 k) as [m1|m1];
      simpl in Hk; [by rewrite IH | done]. }
  specialize (Hfe (extractKeywords text) m).
  destruct (forEach _ _ m) as [m1|m1]; simpl in *; [|done].
  by destruct (60 <=? q).
Qed.

(** ** The learner: what every stored pattern looks like *)

Lemma kept_entry_fresh text resp q now :
  kept_entry (fresh (Text.toLowerCase text) resp q now).
Proof.
  split; simpl; [by rewrite toLowerCase_idempotent|]. exists 1. by split.
Qed.

Lemma kept_entry_reinforce e now : kept_entry e -> kept_entry (reinforce e now).
Proof.
  intros [Hin (c & Hc & Hge)]. split; [done|]. simpl. rewrite Hc. simpl.
  destruct (c =? 0) eqn:Hz; [apply Z.eqb_eq in Hz; lia|].
  exists (c + 1). split; [done | lia].
Qed.

Lemma well_kept_empty : well_kept emptyMemory.
Proof.
  split; [|split; [apply NoDup_nil_2 | constructor]].
  intros k l Hl. simpl in Hl. by rewrite lookup_empty in Hl.
Qed.

Lemma well_kept_learnPattern text resp q now m :
  well_kept m -> well_kept (store_of (learnPattern text resp q now m)).
Proof.
  apply (learnPattern_store_inv
    (fun k l => NoDup (input <$> l) /\ descending l /\
                Forall (fun e => kept_entry e /\ k ∈ extractKeywords (input e)) l)
    (fun l => NoDup (input <$> l) /\
              Forall (fun e => kept_entry e /\ 60 <= quality e) l)).
  - intros k l Hk Hl.
    assert (NoDup (input <$> l) /\
            Forall (fun e => kept_entry e /\ k ∈ extractKeywords (input e)) l)
      as [Hnd Hall].
    { destruct Hl as [->|(? & _ & ?)]; [|done].
      split; [apply NoDup_nil_2 | constructor]. }
    split; [|split].
    + by apply cap_cluster_NoDup_inputs, upsert_NoDup_inputs.
    + apply cap_cluster_descending.
    + apply cap_cluster_Forall, upsert_Forall; [| |done].
      * split; [apply kept_entry_fresh|]. simpl. by rewrite extractKeywords_lower.
      * intros e [He Hke]. split; [by apply kept_entry_reinforce | done].
  - intros Hq l [Hnd Hall]. split.
    + by apply cap_pairs_NoDup_inputs, upsert_NoDup_inputs.
    + apply cap_pairs_Forall, upsert_Forall; [| |done].
      * split; [apply kept_entry_fresh | done].
      * intros e [He Hqe]. split; [by apply kept_entry_reinforce|]. simpl. lia.
Qed.

(** X1. Whatever pairs are learned in whatever order, and whether or not a
    call throws, a store that is well kept stays so: no array holds two
    entries for one input, every cluster is in descending order of score,
    every entry of the cluster of a keyword has that keyword, every input
    is in lower case, every confidence is at least 1, and every entry of
    ContextPairs has quality 60 or more. *)
Theorem store_stays_well_kept calls m : well_kept m -> well_kept (run calls m).
Proof.
  revert m. induction calls as [|c calls IH]; intros m Hm; [done|].
  simpl. apply IH. by apply well_kept_learnPattern.
Qed.

Lemma store_stays_well_kept_witness : well_kept (run crowded_calls emptyMemory).
Proof. apply (store_stays_well_kept crowded_calls emptyMemory), well_kept_empty. Defined.

Lemma qualities_in_range_learnPattern text resp q now m :
  0 <= q <= 100 ->
  qualities_in_range m ->
  qualities_in_range (store_of (learnPattern text resp q now m)).
Proof.
  intros Hq.
  apply (learnPattern_store_inv
    (fun _ l => Forall (fun e => 0 <= quality e <= 100) l)
    (fun l => Forall (fun e => 0 <= quality e <= 100) l)).
  - intros k l _ Hl.
    assert (Forall (fun e => 0 <= quality e <= 100) l) as Hall.
    { destruct Hl as [->|?]; [constructor | done]. }
    apply cap_cluster_Forall, upsert_Forall; [done| |done].
    intros e He. simpl. lia.
  - intros _ l Hall.
    apply cap_pairs_Forall, upsert_Forall; [done| |done].
    intros e He. simpl. lia.
Qed.

(** X2. When every quality handed to learnPattern lies between 0 and 100,
    so does every quality in a store that started that way: reinforcement
    adds 2 but stops at 100. *)
Theorem qualities_stay_in_range calls m :
  Forall (fun c => 0 <= call_quality c <= 100) calls ->
  qualities_in_range m ->
  qualities_in_range (run calls m).
Proof.
  revert m. induction calls as [|c calls IH]; intros m Hcalls Hm; [done|].
  apply Forall_cons in Hcalls as [Hc Hcalls].
  simpl. apply IH; [done|]. by apply qualities_in_range_learnPattern.
Qed.

Lemma qualities_stay_in_range_witness :
  qualities_in_range (run crowded_calls emptyMemory).
Proof.
  apply (qualities_stay_in_range crowded_calls emptyMemory).
  - unfold crowded_calls. apply Forall_fmap, Forall_forall. intros x _. simpl. lia.
  - split; [|constructor]. intros k l Hl. simpl in Hl. by rewrite lookup_empty in Hl.
Defined.

(** ** Keywords *)

(** X3. The keywords of a text are pairwise distinct; each has three
    characters or more, is not a stop word and consists of lower-case
    letters and digits; and the case of the text does not matter. *)
Theorem keywords_are_clean text :
  NoDup (extractKeywords text) /\
  extractKeywords (Text.toLowerCase text) = extractKeywords text /\
  Forall (fun k => (3 <= String.length k)%nat /\ (k ∉ stopWords) /\
                   Text.all_chars plain_char k = true)
         (extractKeywords text).
Proof.
  split; [apply extractKeywords_NoDup|]. split; [apply extractKeywords_lower|].
  apply Forall_forall. intros k Hk.
  pose proof (keyword_plain _ _ Hk) as Hplain.
  unfold extractKeywords, Text.uniq in Hk.
  apply uniq_go_spec in Hk as [_ Hk].
  apply list_elem_of_filter in Hk as [Hk _].
  apply Is_true_true, andb_true_iff in Hk as [Hlen Hstop].
  apply Nat.ltb_lt in Hlen. apply negb_true_iff, mem_false in Hstop.
  split; [lia|]. by split.
Qed.

(** ** Quality *)

Lemma split_ws_go_nonempty cur gap s : (1 <= length (Text.split_ws_go cur gap s))%nat.
Proof.
  revert cur gap. induction s as [|c s IH]; intros cur gap; simpl; [lia|].
  destruct (Text.is_ws c); [|apply IH].
  destruct gap; [apply IH | simpl; lia].
Qed.

Lemma word_count_positive s : 1 <= word_count s.
Proof.
  unfold word_count, Text.split_ws.
  pose proof (split_ws_go_nonempty EmptyString false s). lia.
Qed.

Lemma calculateQuality_range text resp : 50 <= calculateQuality text resp <= 100.
Proof.
  unfold calculateQuality.
  repeat match goal with |- context [if ?b then _ else _] => destruct b end; lia.
Qed.

(** X4. The quality of a pair lies between 50 and 100, and it is 65 or
    more unless the input has more than 50 words and the response more than
    100: a split never gives an empty array, so a text always counts one
    word at least. *)
Theorem calculateQuality_bounds text resp :
  50 <= calculateQuality text resp <= 100 /\
  (calculateQuality text resp < 65 ->
   50 < word_count text /\ 100 < word_count resp).
Proof.
  split; [apply calculateQuality_range|].
  pose proof (word_count_positive text) as Ht.
  pose proof (word_count_positive resp) as Hr.
  unfold calculateQuality.
  destruct (1 <=? word_count text) eqn:H1; [|apply Z.leb_gt in H1; lia].
  destruct (1 <=? word_count resp) eqn:H2; [|apply Z.leb_gt in H2; lia].
  destruct (word_count text <=? 50) eqn:H3;
    destruct (word_count resp <=? 100) eqn:H4; cbn [andb];
    repeat match goal with |- context [if ?b then _ else _] => destruct b end;
    lia.
Qed.

(** ** The matcher: where an answer comes from *)








(** ** The response cache *)

Section CacheFacts.

Variable md5 : string -> string.

Lemma cache_set_size now message resp c :
  (JsMap.size c <= 1000)%nat ->
  (JsMap.size (cache_set md5 now message resp c) <= 1000)%nat.
Proof.
  intros Hc. unfold cache_set.
  pose proof (size_set_bound (_hash md5 message) (Cached resp now) c) as Hset.
  destruct (1000 <? JsMap.size (JsMap.set _ _ c))%nat eqn:Hbig;
    [|by apply Nat.ltb_ge in Hbig].
  destruct (JsMap.set (_hash md5 message) (Cached resp now) c)
    as [|[k0 v0] c1] eqn:Hc1; [simpl; lia|].
  cbn [JsMap.first_key]. unfold JsMap.delete, JsMap.size, JsMap.t in *.
  rewrite filter_cons_False.
  - pose proof (length_filter
      (fun kv : string * cached => negb (String.eqb (fst kv) k0)) c1) as Hf.
    simpl in Hset. lia.
  - simpl. rewrite String.eqb_refl. simpl. tauto.
Qed.

Lemma cache_get_size now message c :
  (JsMap.size (snd (cache_get md5 now message c)) <= JsMap.size c)%nat.
Proof.
  unfold cache_get. destruct (JsMap.get _ c) as [en|]; [|done].
  destruct (RESPONSE_CACHE_TTL_MS <? now - cached_timestamp en); [|done].
  apply size_delete.
Qed.

Lemma search_cache_size text now s :
  (JsMap.size (responseCache s) <= 1000)%nat ->
  (JsMap.size (responseCache (state_of (search md5 text now s))) <= 1000)%nat.
Proof.
  intros Hs. unfold search.
  destruct (find _ (contextPairs (globalMemory s))); [by apply cache_set_size|].
  destruct (collect _ _) as [|c cs]; [done|].
  destruct (score_all _ (c :: cs)) as [scored|]; [|done].
  destruct (sort by_relevance_desc scored) as [|top rest]; [done|].
  destruct (negb _); [by apply cache_set_size | done].
Qed.


End CacheFacts.

(** X6. The response cache never outgrows 1000 bindings: a call of
    findBestResponse that finds it within the bound leaves it within the
    bound, whether it hits, misses, stores an answer or throws. *)
Theorem cache_stays_bounded md5 text now s :
  (JsMap.size (responseCache s) <= 1000)%nat ->
  (JsMap.size (responseCache (state_of (findBestResponse md5 text now s)))
     <= 1000)%nat.
Proof.
  intros Hs. unfold findBestResponse.
  pose proof (cache_get_size md5 now text (responseCache s)) as Hget.
  destruct (cache_get md5 now text (responseCache s)) as [cachedResponse c1].
  simpl in Hget.
  destruct (match cachedResponse with Some r => truthy r | None => false end).
  - simpl. lia.
  - apply search_cache_size. simpl. lia.
Qed.

Lemma cache_stays_bounded_witness :
  let s := booted (learned_once "tell me about cats" "meow" 70) in
  (JsMap.size (responseCache
     (state_of (findBestResponse plain_key "tell me about cats" 1000 s)))
     <= 1000)%nat.
Proof.
  intros s.
  apply (cache_stays_bounded plain_key "tell me about cats" 1000 s).
  vm_compute. lia.
Defined.




(** ** Learning, then asking *)

Lemma learnPattern_pairs text resp q now m m' :
  learnPattern text resp q now m = Returned m' ->
  60 <= q ->
  contextPairs m' =
    cap_pairs (upsert (Text.toLowerCase text) resp q now (contextPairs m)).
Proof.
  unfold learnPattern. intros Hlearn Hq.
  pose proof (forEach_learn_keyword_pairs (Text.toLowerCase text) resp q now
                (extractKeywords text) m) as Hcp.
  destruct (forEach _ _ m) as [m1|m1]; [|discriminate].
  simpl in Hcp. injection Hlearn as <-.
  apply Z.leb_le in Hq. rewrite Hq. simpl. by rewrite Hcp.
Qed.

Lemma upsert_has_input inputLower resp q now l :
  exists x, x ∈ upsert inputLower resp q now l /\ input x = inputLower.
Proof.
  destruct (findIndex (has_input inputLower) l) as [i|] eqn:Hf.
  - destruct (findIndex_Some _ _ _ Hf) as (e & Hi & He & _).
    apply has_input_true in He.
    rewrite (upsert_found _ _ _ _ _ _ _ Hf Hi).
    assert (i < length l)%nat as Hlt by (by eapply lookup_lt_Some).
    repeat case_match.
    + exists (reinforce e now). split; [|done].
      apply list_elem_of_lookup. exists i. by apply list_lookup_insert_eq.
    + exists (fresh inputLower resp q now). split; [|done].
      apply list_elem_of_lookup. exists i. by apply list_lookup_insert_eq.
    + exists e. split; [|done]. apply list_elem_of_lookup. by exists i.
  - unfold upsert. rewrite Hf. exists (fresh inputLower resp q now).
    split; [|done]. apply elem_of_app. right. apply elem_of_cons. by left.
Qed.

(** X8. A pair learned at quality 60 or more is found again: when
    learnPattern returns, ContextPairs had room, and no entry of
    ContextPairs gave the input another answer, findBestResponse answers
    every text that equals the input up to case with the learned response,
    unless the cache holds a binding for it. *)
Theorem learned_pair_is_found md5 text resp q now m m' text' now' c mt ss :
  learnPattern text resp q now m = Returned m' ->
  60 <= q ->
  (length (contextPairs m) < pairs_cap)%nat ->
  (forall e, e ∈ contextPairs m -> input e = Text.toLowerCase text ->
             response e = resp) ->
  Text.toLowerCase text' = Text.toLowerCase text ->
  JsMap.get (_hash md5 text') c = None ->
  value_of (findBestResponse md5 text' now' (Server m' c mt ss))
    = Some (Some resp).
Proof.
  intros Hlearn Hq Hroom Hsame Hlower Hmiss.
  pose proof (learnPattern_pairs _ _ _ _ _ _ Hlearn Hq) as Hcp.
  pose proof (upsert_length (Text.toLowerCase text) resp q now (contextPairs m))
    as Hlen.
  rewrite cap_pairs_fits in Hcp by lia.
  unfold findBestResponse, cache_get. cbn [responseCache]. rewrite Hmiss.
  unfold search. cbn [globalMemory set_metrics set_responseCache].
  rewrite Hlower, Hcp.
  destruct (upsert_has_input (Text.toLowerCase text) resp q now (contextPairs m))
    as (x & Hx & Hxin).
  destruct (find _ (upsert _ _ _ _ _)) as [exactMatch|] eqn:Hfind.
  - simpl. do 2 f_equal.
    apply find_some in Hfind as [Hin Heq].
    apply list_elem_of_In in Hin. apply has_input_true in Heq.
    assert (Forall (fun e => input e = Text.toLowerCase text -> response e = resp)
                   (upsert (Text.toLowerCase text) resp q now (contextPairs m)))
      as Hall.
    { apply upsert_Forall; [done|by intros e He|].
      apply Forall_forall. intros e He. by apply Hsame. }
    rewrite Forall_forall in Hall. by apply Hall.
  - exfalso.
    pose proof (find_none _ _ Hfind x ltac:(by apply list_elem_of_In)) as Hno.
    apply has_input_true in Hxin. congruence.
Qed.

Lemma learned_pair_is_found_witness :
  value_of (findBestResponse plain_key "Tell Me About CATS" 1000
              (booted (learned_once "tell me about cats" "meow" 70)))
    = Some (Some "meow").
Proof.
  apply (learned_pair_is_found plain_key "tell me about cats" "meow" 70 0
           emptyMemory (learned_once "tell me about cats" "meow" 70)
           "Tell Me About CATS" 1000 [] fresh_metrics []).
  - vm_compute. reflexivity.
  - lia.
  - vm_compute. lia.
  - intros e He. by apply elem_of_nil in He.
  - vm_compute. reflexivity.
  - reflexivity.
Defined.

(** ** The rate limiter *)

Lemma check_other identifier other now limits :
  other <> identifier ->
  JsMap.get identifier (snd (check other now limits)) = JsMap.get identifier limits.
Proof.
  intros Hne. unfold check.
  destruct (JsMap.get other limits) as [lim|].
  - destruct (resetTime lim <? now); [by apply get_set_ne|].
    destruct (RATE_LIMIT_MAX_REQUESTS <=? limit_count lim); [done|].
    by apply get_set_ne.
  - by apply get_set_ne.
Qed.

Lemma granted_cons_other identifier other now rest limits :
  other <> identifier ->
  granted identifier ((other, now) :: rest) limits =
    granted identifier rest (snd (check other now limits)).
Proof.
  intros Hne. unfold granted. cbn [serve].
  destruct (check other now limits) as [v limits']. cbn [snd].
  rewrite filter_cons_False; [done|].
  cbn [fst snd]. apply String.eqb_neq in Hne. is_true_side Hne.
Qed.

Lemma granted_cons_same identifier now rest limits :
  granted identifier ((identifier, now) :: rest) limits =
    ((if allowed (fst (check identifier now limits)) then 1 else 0) +
     granted identifier rest (snd (check identifier now limits)))%nat.
Proof.
  unfold granted. cbn [serve].
  destruct (check identifier now limits) as [v limits']. cbn [fst snd].
  destruct (allowed v) eqn:Hv.
  - rewrite filter_cons_True; [done|].
    cbn [fst snd]. rewrite String.eqb_refl, Hv. done.
  - rewrite filter_cons_False; [done|].
    cbn [fst snd]. rewrite String.eqb_refl. is_true_side Hv.
Qed.

Lemma requests_of_cons_other identifier other now rest :
  other <> identifier ->
  requests_of identifier ((other, now) :: rest) = requests_of identifier rest.
Proof.
  intros Hne. unfold requests_of. rewrite filter_cons_False; [done|].
  cbn [fst]. apply String.eqb_neq in Hne. is_true_side Hne.
Qed.

Lemma requests_of_cons_same identifier now rest :
  requests_of identifier ((identifier, now) :: rest)
    = S (requests_of identifier rest).
Proof.
  unfold requests_of. rewrite filter_cons_True; [done|].
  cbn [fst]. by rewrite String.eqb_refl.
Qed.

(** Inside a window: a client that has used [c] of its requests gets the
    remaining ones and no more. *)
Lemma granted_in_window identifier rest :
  forall limits c r,
  JsMap.get identifier limits = Some (Limit c r) ->
  1 <= c <= RATE_LIMIT_MAX_REQUESTS ->
  Forall (fun rq => fst rq = identifier -> snd rq <= r) rest ->
  granted identifier rest limits =
    Nat.min (Z.to_nat (RATE_LIMIT_MAX_REQUESTS - c)) (requests_of identifier rest).
Proof.
  unfold RATE_LIMIT_MAX_REQUESTS.
  induction rest as [|[i now] rest IH]; intros limits c r Hget Hc Hall.
  - unfold granted, requests_of. simpl. lia.
  - apply Forall_cons in Hall as [Hnow Hall]. cbn [fst snd] in Hnow.
    destruct (decide (i = identifier)) as [->|Hne].
    + specialize (Hnow eq_refl).
      rewrite granted_cons_same, requests_of_cons_same.
      unfold check. rewrite Hget. cbn [resetTime limit_count].
      destruct (r <? now) eqn:Hr; [apply Z.ltb_lt in Hr; lia|].
      unfold RATE_LIMIT_MAX_REQUESTS.
      destruct (60 <=? c) eqn:Hfull; cbn [fst snd allowed].
      * apply Z.leb_le in Hfull.
        rewrite (IH limits c r Hget Hc Hall).
        assert (c = 60) as -> by lia. simpl. lia.
      * apply Z.leb_gt in Hfull.
        rewrite (IH _ (c + 1) r (get_set_eq _ _ _) ltac:(lia) Hall). lia.
    + rewrite granted_cons_other, requests_of_cons_other by done.
      apply (IH _ c r); [|done|done].
      by rewrite check_other.
Qed.

(** X9. A client whose window starts with a request at time [t0] (it had
    no window, or its window was over) is allowed that request and, of the
    requests it sends until the window ends, the first 59: 60 per window
    and no more, whatever the other clients send in between. *)
Theorem sixty_per_window identifier t0 rest limits :
  (forall lim, JsMap.get identifier limits = Some lim -> resetTime lim < t0) ->
  Forall (fun rq => fst rq = identifier -> snd rq <= t0 + RATE_LIMIT_WINDOW_MS)
         rest ->
  granted identifier ((identifier, t0) :: rest) limits =
    Nat.min 60 (S (requests_of identifier rest)).
Proof.
  intros Hold Hall. rewrite granted_cons_same.
  assert (check identifier t0 limits =
            (Verdict true (RATE_LIMIT_MAX_REQUESTS - 1) None,
             JsMap.set identifier (Limit 1 (t0 + RATE_LIMIT_WINDOW_MS)) limits))
    as ->.
  { unfold check. destruct (JsMap.get identifier limits) as [lim|] eqn:Hget; [|done].
    specialize (Hold lim eq_refl). apply Z.ltb_lt in Hold. by rewrite Hold. }
  cbn [fst snd allowed].
  rewrite (granted_in_window identifier rest _ 1 (t0 + RATE_LIMIT_WINDOW_MS)
             (get_set_eq _ _ _)); [|unfold RATE_LIMIT_MAX_REQUESTS; lia|done].
  unfold RATE_LIMIT_MAX_REQUESTS. simpl Z.to_nat. lia.
Qed.

Lemma sixty_per_window_witness :
  granted "10.0.0.1"
    (("10.0.0.1", 1000) :: repeat ("10.0.0.1", 2000) 70 ++ [("10.0.0.2", 2000)])
    [] = Nat.min 60 (S (requests_of "10.0.0.1"
                          (repeat ("10.0.0.1", 2000) 70 ++ [("10.0.0.2", 2000)]))).
Proof.
  apply (sixty_per_window "10.0.0.1" 1000
           (repeat ("10.0.0.1", 2000) 70 ++ [("10.0.0.2", 2000)]) []).
  - intros lim Hlim. discriminate Hlim.
  - apply Forall_forall. intros rq Hrq _.
    apply elem_of_app in Hrq as [Hrq|Hrq].
    + apply list_elem_of_In, repeat_spec in Hrq. subst rq.
      vm_compute. discriminate.
    + apply list_elem_of_singleton in Hrq. subst rq. vm_compute. discriminate.
Defined.

Lemma same_windows_cleanup now limits :
  NoDup (fst <$> limits) -> same_windows now (limits_cleanup now limits) limits.
Proof.
  intros Hnd identifier. unfold limits_cleanup.
  rewrite (get_filter (fun kv => negb (resetTime (snd kv) <? now)) _ _ Hnd).
  destruct (JsMap.get identifier limits) as [lim|]; [|by left].
  cbn [snd]. destruct (resetTime lim <? now) eqn:Hr; simpl; [|by left].
  right. split; [done|]. exists lim. split; [done|]. by apply Z.ltb_lt.
Qed.

Lemma same_windows_set now identifier lim cleaned limits :
  same_windows now cleaned limits ->
  same_windows now (JsMap.set identifier lim cleaned)
                   (JsMap.set identifier lim limits).
Proof.
  intros Hsame other. destruct (decide (identifier = other)) as [<-|Hne].
  - left. by rewrite !get_set_eq.
  - rewrite !get_set_ne by done. apply Hsame.
Qed.

Lemma same_windows_check now identifier t cleaned limits :
  same_windows now cleaned limits -> now <= t ->
  fst (check identifier t cleaned) = fst (check identifier t limits) /\
  same_windows now (snd (check identifier t cleaned))
                   (snd (check identifier t limits)).
Proof.
  intros Hsame Ht. unfold check.
  destruct (Hsame identifier) as [Heq|(Hnone & lim & Hlim & Hover)].
  - rewrite Heq. destruct (JsMap.get identifier limits) as [lim|].
    + destruct (resetTime lim <? t);
        [split; [done | by apply same_windows_set]|].
      destruct (RATE_LIMIT_MAX_REQUESTS <=? limit_count lim);
        [done | split; [done | by apply same_windows_set]].
    + split; [done | by apply same_windows_set].
  - rewrite Hnone, Hlim.
    assert ((resetTime lim <? t) = true) as -> by (apply Z.ltb_lt; lia).
    split; [done | by apply same_windows_set].
Qed.

Lemma same_windows_serve now requests :
  forall cleaned limits,
  same_windows now cleaned limits ->
  Forall (fun rq => now <= snd rq) requests ->
  serve requests cleaned = serve requests limits.
Proof.
  induction requests as [|[i t] requests IH]; intros cleaned limits Hsame Hall;
    [done|].
  apply Forall_cons in Hall as [Ht Hall]. cbn [snd] in Ht.
  destruct (same_windows_check now i t cleaned limits Hsame Ht) as [Hv Hnext].
  cbn [serve].
  destruct (check i t cleaned) as [v1 l1], (check i t limits) as [v2 l2].
  cbn [fst snd] in *. subst v2. f_equal. by apply IH.
Qed.

(** X10. RateLimiter.cleanup is invisible to the clients: every request
    that arrives after a cleanup gets the verdict it would have got without
    the cleanup. *)
Theorem cleanup_changes_no_verdict now requests limits :
  NoDup (fst <$> limits) ->
  Forall (fun rq => now <= snd rq) requests ->
  serve requests (limits_cleanup now limits) = serve requests limits.
Proof.
  intros Hnd Hall.
  apply (same_windows_serve now); [|done]. by apply same_windows_cleanup.
Qed.

Lemma cleanup_changes_no_verdict_witness :
  let limits := [("10.0.0.1", Limit 60 500); ("10.0.0.2", Limit 60 5000)] in
  let requests := [("10.0.0.1", 1000); ("10.0.0.2", 1000); ("10.0.0.2", 6000)] in
  serve requests (limits_cleanup 1000 limits) = serve requests limits.
Proof.
  intros limits requests.
  apply (cleanup_changes_no_verdict 1000 requests limits).
  - apply (bool_decide_unpack _). vm_compute. exact I.
  - repeat constructor; vm_compute; discriminate.
Defined.

(** ** Sorting by a key *)

Section SortByKey.

Context {A : Type} (cmp : A -> A -> Z) (key : A -> Z).
Hypothesis cmp_key : forall x y, positive (cmp x y) = (key y <? key x).

Local Abbreviation ascending := (StronglySorted (fun a b => key a <= key b)).

Lemma insert_by_ascending x l : ascending l -> ascending (insert_by cmp x l).
Proof.
  induction 1 as [|y l Hl IH Hy]; simpl.
  - repeat constructor.
  - rewrite cmp_key. destruct (key y <? key x) eqn:Hc.
    + apply Z.ltb_lt in Hc. constructor; [done|].
      rewrite insert_by_perm. constructor; [lia | done].
    + apply Z.ltb_ge in Hc. constructor; [by constructor|].
      constructor; [lia|]. eapply Forall_impl; [exact Hy|].
      simpl. intros z Hz. lia.
Qed.

Lemma sort_ascending l : ascending (sort cmp l).
Proof.
  induction l as [|x l IH]; [constructor|].
  unfold sort in *. simpl. by apply insert_by_ascending.
Qed.

Lemma ascending_take_drop n l a b :
  ascending l -> a ∈ take n l -> b ∈ drop n l -> key a <= key b.
Proof.
  intros Hl. revert n.
  induction Hl as [|y l Hl IH Hy]; intros n Ha Hb.
  - rewrite drop_nil in Hb. by apply elem_of_nil in Hb.
  - destruct n as [|n]; simpl in *.
    + by apply elem_of_nil in Ha.
    + apply elem_of_cons in Ha as [->|Ha].
      * rewrite Forall_forall in Hy. apply Hy.
        by apply (subseteq_drop n l).
      * by apply (IH n).
Qed.

End SortByKey.

(** ** Deleting several keys *)

Section DeleteMany.

Context {V : Type}.
Implicit Types (m : JsMap.t V) (ks : list string).

Lemma get_delete_all ks : forall m k,
  JsMap.get k (delete_all ks m) = if decide (k ∈ ks) then None else JsMap.get k m.
Proof.
  induction ks as [|k0 ks IH]; intros m k; [done|].
  unfold delete_all in *. simpl. rewrite IH.
  destruct (decide (k ∈ ks)) as [Hin|Hin].
  - rewrite decide_True; [done|]. apply elem_of_cons. by right.
  - destruct (decide (k = k0)) as [->|Hne].
    + rewrite decide_True; [|apply elem_of_cons; by left]. apply get_delete_eq.
    + rewrite decide_False.
      * by apply get_delete_ne.
      * intros Hk. apply elem_of_cons in Hk as [?|?]; done.
Qed.

Lemma keys_delete k m :
  fst <$> JsMap.delete k m = filter (fun k' => k' <> k) (fst <$> m).
Proof.
  unfold JsMap.delete, JsMap.t in *. induction m as [|[k0 v0] m IH]; [done|].
  rewrite fmap_cons, !filter_cons. cbn [fst].
  destruct (String.eqb k0 k) eqn:Hk; simpl.
  - apply String.eqb_eq in Hk as ->. by rewrite decide_False by tauto.
  - apply String.eqb_neq in Hk. rewrite decide_True by done.
    f_equal. apply IH.
Qed.

Lemma size_delete_present k m :
  NoDup (fst <$> m) -> k ∈ (fst <$> m) ->
  S (JsMap.size (JsMap.delete k m)) = JsMap.size m.
Proof.
  unfold JsMap.size. intros Hnd Hin.
  rewrite <- (length_fmap fst (JsMap.delete k m)), <- (length_fmap fst m).
  rewrite keys_delete.
  induction (fst <$> m) as [|k0 ks IH]; [by apply elem_of_nil in Hin|].
  apply NoDup_cons in Hnd as [Hk0 Hnd]. rewrite filter_cons.
  destruct (decide (k0 = k)) as [->|Hne].
  - rewrite decide_False by tauto. simpl. f_equal.
    clear IH Hin. induction ks as [|k1 ks IH]; [done|].
    apply NoDup_cons in Hnd as [_ Hnd].
    rewrite filter_cons, decide_True.
    + simpl. f_equal. apply IH; [|done].
      intros Hin. apply Hk0, elem_of_cons. by right.
    + intros ->. apply Hk0, elem_of_cons. by left.
  - rewrite decide_True by done. simpl. f_equal. apply IH; [done|].
    apply elem_of_cons in Hin as [->|Hin]; done.
Qed.

Lemma size_delete_all ks : forall m,
  NoDup (fst <$> m) -> NoDup ks -> (forall k, k ∈ ks -> k ∈ (fst <$> m)) ->
  (JsMap.size (delete_all ks m) + length ks = JsMap.size m)%nat.
Proof.
  induction ks as [|k ks IH]; intros m Hm Hks Hin; [simpl; lia|].
  apply NoDup_cons in Hks as [Hk Hks].
  unfold delete_all in *. simpl.
  pose proof (size_delete_present k m Hm (Hin k ltac:(apply elem_of_cons; by left)))
    as Hone.
  rewrite <- Hone, <- (IH (JsMap.delete k m)); [lia| |done|].
  - by apply NoDup_keys_delete.
  - intros k' Hk'. rewrite keys_delete. apply list_elem_of_filter. split.
    + by intros ->.
    + apply Hin, elem_of_cons. by right.
Qed.

End DeleteMany.

(** ** Conversation histories *)

Lemma history_of_add_same id u a now sm :
  history_of id (addToHistory id u a now sm)
    = push_capped (Exchange u a now) (history_of id sm).
Proof.
  unfold history_of, addToHistory, getConversationHistory.
  destruct (JsMap.get id (conversationBuffer sm)) as [h|] eqn:Hget;
    cbn [conversationBuffer]; by rewrite get_set_eq.
Qed.

Lemma history_of_add_other id other u a now sm :
  other <> id ->
  history_of id (addToHistory other u a now sm) = history_of id sm.
Proof.
  intros Hne. unfold history_of, addToHistory, getConversationHistory.
  destruct (JsMap.get other (conversationBuffer sm)) as [h|] eqn:Hget;
    cbn [conversationBuffer]; by rewrite !get_set_ne.
Qed.

Lemma last_n_fits {A : Type} n (l : list A) : (length l <= n)%nat -> last_n n l = l.
Proof.
  intros Hl. unfold last_n. by replace (length l - n)%nat with 0%nat by lia.
Qed.

Lemma push_capped_last_n x l :
  push_capped x (last_n MAX_CONVERSATION_HISTORY l)
    = last_n MAX_CONVERSATION_HISTORY (l ++ [x]).
Proof.
  unfold push_capped, last_n, MAX_CONVERSATION_HISTORY.
  rewrite !length_app, length_drop. simpl length.
  destruct (10 <? length l - (length l - 10) + 1)%nat eqn:Hc.
  - apply Nat.ltb_lt in Hc.
    rewrite drop_app_le by (rewrite length_drop; lia).
    rewrite drop_drop, drop_app_le by lia.
    do 2 f_equal. lia.
  - apply Nat.ltb_ge in Hc.
    replace (length l - 10)%nat with 0%nat by lia.
    by replace (length l + 1 - 10)%nat with 0%nat by lia.
Qed.

Lemma record_all_snoc adds a sm :
  record_all (adds ++ [a]) sm =
    addToHistory (fst a) (user (snd a)) (ai (snd a)) (exchange_timestamp (snd a))
                 (record_all adds sm).
Proof. unfold record_all. by rewrite fold_left_app. Qed.

Lemma of_session_snoc id adds a :
  of_session id (adds ++ [a]) =
    of_session id adds ++ (if String.eqb (fst a) id then [snd a] else []).
Proof.
  unfold of_session. rewrite filter_app, fmap_app. f_equal.
  destruct (String.eqb (fst a) id) eqn:Ha.
  - rewrite filter_cons_True; [done | is_true_side Ha].
  - rewrite filter_cons_False; [done | is_true_side Ha].
Qed.

(** X11. The history of a session is the last ten exchanges recorded for
    it, oldest first: whatever is recorded, for this session and for
    others, a history that held at most ten exchanges holds the last ten
    of what it held followed by what was recorded for the session. *)
Theorem history_is_the_last_ten adds id sm :
  (length (history_of id sm) <= MAX_CONVERSATION_HISTORY)%nat ->
  history_of id (record_all adds sm) =
    last_n MAX_CONVERSATION_HISTORY (history_of id sm ++ of_session id adds).
Proof.
  intros Hlen. induction adds as [|[other x] adds IH] using rev_ind.
  - unfold of_session. simpl. rewrite app_nil_r. by rewrite last_n_fits.
  - rewrite record_all_snoc, of_session_snoc. cbn [fst snd].
    destruct (String.eqb other id) eqn:Hid.
    + apply String.eqb_eq in Hid as ->.
      rewrite history_of_add_same, IH, app_assoc.
      destruct x as [u a t]. apply push_capped_last_n.
    + apply String.eqb_neq in Hid.
      rewrite history_of_add_other by done. by rewrite IH, app_nil_r.
Qed.

Lemma history_is_the_last_ten_witness :
  let said n := ("s1", Exchange n "ok" 0) in
  let adds := [ said "1"; said "2"; said "3"; said "4"; said "5"; said "6";
                ("s2", Exchange "x" "ok" 0);
                said "7"; said "8"; said "9"; said "10"; said "11"; said "12" ] in
  history_of "s1" (record_all adds (SessionManager [] [])) =
    last_n MAX_CONVERSATION_HISTORY
      (history_of "s1" (SessionManager [] []) ++ of_session "s1" adds).
Proof.
  intros said adds.
  apply (history_is_the_last_ten adds "s1" (SessionManager [] [])).
  vm_compute. lia.
Defined.

(** ** Session cleanup *)

Lemma fold_delete_session ks : forall sm,
  fold_left delete_session ks sm =
    SessionManager (delete_all ks (activity sm))
                   (delete_all ks (conversationBuffer sm)).
Proof.
  induction ks as [|k ks IH]; intros sm; [by destruct sm|].
  simpl. by rewrite IH.
Qed.

Lemma NoDup_keys_delete_all {V : Type} ks : forall (m : JsMap.t V),
  NoDup (fst <$> m) -> NoDup (fst <$> delete_all ks m).
Proof.
  induction ks as [|k ks IH]; intros m Hm; [done|].
  unfold delete_all in *. simpl. by apply IH, NoDup_keys_delete.
Qed.

Lemma by_activity_asc_key x y :
  positive (by_activity_asc x y) = (snd y <? snd x).
Proof.
  unfold positive, Signed_Z, by_activity_asc.
  destruct (snd y <? snd x) eqn:Hc.
  - apply Z.ltb_lt in Hc. apply Z.ltb_lt. lia.
  - apply Z.ltb_ge in Hc. apply Z.ltb_ge. lia.
Qed.

Lemma elem_keys {V : Type} k (v : V) (m : JsMap.t V) : (k, v) ∈ m -> k ∈ (fst <$> m).
Proof. intros Hin. apply list_elem_of_fmap. by exists (k, v). Qed.

(** X12. SessionManager.cleanup leaves at most 1000 sessions. A session
    that stays keeps its activity and its history and was active within
    the timeout; a session that goes loses its history with it, and it
    either was inactive for longer than the timeout or was active no later
    than any session that stays. *)
Theorem cleanup_keeps_the_most_recent now sm :
  NoDup (fst <$> activity sm) ->
  let sm' := sessions_cleanup now sm in
  (getActiveCount sm' <= MAX_SESSIONS)%nat /\
  (forall id t, JsMap.get id (activity sm') = Some t ->
     JsMap.get id (activity sm) = Some t /\
     now - SESSION_TIMEOUT_MS <= t /\
     JsMap.get id (conversationBuffer sm') = JsMap.get id (conversationBuffer sm)) /\
  (forall id t,
     JsMap.get id (activity sm) = Some t -> JsMap.get id (activity sm') = None ->
     JsMap.get id (conversationBuffer sm') = None /\
     (t < now - SESSION_TIMEOUT_MS \/
      forall id' t', JsMap.get id' (activity sm') = Some t' -> t <= t')).
Proof.
  intros Hnd sm'. subst sm'. unfold sessions_cleanup, getActiveCount.
  set (cutoff := now - SESSION_TIMEOUT_MS).
  set (expired := filter (fun kv : string * Z => snd kv <? cutoff) (activity sm)).
  rewrite (fold_delete_session (map fst expired) sm).
  set (act1 := delete_all (map fst expired) (activity sm)).
  set (buf1 := delete_all (map fst expired) (conversationBuffer sm)).
  cbn [activity conversationBuffer].
  assert (NoDup (fst <$> act1)) as Hnd1 by (by apply NoDup_keys_delete_all).
  assert (forall id t, JsMap.get id (activity sm) = Some t ->
            (id ∈ map fst expired <-> t < cutoff)) as Hexp.
  { intros id t Hget. split.
    - intros Hin. apply list_elem_of_fmap in Hin as ([id0 t0] & -> & Hin).
      apply list_elem_of_filter in Hin as [Hlt Hin]. cbn [fst snd] in *.
      apply (elem_get_unique _ _ _ Hnd) in Hin.
      assert (t0 = t) as -> by congruence.
      by apply Z.ltb_lt, Is_true_true.
    - intros Hlt. apply list_elem_of_fmap. exists (id, t). split; [done|].
      apply list_elem_of_filter. split; [|by apply get_Some_elem].
      cbn [snd]. by apply Is_true_true, Z.ltb_lt. }
  assert (forall id t, JsMap.get id act1 = Some t ->
            JsMap.get id (activity sm) = Some t /\ cutoff <= t /\
            JsMap.get id buf1 = JsMap.get id (conversationBuffer sm)) as Hkept1.
  { intros id t Hget. unfold act1, buf1 in *.
    rewrite get_delete_all in Hget. rewrite get_delete_all.
    destruct (decide (id ∈ map fst expired)) as [|Hout]; [discriminate|].
    split; [done|]. split; [|done].
    destruct (Z_lt_ge_dec t cutoff) as [Hlt|]; [|lia].
    destruct Hout. by apply (Hexp id t). }
  assert (forall id t, JsMap.get id (activity sm) = Some t ->
            JsMap.get id act1 = None ->
            JsMap.get id buf1 = None /\ t < cutoff) as Hgone1.
  { intros id t Hget Hnone. unfold act1, buf1 in *.
    rewrite get_delete_all in Hnone. rewrite get_delete_all.
    destruct (decide (id ∈ map fst expired)) as [Hin|]; [|congruence].
    split; [done|]. by apply (Hexp id t). }
  destruct (MAX_SESSIONS <? JsMap.size act1)%nat eqn:Hbig.
  - apply Nat.ltb_lt in Hbig.
    set (entries := sort by_activity_asc act1).
    set (j := (length entries - MAX_SESSIONS)%nat).
    rewrite (fold_delete_session (map fst (take j entries))).
    cbn [activity conversationBuffer].
    assert (entries ≡ₚ act1) as Hperm by apply sort_perm.
    assert (length entries = JsMap.size act1) as Hlen
      by (unfold JsMap.size; by rewrite Hperm).
    assert (NoDup (fst <$> entries)) as Hnde by (by rewrite Hperm).
    assert (forall id t, (id, t) ∈ entries <-> JsMap.get id act1 = Some t) as Hin1.
    { intros id t. rewrite Hperm. split.
      - by apply elem_get_unique.
      - apply get_Some_elem. }
    assert (forall id, id ∈ map fst (take j entries) ->
              exists t, (id, t) ∈ take j entries) as Htaken.
    { intros id Hid. apply list_elem_of_fmap in Hid as ([id0 t0] & -> & Hid).
      by exists t0. }
    split; [|split].
    + assert (JsMap.size (delete_all (map fst (take j entries)) act1)
                + length (map fst (take j entries)) = JsMap.size act1)%nat as Hsize.
      { apply size_delete_all; [done| |].
        - apply (sublist_NoDup _ (fst <$> entries)); [done|].
          apply fmap_sublist, sublist_take.
        - intros k Hk. destruct (Htaken k Hk) as (t & Ht).
          apply (elem_keys k t). rewrite <- Hperm.
          by apply (subseteq_take j entries). }
      rewrite length_map, length_take in Hsize. subst j. lia.
    + intros id t Hget. rewrite get_delete_all in Hget. rewrite get_delete_all.
      destruct (decide (id ∈ map fst (take j entries))); [discriminate|].
      by apply Hkept1.
    + intros id t Hget Hnone. rewrite get_delete_all in Hnone.
      rewrite get_delete_all.
      destruct (decide (id ∈ map fst (take j entries))) as [Hid|Hid].
      * split; [done|].
        destruct (JsMap.get id act1) as [t1|] eqn:Hact1;
          [|left; by apply (Hgone1 id t Hget)].
        destruct (Hkept1 id t1 Hact1) as (Hsame & _ & _).
        assert (t1 = t) as -> by congruence.
        right. intros id' t' Hget'. rewrite get_delete_all in Hget'.
        destruct (decide (id' ∈ map fst (take j entries))) as [|Hout];
          [discriminate|].
        destruct (Htaken id Hid) as (t0 & Ht0).
        assert (t0 = t) as ->.
        { apply (subseteq_take j entries), Hin1 in Ht0. congruence. }
        apply Hin1 in Hget'. rewrite <- (take_drop j entries) in Hget'.
        apply elem_of_app in Hget' as [Hget'|Hget'].
        -- destruct Hout. apply list_elem_of_fmap. by exists (id', t').
        -- apply (ascending_take_drop snd j entries (id, t) (id', t'));
             [|done|done].
           apply (sort_ascending by_activity_asc snd by_activity_asc_key).
      * destruct (Hgone1 id t Hget Hnone) as [Hb Ht]. split; [done | by left].
  - apply Nat.ltb_ge in Hbig. split; [done|]. split.
    + intros id t Hget. by apply Hkept1.
    + intros id t Hget Hnone. destruct (Hgone1 id t Hget Hnone) as [Hb Ht].
      split; [done | by left].
Qed.

Lemma cleanup_keeps_the_most_recent_witness :
  let sm := SessionManager [("stale", 0); ("fresh", 400000)]
                           [("stale", []); ("fresh", [])] in
  let sm' := sessions_cleanup 500000 sm in
  (getActiveCount sm' <= MAX_SESSIONS)%nat /\
  (forall id t, JsMap.get id (activity sm') = Some t ->
     JsMap.get id (activity sm) = Some t /\
     500000 - SESSION_TIMEOUT_MS <= t /\
     JsMap.get id (conversationBuffer sm') = JsMap.get id (conversationBuffer sm)) /\
  (forall id t,
     JsMap.get id (activity sm) = Some t -> JsMap.get id (activity sm') = None ->
     JsMap.get id (conversationBuffer sm') = None /\
     (t < 500000 - SESSION_TIMEOUT_MS \/
      forall id' t', JsMap.get id' (activity sm') = Some t' -> t <= t')).
Proof.
  intros sm.
  apply (cleanup_keeps_the_most_recent 500000 sm).
  apply (bool_decide_unpack _). vm_compute. exact I.
Defined.

(** ** The chat endpoint *)

Section ChatFacts.

Variable content_rules : string -> bool.
Variable md5 : string -> string.
Variable FORCE_SYNC_ON_LEARN : bool.

Lemma search_metrics text now s :
  metrics (state_of (search md5 text now s)) = metrics s.
Proof.
  unfold search.
  destruct (find _ (contextPairs (globalMemory s))); [done|].
  destruct (collect _ _) as [|c cs]; [done|].
  destruct (score_all _ (c :: cs)) as [scored|]; [|done].
  destruct (sort by_relevance_desc scored) as [|top rest]; [done|].
  by destruct (negb _).
Qed.

Lemma findBestResponse_counts text now s :
  requestCount (metrics (state_of (findBestResponse md5 text now s)))
    = requestCount (metrics s) /\
  errorCount (metrics (state_of (findBestResponse md5 text now s)))
    = errorCount (metrics s).
Proof.
  unfold findBestResponse.
  destruct (cache_get md5 now text (responseCache s)) as [cachedResponse c1].
  destruct (match cachedResponse with Some r => truthy r | None => false end).
  - done.
  - by rewrite search_metrics.
Qed.

(** The counters of a server state are those of the process [p]. *)
Local Abbreviation same_counts s p :=
  (requestCount (metrics s) = requestCount (metrics (core p)) /\
   errorCount (metrics s) = errorCount (metrics (core p)) /\
   garbageFiltered (stats (globalMemory s))
     = garbageFiltered (stats (globalMemory (core p))) /\
   totalMessages (stats (globalMemory s))
     = totalMessages (stats (globalMemory (core p)))).

Lemma conclude_counted p response isLearned duration s b saves :
  same_counts s p ->
  counted_once p (fst (fst (conclude response isLearned duration s b saves)))
                 (snd (fst (conclude response isLearned duration s b saves))).
Proof.
  intros (Hrc & Hec & Hg & Ht). unfold counted_once, conclude. simpl.
  rewrite Hrc, Hec, Hg, Ht. split; [done|]. split; [done|]. by right.
Qed.

Lemma caught_counted p duration s b :
  same_counts s p ->
  counted_once p (fst (fst (caught duration s b))) (snd (fst (caught duration s b))).
Proof.
  intros (Hrc & Hec & Hg & Ht). unfold counted_once, caught. simpl.
  by rewrite Hrc, Hec, Hg, Ht.
Qed.

Lemma learn_from_history_counted p cleanedMessage response isLearned now duration
    history s b :
  same_counts s p ->
  counted_once p
    (fst (fst (learn_from_history content_rules FORCE_SYNC_ON_LEARN cleanedMessage
                 response isLearned now duration history s b)))
    (snd (fst (learn_from_history content_rules FORCE_SYNC_ON_LEARN cleanedMessage
                 response isLearned now duration history s b))).
Proof.
  intros Hs. unfold learn_from_history.
  destruct (2 <=? length history)%nat; [|by apply conclude_counted].
  destruct (history !! _) as [prevPair|]; [|by apply conclude_counted].
  destruct (negb _ && negb _); [|by apply conclude_counted].
  destruct (MIN_QUALITY_SCORE <=? _); [|by apply conclude_counted].
  pose proof (learnPattern_stats (user prevPair) cleanedMessage
                (calculateQuality (user prevPair) cleanedMessage) now
                (globalMemory s)) as Hst.
  destruct Hs as (Hrc & Hec & Hg & Ht).
  destruct (learnPattern _ _ _ _ _) as [m|m]; simpl in Hst.
  - apply conclude_counted. simpl. by rewrite Hst.
  - apply caught_counted. simpl. by rewrite Hst.
Qed.

(** X13. Every chat request is counted once. Whatever the request and the
    state, the handler adds one to requestCount and one to exactly one of
    three counters: errorCount when it answers with status 400 or 500,
    garbageFiltered or totalMessages when it answers with status 200. *)
Theorem every_request_is_counted_once random message sessionId now duration p :
  counted_once p
    (fst (fst (chat content_rules md5 FORCE_SYNC_ON_LEARN random message
                    sessionId now duration p)))
    (snd (fst (chat content_rules md5 FORCE_SYNC_ON_LEARN random message
                    sessionId now duration p))).
Proof.
  unfold chat, chat_intake.
  destruct (validateMessage message) as [error|trimmed];
    [by unfold counted_once|].
  destruct (session_of sessionId) as [error|id]; [by unfold counted_once|].
  destruct (rejected content_rules (clean trimmed)).
  { unfold counted_once. simpl. split; [done|]. split; [done|]. by left. }
  set (p1 := with_manager _ _).
  assert (same_counts (core p1) p) as (Hrc1 & Hec1 & Hg1 & Ht1) by done.
  pose proof (findBestResponse_counts (clean trimmed) now (core p1)) as [Hrc Hec].
  pose proof (findBestResponse_memory md5 (clean trimmed) now (core p1)) as [Hmem _].
  destruct (findBestResponse md5 (clean trimmed) now (core p1)) as [found s2|s2];
    cbn [state_of] in Hrc, Hec, Hmem.
  - apply learn_from_history_counted. unfold with_manager. cbn [core globalMemory metrics].
    by rewrite Hrc, Hec, Hmem.
  - apply caught_counted. by rewrite Hrc, Hec, Hmem.
Qed.

Lemma users_only_get id b :
  JsMap.get id (users_only b) = fmap (M := list) user <$> JsMap.get id b.
Proof.
  unfold users_only. induction b as [|[k h] b IH]; [done|].
  rewrite fmap_cons. cbn [JsMap.get fst snd].
  destruct (String.eqb k id); [done | apply IH].
Qed.

Lemma users_only_set id h b :
  users_only (JsMap.set id h b) = JsMap.set id (user <$> h) (users_only b).
Proof.
  unfold users_only. induction b as [|[k h0] b IH]; [done|].
  cbn [JsMap.set]. rewrite !fmap_cons. cbn [JsMap.set fst snd].
  destruct (String.eqb k id); [done|]. rewrite fmap_cons. cbn [fst snd].
  f_equal. apply IH.
Qed.

Lemma push_capped_users u a1 a2 t h1 h2 :
  user <$> h1 = user <$> h2 ->
  user <$> push_capped (Exchange u a1 t) h1
    = user <$> push_capped (Exchange u a2 t) h2.
Proof.
  intros Hh. unfold push_capped.
  assert (length h1 = length h2) as Hlen.
  { by rewrite <- (length_fmap user h1), Hh, length_fmap. }
  rewrite !length_app, Hlen.
  destruct (MAX_CONVERSATION_HISTORY <? _)%nat;
    rewrite ?fmap_drop, !fmap_app, Hh; done.
Qed.

Lemma addToHistory_users id u a1 a2 t sm1 sm2 :
  users_only (conversationBuffer sm1) = users_only (conversationBuffer sm2) ->
  users_only (conversationBuffer (addToHistory id u a1 t sm1))
    = users_only (conversationBuffer (addToHistory id u a2 t sm2)) /\
  user <$> history_of id (addToHistory id u a1 t sm1)
    = user <$> history_of id (addToHistory id u a2 t sm2).
Proof.
  intros Hb.
  assert (fmap (M := list) user <$> JsMap.get id (conversationBuffer sm1)
          = fmap (M := list) user <$> JsMap.get id (conversationBuffer sm2)) as Hget.
  { by rewrite <- !users_only_get, Hb. }
  rewrite !history_of_add_same.
  assert (user <$> history_of id sm1 = user <$> history_of id sm2) as Hh.
  { unfold history_of.
    destruct (JsMap.get id (conversationBuffer sm1)),
             (JsMap.get id (conversationBuffer sm2)); simpl in *; congruence. }
  split; [|by apply push_capped_users].
  unfold addToHistory, getConversationHistory, history_of in *.
  destruct (JsMap.get id (conversationBuffer sm1)) as [h1|],
           (JsMap.get id (conversationBuffer sm2)) as [h2|];
    try discriminate; cbn [conversationBuffer default] in *;
    rewrite !users_only_set, Hb; f_equal; by apply push_capped_users.
Qed.

Lemma learn_from_history_users cleanedMessage response1 response2 isLearned now
    duration history1 history2 s b1 b2 :
  user <$> history1 = user <$> history2 ->
  users_only b1 = users_only b2 ->
  (isLearned = true -> response1 = response2) ->
  let out1 := learn_from_history content_rules FORCE_SYNC_ON_LEARN cleanedMessage
                response1 isLearned now duration history1 s b1 in
  let out2 := learn_from_history content_rules FORCE_SYNC_ON_LEARN cleanedMessage
                response2 isLearned now duration history2 s b2 in
  core (snd (fst out1)) = core (snd (fst out2)) /\
  users_only (buffer (snd (fst out1))) = users_only (buffer (snd (fst out2))) /\
  snd out1 = snd out2 /\
  same_but_for_fallback (fst (fst out1)) (fst (fst out2)).
Proof.
  intros Hh Hb Hresp.
  assert (forall s' saves,
    let out1 := conclude response1 isLearned duration s' b1 saves in
    let out2 := conclude response2 isLearned duration s' b2 saves in
    core (snd (fst out1)) = core (snd (fst out2)) /\
    users_only (buffer (snd (fst out1))) = users_only (buffer (snd (fst out2))) /\
    snd out1 = snd out2 /\
    same_but_for_fallback (fst (fst out1)) (fst (fst out2))) as Hconclude.
  { intros s' saves. unfold conclude. cbn [fst snd core buffer].
    split; [done|]. split; [done|]. split; [done|].
    destruct isLearned.
    - left. by rewrite Hresp.
    - right. by eexists _, _, _, _. }
  assert (length history1 = length history2) as Hlen.
  { by rewrite <- (length_fmap user history1), Hh, length_fmap. }
  assert (forall i, user <$> history1 !! i = user <$> history2 !! i) as Hlook.
  { intros i. by rewrite <- !list_lookup_fmap, Hh. }
  intros out1 out2. subst out1 out2. unfold learn_from_history.
  rewrite Hlen. destruct (2 <=? length history2)%nat; [|apply Hconclude].
  specialize (Hlook (length history2 - 2)%nat).
  destruct (history1 !! _) as [prev1|], (history2 !! _) as [prev2|];
    try discriminate; [|apply Hconclude].
  injection Hlook as Hu. rewrite Hu.
  destruct (negb _ && negb _); [|apply Hconclude].
  destruct (MIN_QUALITY_SCORE <=? _); [|apply Hconclude].
  destruct (learnPattern _ _ _ _ _) as [m|m]; [apply Hconclude|].
  unfold caught. cbn [fst snd core buffer].
  split; [done|]. split; [done|]. split; [done|]. by left.
Qed.

(** X14. The server does not learn from its own replies. Two runs of the
    handler on the same request, from states that agree on everything but
    the replies recorded in the conversation buffer, and with different
    outcomes of Math.random, leave the same store, cache, metrics and
    sessions, ask for the same saves, and record the same user messages;
    their replies are the same or are two fallback answers. *)
Theorem replies_do_not_teach random1 random2 message sessionId now duration p1 p2 :
  core p1 = core p2 ->
  users_only (buffer p1) = users_only (buffer p2) ->
  let out1 := chat content_rules md5 FORCE_SYNC_ON_LEARN random1 message
                   sessionId now duration p1 in
  let out2 := chat content_rules md5 FORCE_SYNC_ON_LEARN random2 message
                   sessionId now duration p2 in
  core (snd (fst out1)) = core (snd (fst out2)) /\
  users_only (buffer (snd (fst out1))) = users_only (buffer (snd (fst out2))) /\
  snd out1 = snd out2 /\
  same_but_for_fallback (fst (fst out1)) (fst (fst out2)).
Proof.
  intros Hcore Hb out1 out2. subst out1 out2. unfold chat. rewrite Hcore.
  unfold chat_intake.
  destruct (validateMessage message) as [error|trimmed];
    [cbn [fst snd core buffer]; repeat split; try done; by left|].
  destruct (session_of sessionId) as [error|id];
    [cbn [fst snd core buffer]; repeat split; try done; by left|].
  destruct (rejected content_rules (clean trimmed));
    [cbn [fst snd core buffer]; repeat split; try done; by left|].
  set (q1 := with_manager (updateActivity id now
                (manager_of (Process (core p2) (buffer p1)))) (core p2)).
  set (q2 := with_manager (updateActivity id now
                (manager_of (Process (core p2) (buffer p2)))) (core p2)).
  assert (core q1 = core q2 /\ buffer q1 = buffer p1 /\ buffer q2 = buffer p2)
    as (Hq & Hb1 & Hb2) by done.
  clearbody q1 q2. rewrite Hq, Hb1, Hb2. clear Hq Hb1 Hb2 q1.
  destruct (findBestResponse md5 (clean trimmed) now (core q2)) as [found s2|s2].
  - set (isLearned := match found with Some r => truthy r | None => false end).
    set (response1 := match found with
                      | Some r => if truthy r then r
                                  else fallback random1 (clean trimmed)
                      | None => fallback random1 (clean trimmed) end).
    set (response2 := match found with
                      | Some r => if truthy r then r
                                  else fallback random2 (clean trimmed)
                      | None => fallback random2 (clean trimmed) end).
    destruct (addToHistory_users id (clean trimmed) response1 response2 now
                (manager_of (Process s2 (buffer p1)))
                (manager_of (Process s2 (buffer p2))) Hb) as [Hb3 Hh3].
    assert (forall r b, core (with_manager
              (addToHistory id (clean trimmed) r now (manager_of (Process s2 b))) s2)
              = s2) as Hcore3.
    { intros r b. unfold with_manager, addToHistory, getConversationHistory,
        manager_of. cbn [core buffer conversationBuffer].
      destruct (JsMap.get id b); cbn [activity sessions]; by destruct s2. }
    rewrite !Hcore3.
    apply learn_from_history_users; [exact Hh3 | exact Hb3 |].
    intros Hl. subst isLearned response1 response2.
    destruct found as [r|]; [|discriminate]. by rewrite Hl.
  - unfold caught. cbn [fst snd core buffer]. repeat split; try done. by left.
Qed.

Lemma chat_intake_proceeds message sessionId duration s cleaned s0 :
  chat_intake content_rules message sessionId duration s = (Proceeds cleaned, s0) ->
  s0 = s /\ rejected content_rules cleaned = false /\
  exists id, session_of sessionId = Valid id.
Proof.
  unfold chat_intake.
  destruct (validateMessage message) as [error|trimmed]; [discriminate|].
  destruct (session_of sessionId) as [error|id]; [discriminate|].
  destruct (rejected content_rules (clean trimmed)) eqn:Hrej; [discriminate|].
  intros [= <- <-]. split; [done|]. split; [done|]. by exists id.
Qed.

(** After the push and the shift the exchange before the last is the one
    that was last before the push, however long the history was. *)
Lemma push_capped_prev x h :
  let history := push_capped x h in
  match last h with
  | Some prev =>
      (2 <=? length history)%nat = true /\
      history !! (length history - 2)%nat = Some prev
  | None => (2 <=? length history)%nat = false
  end.
Proof.
  destruct h as [|e h] using rev_ind; [done|]. clear IHh.
  rewrite last_snoc. unfold push_capped.
  rewrite !length_app. cbn [length].
  destruct (MAX_CONVERSATION_HISTORY <? _)%nat eqn:Hc.
  - apply Nat.ltb_lt in Hc. unfold MAX_CONVERSATION_HISTORY in Hc.
    rewrite length_drop, !length_app. cbn [length]. split.
    + apply Nat.leb_le. lia.
    + rewrite lookup_drop, <- app_assoc. apply list_lookup_middle. lia.
  - rewrite !length_app. cbn [length]. split; [apply Nat.leb_le; lia|].
    rewrite <- app_assoc. apply list_lookup_middle. lia.
Qed.

(** X15. What a message teaches. A message that passes the checks and is
    answered with status 200 teaches the pair (previous user message of the
    session, this message), at the quality calculateQuality gives it,
    provided the session has a previous exchange whose user message is not
    garbage; otherwise it teaches nothing. The reply of the server, its
    fallback included, is not part of what is learned, the threshold
    MIN_QUALITY_SCORE never stops a pair, and the history may be of any
    length. *)
Theorem what_a_message_teaches random message sessionId now duration p cleaned
    id s0 :
  chat_intake content_rules message sessionId duration (core p)
    = (Proceeds cleaned, s0) ->
  session_of sessionId = Valid id ->
  is_error (fst (fst (chat content_rules md5 FORCE_SYNC_ON_LEARN random message
                           sessionId now duration p))) = false ->
  globalMemory (core (snd (fst (chat content_rules md5 FORCE_SYNC_ON_LEARN random
                                     message sessionId now duration p)))) =
    bump_totalMessages
      (taught content_rules (last (history_of id (manager_of p))) cleaned now
              (globalMemory (core p))).
Proof.
  intros Hintake Hid. unfold chat. rewrite Hintake, Hid.
  apply chat_intake_proceeds in Hintake as (-> & Hrej & _).
  apply orb_false_iff in Hrej as [_ Hgarbage].
  set (q1 := with_manager (updateActivity id now
                (manager_of (Process (core p) (buffer p)))) (core p)).
  assert (globalMemory (core q1) = globalMemory (core p) /\ buffer q1 = buffer p)
    as [Hg1 Hb1] by done.
  clearbody q1.
  pose proof (findBestResponse_memory md5 cleaned now (core q1)) as [Hmem _].
  destruct (findBestResponse md5 cleaned now (core q1)) as [found s2|s2];
    [|discriminate].
  cbn [state_of] in Hmem.
  set (response := match found with
                   | Some r => if truthy r then r else fallback random cleaned
                   | None => fallback random cleaned
                   end).
  set (p3 := with_manager (addToHistory id cleaned response now
                (manager_of (Process s2 (buffer q1)))) s2).
  assert (globalMemory (core p3) = globalMemory (core p)) as Hg3.
  { unfold p3, with_manager. cbn [core globalMemory]. by rewrite Hmem. }
  assert (default [] (JsMap.get id (buffer p3)) =
          push_capped (Exchange cleaned response now) (history_of id (manager_of p)))
    as ->.
  { unfold p3, with_manager. cbn [buffer].
    change (default [] (JsMap.get id (conversationBuffer ?sm)))
      with (history_of id sm).
    rewrite history_of_add_same. unfold history_of, manager_of.
    cbn [conversationBuffer]. by rewrite Hb1. }
  pose proof (push_capped_prev (Exchange cleaned response now)
                (history_of id (manager_of p))) as Hprev.
  unfold learn_from_history, taught.
  destruct (last (history_of id (manager_of p))) as [prev|].
  - destruct Hprev as [-> ->]. rewrite Hgarbage.
    destruct (isGarbage content_rules (user prev)); cbn [negb andb].
    + intros _. unfold conclude. cbn [fst snd core globalMemory set_metrics
        set_globalMemory]. by rewrite Hg3.
    + pose proof (calculateQuality_range (user prev) cleaned) as Hq.
      assert ((MIN_QUALITY_SCORE <=? calculateQuality (user prev) cleaned) = true)
        as -> by (apply Z.leb_le; unfold MIN_QUALITY_SCORE; lia).
      rewrite Hg3.
      destruct (learnPattern _ _ _ _ _) as [m|m]; [|discriminate].
      intros _. done.
  - rewrite Hprev. intros _. unfold conclude.
    cbn [fst snd core globalMemory set_metrics set_globalMemory]. by rewrite Hg3.
Qed.

(** *** The keyword "constructor" *)

Lemma forEach_learn_keyword_constructor inputLower resp q now ks :
  forall m,
  semanticClusters m !! "constructor" = None ->
  semanticClusters
    (store_of (forEach (learn_keyword inputLower resp q now) ks m))
    !! "constructor" = None /\
  ("constructor" ∈ ks ->
   returns (forEach (learn_keyword inputLower resp q now) ks m) = false).
Proof.
  induction ks as [|k ks IH]; intros m Hm.
  - split; [done|]. intros Hin. by apply elem_of_nil in Hin.
  - cbn [forEach]. unfold learn_keyword at 1 3, get_prop.
    destruct (decide (k = "constructor")) as [->|Hne].
    + rewrite Hm. by cbn.
    + destruct (semanticClusters m !! k) as [l|] eqn:Hl.
      * destruct (IH (set_semanticClusters
                        (<[k := cap_cluster (upsert inputLower resp q now l)]>
                           (semanticClusters m)) m)) as [Hsc Hthrow].
        { cbn. by rewrite lookup_insert_ne. }
        split; [done|]. intros Hin. apply Hthrow.
        apply elem_of_cons in Hin as [?|?]; [congruence | done].
      * destruct (Text.mem k object_prototype_keys); [done|].
        destruct (IH (set_semanticClusters
                        (<[k := cap_cluster (upsert inputLower resp q now [])]>
                           (semanticClusters m)) m)) as [Hsc Hthrow].
        { cbn. by rewrite lookup_insert_ne. }
        split; [done|]. intros Hin. apply Hthrow.
        apply elem_of_cons in Hin as [?|?]; [congruence | done].
Qed.

Lemma never_met_constructor_learnPattern text resp q now m :
  never_met_constructor m ->
  never_met_constructor (store_of (learnPattern text resp q now m)).
Proof.
  intros [Hsc Hcp]. unfold learnPattern.
  destruct (forEach_learn_keyword_constructor (Text.toLowerCase text) resp q now
              (extractKeywords text) m Hsc) as [Hsc1 Hthrow].
  pose proof (forEach_learn_keyword_pairs (Text.toLowerCase text) resp q now
                (extractKeywords text) m) as Hcp1.
  destruct (forEach _ _ m) as [m1|m1]; cbn [store_of returns] in *.
  - assert ("constructor" ∉ extractKeywords text) as Hno.
    { intros Hin. specialize (Hthrow Hin). discriminate. }
    unfold never_met_constructor.
    destruct (60 <=? q);
      cbn [semanticClusters contextPairs set_qualityScores set_contextPairs];
      (split; [done|]); [|by rewrite Hcp1].
    rewrite Hcp1. apply cap_pairs_Forall, upsert_Forall; [| |done].
    + unfold fresh. cbn [input]. by rewrite extractKeywords_lower.
    + by intros e He.
  - split; [done | by rewrite Hcp1].
Qed.

Lemma collect_prototype sc ks k :
  k ∈ ks -> get_prop sc k = Inherited -> PrototypeMember ∈ collect sc ks.
Proof.
  unfold collect. intros Hk Hprop.
  assert (forall ks acc,
    (PrototypeMember ∈ acc \/ k ∈ ks) ->
    PrototypeMember ∈ fold_left
        (fun candidates keyword =>
           match get_prop sc keyword with
           | Own l => candidates ++ map Stored l
           | Inherited => candidates ++ [PrototypeMember]
           | Undefined => candidates
           end) ks acc) as Hgen.
  { clear ks Hk. induction ks as [|k0 ks IH]; intros acc [Hacc|Hin].
    - done.
    - by apply elem_of_nil in Hin.
    - simpl. apply IH. left.
      destruct (get_prop sc k0); [apply elem_of_app; by left | | done].
      apply elem_of_app; by left.
    - simpl. apply IH. apply elem_of_cons in Hin as [<-|Hin]; [|by right].
      left. rewrite Hprop. apply elem_of_app. right. apply elem_of_cons. by left. }
  apply Hgen. by right.
Qed.

Lemma score_all_prototype keywords cs :
  PrototypeMember ∈ cs -> score_all keywords cs = None.
Proof.
  induction cs as [|c cs IH]; intros Hin; [by apply elem_of_nil in Hin|].
  destruct c as [e|]; [|done]. simpl.
  apply elem_of_cons in Hin as [?|Hin]; [discriminate|]. by rewrite IH.
Qed.

Lemma search_constructor text now s :
  never_met_constructor (globalMemory s) ->
  "constructor" ∈ extractKeywords text ->
  search md5 text now s = Throw s.
Proof.
  intros [Hsc Hcp] Hk. unfold search.
  destruct (find _ (contextPairs (globalMemory s))) as [e|] eqn:Hfind.
  { apply find_some in Hfind as [Hin Heq].
    apply list_elem_of_In in Hin. apply has_input_true in Heq.
    rewrite Forall_forall in Hcp. destruct (Hcp e Hin).
    by rewrite Heq, extractKeywords_lower. }
  assert (PrototypeMember ∈
            collect (semanticClusters (globalMemory s)) (extractKeywords text))
    as Hproto.
  { apply (collect_prototype _ _ "constructor"); [done|].
    unfold get_prop. by rewrite Hsc. }
  rewrite (score_all_prototype _ _ Hproto).
  destruct (collect _ _); [by apply elem_of_nil in Hproto | done].
Qed.

(** X16. No chat request makes the store meet the keyword "constructor":
    a store without a cluster for it and without an entry of ContextPairs
    whose input has it (the empty store is one) is such a store again
    after any request, however the request ends. *)
Theorem constructor_is_never_learned random message sessionId now duration p :
  never_met_constructor (globalMemory (core p)) ->
  never_met_constructor
    (globalMemory (core (snd (fst
       (chat content_rules md5 FORCE_SYNC_ON_LEARN random message sessionId
             now duration p))))).
Proof.
  intros Hnever. unfold chat, chat_intake.
  destruct (validateMessage message) as [error|trimmed]; [done|].
  destruct (session_of sessionId) as [error|id]; [done|].
  destruct (rejected content_rules (clean trimmed)); [done|].
  set (q1 := with_manager _ (core p)).
  assert (globalMemory (core q1) = globalMemory (core p)) as Hg1 by done.
  clearbody q1.
  pose proof (findBestResponse_memory md5 (clean trimmed) now (core q1))
    as [Hmem _].
  destruct (findBestResponse md5 (clean trimmed) now (core q1)) as [found s2|s2];
    cbn [state_of] in Hmem; [|cbn; by rewrite Hmem, Hg1].
  set (p3 := with_manager _ s2).
  assert (globalMemory (core p3) = globalMemory (core p)) as Hg3.
  { unfold p3, with_manager. cbn [core globalMemory]. by rewrite Hmem. }
  clearbody p3. unfold learn_from_history.
  assert (forall response isLearned saves,
    never_met_constructor
      (globalMemory (core (snd (fst
         (conclude response isLearned duration (core p3) (buffer p3) saves))))))
    as Hskip.
  { intros. cbn. by rewrite Hg3. }
  destruct (2 <=? length _)%nat; [|apply Hskip].
  destruct (_ !! _) as [prevPair|]; [|apply Hskip].
  destruct (negb _ && negb _); [|apply Hskip].
  destruct (MIN_QUALITY_SCORE <=? _); [|apply Hskip].
  pose proof (never_met_constructor_learnPattern (user prevPair) (clean trimmed)
                (calculateQuality (user prevPair) (clean trimmed)) now
                (globalMemory (core p3))) as Hlearn.
  rewrite Hg3 in Hlearn. specialize (Hlearn Hnever). rewrite Hg3.
  destruct (learnPattern _ _ _ _ _) as [m|m]; cbn [store_of] in Hlearn; done.
Qed.

(** X17. A message with the word "constructor" cannot be answered: in a
    store that has never met the keyword, a message that passes the checks,
    has "constructor" among its keywords and is not bound in the cache is
    answered with status 500. *)
Theorem constructor_gets_500 random message sessionId now duration p cleaned s0 :
  never_met_constructor (globalMemory (core p)) ->
  chat_intake content_rules message sessionId duration (core p)
    = (Proceeds cleaned, s0) ->
  "constructor" ∈ extractKeywords cleaned ->
  JsMap.get (_hash md5 cleaned) (responseCache (core p)) = None ->
  fst (fst (chat content_rules md5 FORCE_SYNC_ON_LEARN random message sessionId
                 now duration p)) = InternalError.
Proof.
  intros Hnever Hintake Hk Hmiss. unfold chat. rewrite Hintake.
  apply chat_intake_proceeds in Hintake as (-> & _ & id & ->).
  set (q1 := with_manager _ (core p)).
  assert (globalMemory (core q1) = globalMemory (core p) /\
          responseCache (core q1) = responseCache (core p)) as [Hg1 Hc1] by done.
  clearbody q1.
  assert (findBestResponse md5 cleaned now (core q1) =
          Throw (set_metrics (recordCacheMiss (metrics (core q1)))
                   (set_responseCache (responseCache (core q1)) (core q1)))) as ->.
  { unfold findBestResponse, cache_get. rewrite Hc1, Hmiss.
    apply search_constructor; [|done]. cbn. by rewrite Hg1. }
  done.
Qed.

End ChatFacts.

Lemma replies_do_not_teach_witness :
  let p := Process (booted emptyMemory) [] in
  let out1 := chat (fun _ => false) plain_key false 0 (Str "hello there")
                   Missing 0 0 p in
  let out2 := chat (fun _ => false) plain_key false (1 # 2) (Str "hello there")
                   Missing 0 0 p in
  core (snd (fst out1)) = core (snd (fst out2)) /\
  users_only (buffer (snd (fst out1))) = users_only (buffer (snd (fst out2))) /\
  snd out1 = snd out2 /\
  same_but_for_fallback (fst (fst out1)) (fst (fst out2)).
Proof.
  intros p.
  apply (replies_do_not_teach (fun _ => false) plain_key false 0 (1 # 2) (Str "hello there") Missing 0 0 p p);
    reflexivity.
Defined.

Lemma what_a_message_teaches_witness :
  let p := Process (booted emptyMemory)
                   [("default", [Exchange "do you like cats" "yeah?" 0])] in
  globalMemory (core (snd (fst (chat (fun _ => false) plain_key false 0
                                     (Str "they are so fluffy") Missing 5 0 p)))) =
    bump_totalMessages
      (taught (fun _ => false)
              (last (history_of "default" (manager_of p)))
              "they are so fluffy" 5 (globalMemory (core p))).
Proof.
  intros p.
  apply (what_a_message_teaches (fun _ => false) plain_key false 0
           (Str "they are so fluffy") Missing 5 0 p "they are so fluffy"
           "default" (core p)).
  - vm_compute. reflexivity.
  - vm_compute. reflexivity.
  - vm_compute. reflexivity.
Defined.

Lemma constructor_is_never_learned_witness :
  never_met_constructor
    (globalMemory (core (snd (fst
       (chat (fun _ => false) plain_key false 0 (Str "what is a constructor")
             Missing 5 0 (Process (booted emptyMemory) [])))))).
Proof.
  apply (constructor_is_never_learned (fun _ => false) plain_key false 0
           (Str "what is a constructor") Missing 5 0
           (Process (booted emptyMemory) [])).
  split; [reflexivity | constructor].
Defined.

Lemma constructor_gets_500_witness :
  fst (fst (chat (fun _ => false) plain_key false 0 (Str "What is a constructor?")
                 Missing 5 0 (Process (booted emptyMemory) []))) = InternalError.
Proof.
  apply (constructor_gets_500 (fun _ => false) plain_key false 0
           (Str "What is a constructor?") Missing 5 0
           (Process (booted emptyMemory) []) "What is a constructor?"
           (booted emptyMemory)).
  - split; [reflexivity | constructor].
  - vm_compute. reflexivity.
  - apply mem_true. vm_compute. reflexivity.
  - reflexivity.
Defined.

(** *** Fallback answers *)




(** ** The save coordinator: what reaches the file *)

Section SnapshotFacts.

Import Coordinator.

Context {mutation : Type}.
Implicit Types (s : state mutation) (ev : event mutation).




End SnapshotFacts.



(** ** Saving, then restarting *)

Section DurabilityFacts.

Import Persistence Durability.

Lemma or_else_empty a b : nonempty a = None -> or_else a b = b.
Proof.
  unfold nonempty, or_else. destruct a as [s|]; [|done].
  by destruct (String.eqb s "").
Qed.

Lemma or_else_text s b : s <> "" -> or_else (Some s) b = Some s.
Proof. intros Hs. apply String.eqb_neq in Hs. unfold or_else. by rewrite Hs. Qed.

Lemma or_else_full a b : nonempty a <> None -> or_else a b = a.
Proof.
  unfold nonempty, or_else. destruct a as [s|]; [|done].
  by destruct (String.eqb s "").
Qed.

(** X20. What saveMemory has saved is what a restart loads, when the
    remote stores yield nothing: after a save that fulfils with a text
    that is not empty, loadMemory picks that text. *)
Theorem saved_text_is_loaded env memoryStr d postgres_text replit_text :
  settled (saveMemory env memoryStr d) = Fulfilled ->
  memoryStr <> "" ->
  nonempty postgres_text = None ->
  nonempty replit_text = None ->
  chosen_text (restart postgres_text replit_text (after (saveMemory env memoryStr d)))
    = Some memoryStr.
Proof.
  intros Hsettled Hstr Hpg Hrp. unfold saveMemory in *.
  destruct (write_temp_ok env); [|discriminate].
  destruct (rename_temp_ok env); [|discriminate].
  destruct (write_persistent_ok env); [|discriminate].
  destruct (rename_persistent_ok env); [|discriminate].
  cbn [negb after]. unfold chosen_text, restart.
  cbn [from_postgres from_replit from_persistent_file from_memory_file
       persistent_file primary_file].
  change (or_else None postgres_text) with postgres_text.
  rewrite (or_else_empty postgres_text) by done.
  rewrite (or_else_empty replit_text) by done.
  rewrite or_else_text by done. unfold nonempty. by rewrite or_else_text.
Qed.

Lemma saved_text_is_loaded_witness :
  chosen_text (restart None None
                 (after (saveMemory (SaveEnv true true true true None None)
                                    "{}" blank_disk)))
    = Some "{}".
Proof.
  apply (saved_text_is_loaded (SaveEnv true true true true None None) "{}"
           blank_disk None None); vm_compute; congruence.
Defined.

(** X21. A synchronous save does not reach a restart once anything else
    has been saved: saveMemorySync writes the primary file only, which
    loadMemory reads last, so when Postgres, the Replit DB or the
    persistent file (kept apart from the primary file, as by default)
    yields a text that is not empty, a restart loads the same text with the
    synchronous save as without it. *)
Theorem sync_save_is_shadowed ok memoryStr d postgres_text replit_text :
  nonempty (or_else (or_else postgres_text replit_text) (persistent_file d))
    <> None ->
  chosen_text (restart postgres_text replit_text (fst (saveMemorySync ok memoryStr d)))
    = chosen_text (restart postgres_text replit_text d).
Proof.
  intros Hsome. unfold saveMemorySync. destruct ok; [|done].
  cbn [fst]. unfold chosen_text, restart.
  cbn [from_postgres from_replit from_persistent_file from_memory_file
       persistent_file primary_file].
  change (or_else None postgres_text) with postgres_text.
  by rewrite !(or_else_full _ _ Hsome).
Qed.

Lemma sync_save_is_shadowed_witness :
  let d := Disk (Some "old") (Some "old") None None in
  chosen_text (restart None None (fst (saveMemorySync true "new" d)))
    = chosen_text (restart None None d).
Proof.
  intros d. apply (sync_save_is_shadowed true "new" d None None).
  vm_compute. discriminate.
Defined.

End DurabilityFacts.

(** ** Backup rotation *)

Lemma append_cons c s t : (String c s ++ t)%string = String c (s ++ t)%string.
Proof. reflexivity. Qed.

Lemma append_assoc s t u : ((s ++ t) ++ u)%string = (s ++ (t ++ u))%string.
Proof.
  induction s as [|c s IH]; [done|]. by rewrite !append_cons, IH.
Qed.

Lemma rev_onto_append s : forall acc,
  Text.rev_onto s acc = (Text.rev_onto s EmptyString ++ acc)%string.
Proof.
  induction s as [|c s IH]; intros acc; [done|]. cbn [Text.rev_onto].
  rewrite (IH (String c acc)), (IH (String c EmptyString)).
  by rewrite append_assoc.
Qed.

Lemma rev_append s t : Text.rev (s ++ t) = (Text.rev t ++ Text.rev s)%string.
Proof.
  unfold Text.rev. induction s as [|c s IH].
  - change (EmptyString ++ t)%string with t. cbn [Text.rev_onto].
    induction (Text.rev_onto t EmptyString) as [|c r IHr]; [done|].
    by rewrite append_cons, <- IHr.
  - rewrite append_cons. cbn [Text.rev_onto].
    rewrite rev_onto_append, IH, (rev_onto_append s (String c EmptyString)).
    by rewrite append_assoc.
Qed.



Section BackupFacts.

Context {V : Type}.
Implicit Types (m : JsMap.t V) (ks : list string).




End BackupFacts.





(** ** What reaches the matcher *)

Lemma length_rev_onto s : forall acc,
  String.length (Text.rev_onto s acc) = (String.length s + String.length acc)%nat.
Proof.
  induction s as [|c s IH]; intros acc; [done|].
  cbn [Text.rev_onto String.length]. rewrite IH. cbn [String.length]. lia.
Qed.

Lemma length_rev s : String.length (Text.rev s) = String.length s.
Proof. unfold Text.rev. rewrite length_rev_onto. cbn [String.length]. lia. Qed.

Lemma length_drop_ws s : (String.length (Text.drop_ws s) <= String.length s)%nat.
Proof.
  induction s as [|c s IH]; [done|]. cbn [Text.drop_ws].
  destruct (Text.is_ws c); cbn [String.length]; lia.
Qed.

Lemma length_trim s : (String.length (Text.trim s) <= String.length s)%nat.
Proof.
  unfold Text.trim. rewrite length_rev.
  pose proof (length_drop_ws (Text.rev (Text.drop_ws s))) as H1.
  rewrite length_rev in H1. pose proof (length_drop_ws s). lia.
Qed.

Lemma length_drop_while p s :
  (String.length (Text.drop_while p s) <= String.length s)%nat.
Proof.
  induction s as [|c s IH]; [done|]. cbn [Text.drop_while].
  destruct (p c); cbn [String.length]; lia.
Qed.

Lemma length_strip_prefix_ci p : forall s r,
  Text.strip_prefix_ci p s = Some r -> (String.length r <= String.length s)%nat.
Proof.
  induction p as [|a p IH]; intros s r; cbn [Text.strip_prefix_ci].
  - by intros [= ->].
  - destruct s as [|c s]; [discriminate|].
    destruct (Ascii.eqb a (Text.lower_char c)); [|discriminate].
    intros Hr. apply IH in Hr. cbn [String.length]. lia.
Qed.

Lemma length_after_speaker names s r :
  after_speaker names s = Some r -> (String.length r <= String.length s)%nat.
Proof.
  induction names as [|name names IH]; cbn [after_speaker]; [discriminate|].
  destruct (Text.strip_prefix_ci name s) as [rest|] eqn:Hp; [|done].
  intros [= <-]. by apply (length_strip_prefix_ci name).
Qed.

Lemma length_after_colon s r :
  after_colon s = Some r -> (String.length r <= String.length s)%nat.
Proof.
  unfold after_colon. pose proof (length_drop_ws s) as Hs.
  destruct (Text.drop_ws s) as [|c rest]; [discriminate|].
  destruct (Ascii.eqb c ":"%char); [|discriminate]. intros [= <-].
  pose proof (length_drop_ws rest). cbn [String.length] in Hs. lia.
Qed.

Lemma length_strip_numbered s :
  (String.length (strip_numbered s) <= String.length s)%nat.
Proof.
  unfold strip_numbered.
  destruct (after_speaker speakers s) as [rest|] eqn:Hsp; [|done].
  apply length_after_speaker in Hsp.
  destruct (String.eqb _ _); [done|].
  destruct (after_colon _) as [r|] eqn:Hc; [|done].
  apply length_after_colon in Hc.
  pose proof (length_drop_while Text.is_digit (Text.drop_ws rest)).
  pose proof (length_drop_ws rest). lia.
Qed.

Lemma length_strip_lettered s :
  (String.length (strip_lettered s) <= String.length s)%nat.
Proof.
  unfold strip_lettered.
  destruct (after_speaker speakers s) as [rest|] eqn:Hsp; [|done].
  apply length_after_speaker in Hsp.
  pose proof (length_drop_ws rest) as Hws.
  destruct (Text.drop_ws rest) as [|c r]; [done|].
  destruct (Text.is_alpha c); [|done].
  destruct (after_colon r) as [r'|] eqn:Hc; [|done].
  apply length_after_colon in Hc. cbn [String.length] in Hws. lia.
Qed.

Lemma length_strip_bare s :
  (String.length (strip_bare s) <= String.length s)%nat.
Proof.
  unfold strip_bare.
  destruct (after_speaker speakers s) as [rest|] eqn:Hsp; [|done].
  apply length_after_speaker in Hsp.
  destruct (after_colon rest) as [r|] eqn:Hc; [|done].
  apply length_after_colon in Hc. lia.
Qed.

Lemma length_strip_quotes s :
  (String.length (strip_quotes s) <= String.length s)%nat.
Proof.
  unfold strip_quotes.
  set (s1 := match s with
             | String c rest => if is_quote c then rest else s
             | EmptyString => s
             end).
  assert (String.length s1 <= String.length s)%nat as H1.
  { subst s1. destruct s as [|c rest]; [done|].
    destruct (is_quote c); cbn [String.length]; lia. }
  pose proof (length_rev s1) as Hrev.
  destruct (Text.rev s1) as [|c rest]; [done|].
  destruct (is_quote c); [|done].
  rewrite length_rev. cbn [String.length] in Hrev. lia.
Qed.

Lemma length_collapse_ws_go gap s :
  (String.length (Text.collapse_ws_go gap s) <= String.length s)%nat.
Proof.
  revert gap. induction s as [|c s IH]; intros gap; [done|].
  cbn [Text.collapse_ws_go].
  destruct (Text.is_ws c); [destruct gap|]; cbn [String.length];
    pose proof (IH true); pose proof (IH false); lia.
Qed.

Lemma substring0_fits n : forall s,
  (String.length s <= n)%nat -> Text.substring0 n s = s.
Proof.
  induction n as [|n IH]; intros [|c s] Hs; cbn [String.length] in *;
    try done; [lia|].
  cbn [Text.substring0]. f_equal. apply IH. lia.
Qed.

Lemma rev_cons c s :
  Text.rev (String c s) = (Text.rev s ++ String c EmptyString)%string.
Proof. unfold Text.rev. cbn [Text.rev_onto]. apply rev_onto_append. Qed.

Lemma append_empty s : (s ++ EmptyString)%string = s.
Proof. induction s as [|c s IH]; [done|]. by rewrite append_cons, IH. Qed.

Lemma rev_involutive s : Text.rev (Text.rev s) = s.
Proof.
  induction s as [|c s IH]; [done|].
  rewrite rev_cons, rev_append, IH. reflexivity.
Qed.

Lemma drop_ws_clean s : starts_clean (Text.drop_ws s) = true.
Proof.
  induction s as [|c s IH]; [done|]. cbn [Text.drop_ws].
  destruct (Text.is_ws c) eqn:Hc; [done|]. cbn [starts_clean]. by rewrite Hc.
Qed.

Lemma drop_ws_id s : starts_clean s = true -> Text.drop_ws s = s.
Proof.
  destruct s as [|c s]; [done|]. cbn [starts_clean Text.drop_ws].
  by destruct (Text.is_ws c).
Qed.

Lemma drop_ws_split s : exists p, s = (p ++ Text.drop_ws s)%string.
Proof.
  induction s as [|c s [p IH]]; [by exists EmptyString|]. cbn [Text.drop_ws].
  destruct (Text.is_ws c).
  - exists (String c p). by rewrite append_cons, <- IH.
  - by exists EmptyString.
Qed.

Lemma trim_id s :
  starts_clean s = true -> starts_clean (Text.rev s) = true -> Text.trim s = s.
Proof.
  intros H1 H2. unfold Text.trim.
  by rewrite (drop_ws_id s H1), (drop_ws_id _ H2), rev_involutive.
Qed.

Lemma trim_clean s :
  starts_clean (Text.trim s) = true /\ starts_clean (Text.rev (Text.trim s)) = true.
Proof.
  unfold Text.trim. set (a := Text.drop_ws s).
  set (b := Text.drop_ws (Text.rev a)). split.
  - destruct (drop_ws_split (Text.rev a)) as [p Hp]. fold b in Hp.
    assert (a = (Text.rev b ++ Text.rev p)%string) as Ha.
    { rewrite <- rev_append, <- Hp. by rewrite rev_involutive. }
    pose proof (drop_ws_clean s) as Hclean. fold a in Hclean.
    destruct (Text.rev b) as [|c r]; [done|].
    rewrite Ha, append_cons in Hclean. done.
  - rewrite rev_involutive. apply drop_ws_clean.
Qed.

Lemma trim_idempotent s : Text.trim (Text.trim s) = Text.trim s.
Proof. destruct (trim_clean s). by apply trim_id. Qed.

Lemma is_ws_lower c : Text.is_ws (Text.lower_char c) = Text.is_ws c.
Proof. destruct c as [[] [] [] [] [] [] [] []]; reflexivity. Qed.

Lemma length_toLowerCase s :
  String.length (Text.toLowerCase s) = String.length s.
Proof. induction s as [|c s IH]; [done|]. cbn. by rewrite IH. Qed.

Lemma rev_onto_lower s : forall acc,
  Text.rev_onto (Text.toLowerCase s) (Text.toLowerCase acc)
    = Text.toLowerCase (Text.rev_onto s acc).
Proof.
  induction s as [|c s IH]; intros acc; [done|].
  cbn [Text.toLowerCase Text.rev_onto]. by rewrite <- IH.
Qed.

Lemma starts_clean_lower s : starts_clean (Text.toLowerCase s) = starts_clean s.
Proof. destruct s as [|c s]; [done|]. cbn. by rewrite is_ws_lower. Qed.

Lemma trim_lower_of_trimmed s :
  Text.trim s = s -> Text.trim (Text.toLowerCase s) = Text.toLowerCase s.
Proof.
  intros Hs. destruct (trim_clean s) as [H1 H2]. rewrite Hs in H1, H2.
  apply trim_id; [by rewrite starts_clean_lower|].
  unfold Text.rev in *.
  change (Text.rev_onto (Text.toLowerCase s) EmptyString)
    with (Text.rev_onto (Text.toLowerCase s) (Text.toLowerCase EmptyString)).
  by rewrite rev_onto_lower, starts_clean_lower.
Qed.

Lemma clean_of_short text :
  (String.length text <= MAX_MESSAGE_LENGTH)%nat ->
  Text.trim (clean text) = clean text.
Proof.
  intros Hlen. unfold clean. destruct (String.eqb text ""); [done|].
  rewrite substring0_fits; [apply trim_idempotent|].
  pose proof (length_trim text).
  pose proof (length_strip_numbered (Text.trim text)).
  pose proof (length_strip_lettered (strip_numbered (Text.trim text))).
  pose proof (length_strip_bare
                (strip_lettered (strip_numbered (Text.trim text)))).
  pose proof (length_strip_quotes
                (strip_bare (strip_lettered (strip_numbered (Text.trim text))))).
  pose proof (length_collapse_ws_go false
                (strip_quotes
                   (strip_bare (strip_lettered (strip_numbered (Text.trim text)))))).
  pose proof (length_trim
                (Text.collapse_ws
                   (strip_quotes
                      (strip_bare
                         (strip_lettered (strip_numbered (Text.trim text))))))).
  unfold Text.collapse_ws in *. lia.
Qed.

(** X23. A message that gets past validation and the garbage check is
    trimmed and has between 1 and 500 characters: validation admits 2000
    characters, but the length rule of isGarbage turns away whatever is
    longer than 500 once cleaned. *)
Theorem accepted_messages_are_short content_rules message sessionId duration s
    cleaned s0 :
  chat_intake content_rules message sessionId duration s = (Proceeds cleaned, s0) ->
  Text.trim cleaned = cleaned /\
  (1 <= String.length cleaned <= 500)%nat.
Proof.
  unfold chat_intake, validateMessage.
  destruct message as [|message|]; try discriminate.
  destruct (String.length (Text.trim message) <? MIN_MESSAGE_LENGTH)%nat;
    [discriminate|].
  destruct (MAX_MESSAGE_LENGTH <? String.length (Text.trim message))%nat eqn:Hmax;
    [discriminate|].
  apply Nat.ltb_ge in Hmax.
  destruct (suspicious message); [discriminate|].
  destruct (session_of sessionId) as [error|id]; [discriminate|].
  destruct (rejected content_rules (clean (Text.trim message))) eqn:Hrej;
    [discriminate|].
  intros [= <- <-].
  pose proof (clean_of_short (Text.trim message) Hmax) as Htrim.
  split; [done|].
  apply orb_false_iff in Hrej as [_ Hgarbage]. unfold isGarbage in Hgarbage.
  rewrite (trim_lower_of_trimmed _ Htrim), length_toLowerCase in Hgarbage.
  destruct (_ || _) eqn:Hlen; [discriminate|].
  apply orb_false_iff in Hlen as [Hlo Hhi].
  apply Nat.ltb_ge in Hlo, Hhi. lia.
Qed.

Lemma accepted_messages_are_short_witness :
  Text.trim "hello there" = "hello there" /\
  (1 <= String.length "hello there" <= 500)%nat.
Proof.
  apply (accepted_messages_are_short (fun _ => false) (Str "  User: hello   there ")
           Missing 0 (booted emptyMemory) "hello there" (booted emptyMemory)).
  vm_compute. reflexivity.
Defined.
